(** * Recovery core of RAMCloud: partition recovery, recovery completion,
      tablet migration and tablet ownership.

    The development embeds the relevant parts of [MasterService]
    (src/misc/crc32c.cc) and of the coordinator-side [Recovery] class
    exercised by src/RecoveryTest.cc, and proves the properties the
    specification states about them. *)

From Stdlib Require Import ZArith Lia String Sorted.
From stdpp Require Import base tactics option list gmap sets strings pretty.

Local Open Scope Z_scope.
#[local] Set Warnings "-clear-no-such-hyp".

(** Unsigned machine integers are modelled as [Z]; the only arithmetic the
    embedded code performs on them is counting, written with its
    wrap-around. *)
Definition wrap32 (x : Z) : Z := x mod 2 ^ 32.
Definition wrap64 (x : Z) : Z := x mod 2 ^ 64.

(* ================================================================== *)
(** * Partition recovery on the recovery master *)
(* ================================================================== *)

Module MasterService.

(** [MasterService::Replica::State]. *)
Inductive State := NOT_STARTED | WAITING | OK | FAILED.

#[global] Instance State_eq_dec : EqDecision State.
Proof. solve_decision. Defined.

(** [struct MasterService::Replica]. *)
Record Replica := mkReplica {
  backupId : Z;
  segmentId : Z;
  state : State
}.

(** [Replica::Replica(backupId, segmentId, state = NOT_STARTED)]. *)
Definition newReplica (b s : Z) : Replica := mkReplica b s NOT_STARTED.

Definition setState (s : State) (r : Replica) : Replica :=
  mkReplica (backupId r) (segmentId r) s.

(** What happens when a ready task is waited for: either the segment is
    fetched, passes [checkMetadataIntegrity] and is replayed, or one of the
    three exceptions caught by the event loop is raised. *)
Inductive RpcResult :=
| Replayed
| SegmentIteratorException
| ServerNotUpException
| ClientException.

#[global] Instance RpcResult_eq_dec : EqDecision RpcResult.
Proof. solve_decision. Defined.

(** The local variables of [MasterService::recover] (the helper).  A task
    slot holds the index of the replica its [RecoveryTask] refers to;
    [replayed] lists the segment ids handed to
    [objectManager.replaySegment], oldest first. *)
Record Scoreboard := mkScoreboard {
  replicas : list Replica;
  runningSet : gset Z;
  tasks : list (option nat);
  activeRequests : Z;
  notStarted : nat;
  replayed : list Z
}.

(** Number of task slots: [Tub<RecoveryTask> tasks[4]]. *)
Definition numTasks : nat := 4.

Definition initScoreboard (rs : list Replica) : Scoreboard :=
  {| replicas := rs;
     runningSet := ∅;
     tasks := replicate numTasks None;
     activeRequests := 0;
     notStarted := 0%nat;
     replayed := [] |}.

(** [task.construct(..., replica); replica.state = WAITING;
     runningSet.insert(replica.segmentId);] *)
Definition startTask (slot i : nat) (r : Replica) (sb : Scoreboard)
  : Scoreboard :=
  {| replicas := <[i := setState WAITING r]> (replicas sb);
     runningSet := {[segmentId r]} ∪ runningSet sb;
     tasks := <[slot := Some i]> (tasks sb);
     activeRequests := activeRequests sb;
     notStarted := notStarted sb;
     replayed := replayed sb |}.

(** [while (replicaIt != replicasEnd &&
            contains(runningSet, replicaIt->segmentId)) ++replicaIt;]
    [rest] is the part of the vector from [it] on. *)
Fixpoint skipRunning (running : gset Z) (rest : list Replica) (it : nat)
  : nat :=
  match rest with
  | [] => it
  | r :: rest' =>
      if decide (segmentId r ∈ running)
      then skipRunning running rest' (S it)
      else it
  end.

(** The initial round of RPCs: one iteration of [foreach (auto& task, tasks)]
    per element of [slots].  The slot is empty on entry, so [while (!task)]
    runs its body once; reaching the end of the vector leaves the loop
    ([goto doneStartingInitialTasks]).  Returns the iterator too. *)
Fixpoint startInitialTasks (slots : list nat) (replicaIt : nat)
    (sb : Scoreboard) : nat * Scoreboard :=
  match slots with
  | [] => (replicaIt, sb)
  | slot :: slots' =>
      match replicas sb !! replicaIt with
      | None => (replicaIt, sb)
      | Some r =>
          let sb1 := startTask slot replicaIt r sb in
          let sb2 :=
            {| replicas := replicas sb1;
               runningSet := runningSet sb1;
               tasks := tasks sb1;
               activeRequests := wrap32 (activeRequests sb1 + 1);
               notStarted := notStarted sb1;
               replayed := replayed sb1 |} in
          let it' := skipRunning (runningSet sb2)
                       (drop (S replicaIt) (replicas sb2)) (S replicaIt) in
          startInitialTasks slots' it' sb2
      end
  end.

(** [std::unordered_multimap<uint64_t, Replica*> segmentIdToBackups]: the
    pointers are indices into the vector. *)
Definition multimapInsert (k : Z) (v : nat) (m : gmap Z (list nat))
  : gmap Z (list nat) :=
  <[k := default [] (m !! k) ++ [v]]> m.

Definition equal_range (m : gmap Z (list nat)) (k : Z) : list nat :=
  default [] (m !! k).

Fixpoint buildSegmentIdToBackups (rs : list Replica) (i : nat)
    (m : gmap Z (list nat)) : gmap Z (list nat) :=
  match rs with
  | [] => m
  | r :: rs' => buildSegmentIdToBackups rs' (S i)
                  (multimapInsert (segmentId r) i m)
  end.

(** [otherReplica.state = Replica::State::OK] for every entry of the range. *)
Definition markOK (idxs : list nat) (rs : list Replica) : list Replica :=
  foldl (λ acc j, match acc !! j with
                  | Some r => <[j := setState OK r]> acc
                  | None => acc
                  end) rs idxs.

(** The [try] block and its handlers, for the task in [slot] on replica [i]. *)
Definition finishRpc (m : gmap Z (list nat)) (i : nat) (r : Replica)
    (res : RpcResult) (sb : Scoreboard) : Scoreboard :=
  match res with
  | Replayed =>
      {| replicas := markOK (equal_range m (segmentId r))
                       (<[i := setState OK r]> (replicas sb));
         runningSet := runningSet sb ∖ {[segmentId r]};
         tasks := tasks sb;
         activeRequests := activeRequests sb;
         notStarted := notStarted sb;
         replayed := replayed sb ++ [segmentId r] |}
  | _ =>
      {| replicas := <[i := setState FAILED r]> (replicas sb);
         runningSet := runningSet sb ∖ {[segmentId r]};
         tasks := tasks sb;
         activeRequests := activeRequests sb;
         notStarted := notStarted sb;
         replayed := replayed sb |}
  end.

(** [while (notStarted != replicasEnd &&
            notStarted->state != NOT_STARTED) ++notStarted;] *)
Fixpoint advanceNotStarted (rest : list Replica) (it : nat) : nat :=
  match rest with
  | [] => it
  | r :: rest' =>
      if decide (state r = NOT_STARTED) then it
      else advanceNotStarted rest' (S it)
  end.

(** The search for the next replica to request: the first entry from
    [it] on that is NOT_STARTED and whose segment is not in flight;
    [None] is [goto outOfHosts]. *)
Fixpoint findNext (running : gset Z) (rest : list Replica) (it : nat)
  : option nat :=
  match rest with
  | [] => None
  | r :: rest' =>
      if decide (state r ≠ NOT_STARTED ∨ segmentId r ∈ running)
      then findNext running rest' (S it)
      else Some it
  end.

(** [task.destroy()], the advance of [notStarted], and the refill of the
    slot; [--activeRequests] when the slot stays empty. *)
Definition refillTask (slot : nat) (sb : Scoreboard) : Scoreboard :=
  let ns := advanceNotStarted (drop (notStarted sb) (replicas sb))
              (notStarted sb) in
  let sb1 :=
    {| replicas := replicas sb;
       runningSet := runningSet sb;
       tasks := <[slot := None]> (tasks sb);
       activeRequests := activeRequests sb;
       notStarted := ns;
       replayed := replayed sb |} in
  match findNext (runningSet sb1) (drop ns (replicas sb1)) ns with
  | Some j =>
      match replicas sb1 !! j with
      | Some r => startTask slot j r sb1
      | None => sb1
      end
  | None =>
      {| replicas := replicas sb1;
         runningSet := runningSet sb1;
         tasks := tasks sb1;
         activeRequests := wrap32 (activeRequests sb1 - 1);
         notStarted := notStarted sb1;
         replayed := replayed sb1 |}
  end.

(** The body of [foreach (auto& task, tasks)] in the event loop once the
    task of [slot] is ready. *)
Definition completeTask (m : gmap Z (list nat)) (slot i : nat)
    (res : RpcResult) (sb : Scoreboard) : Scoreboard :=
  match replicas sb !! i with
  | Some r => refillTask slot (finishRpc m i r res sb)
  | None => sb
  end.

(** One slot of one pass: [if (!task) continue;
    if (!task->rpc->isReady()) continue; ...]. *)
Definition pollTask (m : gmap Z (list nat)) (ready : nat → bool)
    (outcome : nat → RpcResult) (sb : Scoreboard) (slot : nat)
  : Scoreboard :=
  match tasks sb !! slot with
  | Some (Some i) =>
      if ready slot then completeTask m slot i (outcome i) sb else sb
  | _ => sb
  end.

(** One iteration of [while (activeRequests)]. *)
Definition pass (m : gmap Z (list nat)) (ready : nat → bool)
    (outcome : nat → RpcResult) (sb : Scoreboard) : Scoreboard :=
  foldl (pollTask m ready outcome) sb (seq 0 numTasks).

(** [while (activeRequests) { ... }]; [ready n slot] tells whether the RPC
    of [slot] is ready in pass [n], and [outcome i] what waiting for the
    RPC of replica [i] yields.  [None]: the fuel ran out. *)
Fixpoint eventLoop (fuel : nat) (n : nat) (m : gmap Z (list nat))
    (ready : nat → nat → bool) (outcome : nat → RpcResult)
    (sb : Scoreboard) : option Scoreboard :=
  if decide (activeRequests sb = 0) then Some sb
  else match fuel with
       | O => None
       | S fuel' =>
           eventLoop fuel' (S n) m ready outcome
             (pass m (ready n) outcome sb)
       end.

(** [MasterService::detectSegmentRecoveryFailure]: the set [failures] after
    the scan; [None] stands for the failed [assert(false)]. *)
Fixpoint scanFailures (failures : gset Z) (rs : list Replica)
  : option (gset Z) :=
  match rs with
  | [] => Some failures
  | r :: rs' =>
      match state r with
      | OK => scanFailures (failures ∖ {[segmentId r]}) rs'
      | FAILED => scanFailures ({[segmentId r]} ∪ failures) rs'
      | WAITING | NOT_STARTED => None
      end
  end.

Inductive DetectResult :=
| NoFailure
| SegmentRecoveryFailedException (failures : gset Z)
| AssertionFailed.

Definition detectSegmentRecoveryFailure (rs : list Replica) : DetectResult :=
  match scanFailures ∅ rs with
  | None => AssertionFailed
  | Some failures =>
      if decide (failures = ∅) then NoFailure
      else SegmentRecoveryFailedException failures
  end.

(** Outcome of the helper [MasterService::recover]: the side log is
    committed, or the exception propagates to the caller. *)
Inductive RecoverResult :=
| Committed (sb : Scoreboard)
| SegmentRecoveryFailed (sb : Scoreboard)
| Aborted (sb : Scoreboard).

(** The state when the event loop is entered. *)
Definition startRecovery (rs : list Replica) : Scoreboard :=
  (startInitialTasks (seq 0 numTasks) 0 (initScoreboard rs)).2.

(** [MasterService::recover(recoveryId, masterId, partitionId, replicas,
    nextNodeIdMap)]. *)
Definition recover (fuel : nat) (ready : nat → nat → bool)
    (outcome : nat → RpcResult) (rs : list Replica)
  : option RecoverResult :=
  let m := buildSegmentIdToBackups rs 0 ∅ in
  match eventLoop fuel 0 m ready outcome (startRecovery rs) with
  | None => None
  | Some sb =>
      Some match detectSegmentRecoveryFailure (replicas sb) with
           | NoFailure => Committed sb
           | SegmentRecoveryFailedException _ => SegmentRecoveryFailed sb
           | AssertionFailed => Aborted sb
           end
  end.

Definition scoreboardOf (res : RecoverResult) : Scoreboard :=
  match res with
  | Committed sb | SegmentRecoveryFailed sb | Aborted sb => sb
  end.

(** The replica vector the RECOVER handler builds from the request. *)
Definition parseReplicas (wire : list (Z * Z)) : list Replica :=
  map (λ p, newReplica p.1 p.2) wire.

(** ** Invariants of the scoreboard *)

(** Number of occupied task slots. *)
Fixpoint countActive (ts : list (option nat)) : nat :=
  match ts with
  | [] => 0
  | Some _ :: ts' => S (countActive ts')
  | None :: ts' => countActive ts'
  end.

(** The state update of a successful replay, seen on the whole vector. *)
Definition markSegment (s : Z) (rs : list Replica) : list Replica :=
  map (λ x, if decide (segmentId x = s) then setState OK x else x) rs.

(** Replicas that still have to reach OK or FAILED. *)
Definition isPending (r : Replica) : bool :=
  match state r with
  | NOT_STARTED | WAITING => true
  | OK | FAILED => false
  end.

Fixpoint pending (rs : list Replica) : nat :=
  match rs with
  | [] => 0
  | r :: rs' => ((if isPending r then 1 else 0) + pending rs')%nat
  end.

(** What holds of the replica vector, [runningSet], [notStarted] and the
    replay log between two task completions.  [rs0] is the vector
    [recover] was called with and [outcome] the results of the RPCs. *)
Record ReplicaInv (rs0 : list Replica) (outcome : nat → RpcResult)
    (sb : Scoreboard) : Prop := {
  inv_segs : map segmentId (replicas sb) = map segmentId rs0;
  inv_running : ∀ s, s ∈ runningSet sb ↔
    ∃ i r, replicas sb !! i = Some r ∧ state r = WAITING ∧ segmentId r = s;
  inv_waiting_distinct : ∀ i j ri rj,
    replicas sb !! i = Some ri → replicas sb !! j = Some rj →
    state ri = WAITING → state rj = WAITING →
    segmentId ri = segmentId rj → i = j;
  inv_notStarted : ∀ j r, (j < notStarted sb)%nat →
    replicas sb !! j = Some r → state r ≠ NOT_STARTED;
  inv_ok_closed : ∀ i j ri rj,
    replicas sb !! i = Some ri → replicas sb !! j = Some rj →
    segmentId ri = segmentId rj → state ri = OK → state rj = OK;
  inv_failed : ∀ i r, replicas sb !! i = Some r → state r = FAILED →
    outcome i ≠ Replayed;
  inv_replayed_nodup : NoDup (replayed sb);
  inv_replayed : ∀ s, s ∈ replayed sb ↔
    ∃ i r, replicas sb !! i = Some r ∧ segmentId r = s ∧ state r = OK
}.

(** What ties the task slots to the vector: the occupied slots are exactly
    the WAITING replicas. *)
Record TaskInv (ts : list (option nat)) (sb : Scoreboard) : Prop := {
  inv_tasks_len : length ts = numTasks;
  inv_task_waiting : ∀ slot i, ts !! slot = Some (Some i) →
    ∃ r, replicas sb !! i = Some r ∧ state r = WAITING;
  inv_waiting_task : ∀ i r, replicas sb !! i = Some r → state r = WAITING →
    ∃ slot, ts !! slot = Some (Some i);
  inv_task_inj : ∀ s1 s2 i,
    ts !! s1 = Some (Some i) → ts !! s2 = Some (Some i) → s1 = s2
}.

(** Invariant of every state of [recover], the initial round included. *)
Record CoreInv (rs0 : list Replica) (outcome : nat → RpcResult)
    (sb : Scoreboard) : Prop := {
  inv_replica : ReplicaInv rs0 outcome sb;
  inv_task : TaskInv (tasks sb) sb;
  inv_active : activeRequests sb = Z.of_nat (countActive (tasks sb))
}.

(** Invariant of the event loop: once a slot is idle, every replica not yet
    requested is shadowed by a request in flight for its segment. *)
Record LoopInv (rs0 : list Replica) (outcome : nat → RpcResult)
    (sb : Scoreboard) : Prop := {
  inv_core : CoreInv rs0 outcome sb;
  inv_idle : ∀ slot, tasks sb !! slot = Some None →
    ∀ j r, replicas sb !! j = Some r → state r = NOT_STARTED →
    segmentId r ∈ runningSet sb
}.

(** Invariant of the initial round after [k] slots, with the iterator at
    [it]: the replicas before the iterator are requested or shadowed, those
    from the iterator on are untouched. *)
Record InitInv (rs0 : list Replica) (outcome : nat → RpcResult)
    (k it : nat) (sb : Scoreboard) : Prop := {
  init_core : CoreInv rs0 outcome sb;
  init_empty : ∀ s, (k ≤ s < numTasks)%nat → tasks sb !! s = Some None;
  init_full : ∀ s, (s < k)%nat → ∃ i, tasks sb !! s = Some (Some i);
  init_before : ∀ j r, (j < it)%nat → replicas sb !! j = Some r →
    state r = NOT_STARTED → segmentId r ∈ runningSet sb;
  init_after : ∀ j r, (it ≤ j)%nat → replicas sb !! j = Some r →
    state r = NOT_STARTED;
  init_cursor : ∀ r, replicas sb !! it = Some r →
    segmentId r ∉ runningSet sb
}.

(** States of the event loop, between two task completions (in any order
    of completion). *)
Inductive inLoop (rs0 : list Replica) (outcome : nat → RpcResult)
  : Scoreboard → Prop :=
| loop_enter : inLoop rs0 outcome (startRecovery rs0)
| loop_complete sb slot i :
    inLoop rs0 outcome sb →
    tasks sb !! slot = Some (Some i) →
    inLoop rs0 outcome
      (completeTask (buildSegmentIdToBackups rs0 0 ∅) slot i (outcome i) sb).

(** The states of [recover]: those of the initial round, after each of its
    slots, and those of the event loop. *)
Inductive reachable (rs0 : list Replica) (outcome : nat → RpcResult)
  : Scoreboard → Prop :=
| reach_initial k :
    (k ≤ numTasks)%nat →
    reachable rs0 outcome
      (startInitialTasks (seq 0 k) 0 (initScoreboard rs0)).2
| reach_loop sb :
    inLoop rs0 outcome sb → reachable rs0 outcome sb.

(** Every RPC gets ready eventually. *)
Definition fair (ready : nat → nat → bool) : Prop :=
  ∀ n slot, ∃ k, (n ≤ k)%nat ∧ ready k slot = true.

(** The scheduler under which every RPC is ready whenever it is polled. *)
Definition allReady : nat → nat → bool := λ _ _, true.

(** Scenario S5: the first replica returns a corrupt segment, the others
    are fine. *)
Definition corruptFirst (i : nat) : RpcResult :=
  match i with
  | O => SegmentIteratorException
  | S _ => Replayed
  end.

Definition allNotStarted (rs : list Replica) : Prop :=
  ∀ r, r ∈ rs → state r = NOT_STARTED.

End MasterService.

(* ================================================================== *)
(** * The tablet table *)
(* ================================================================== *)

Module TabletManager.

(** [TabletManager::TabletState]. *)
Inductive TabletState := NORMAL | RECOVERING | LOCKED_FOR_MIGRATION.

#[global] Instance TabletState_eq_dec : EqDecision TabletState.
Proof. solve_decision. Defined.

(** [TabletManager::Tablet], with the fields [MasterService] reads. *)
Record Tablet := mkTablet {
  tableId : Z;
  startKeyHash : Z;
  endKeyHash : Z;
  state : TabletState
}.

#[global] Instance Tablet_eq_dec : EqDecision Tablet.
Proof. solve_decision. Defined.

(** The tablet has exactly the given table id and key hash range. *)
Definition isTablet (tid first last : Z) (t : Tablet) : bool :=
  bool_decide (tableId t = tid ∧ startKeyHash t = first ∧
               endKeyHash t = last).

(** The tablet shares a key hash with the given range of the table. *)
Definition overlaps (tid first last : Z) (t : Tablet) : bool :=
  bool_decide (tableId t = tid ∧ first ≤ endKeyHash t ∧
               startKeyHash t ≤ last).

(** Modelled from the spec: [TabletManager] (TabletManager.cc is not
    among the sources).  The tablets a master owns are pairwise
    non-overlapping in (tableId, key hash range); [addTablet] adds a tablet
    in the given state unless it overlaps one already there and tells
    whether it did. *)
Definition addTablet (tid first last : Z) (st : TabletState)
    (tm : list Tablet) : bool * list Tablet :=
  if existsb (overlaps tid first last) tm then (false, tm)
  else (true, tm ++ [mkTablet tid first last st]).

(** Modelled from the spec: [TabletManager::getTablet(tableId,
    startKeyHash, endKeyHash, outTablet)], the tablet of exactly that
    range, if the master has one. *)
Definition getTablet (tid first last : Z) (tm : list Tablet)
  : option Tablet :=
  find (isTablet tid first last) tm.

(** Modelled from the spec: [TabletManager::changeState]: the tablet of
    exactly that range goes from [oldState] to [newState]; [false] when
    there is no such tablet or it is not in [oldState]. *)
Fixpoint changeState (tid first last : Z) (oldState newState : TabletState)
    (tm : list Tablet) : bool * list Tablet :=
  match tm with
  | [] => (false, [])
  | t :: tm' =>
      if isTablet tid first last t then
        if decide (state t = oldState)
        then (true, mkTablet tid first last newState :: tm')
        else (false, tm)
      else
        let '(changed, tm'') :=
          changeState tid first last oldState newState tm' in
        (changed, t :: tm'')
  end.

(** Modelled from the spec: [TabletManager::deleteTablet]. *)
Definition deleteTablet (tid first last : Z) (tm : list Tablet)
  : list Tablet :=
  filter (λ t, isTablet tid first last t = false) tm.

(** The invariant of the tablet table: ranges are not empty and tablets
    are pairwise non-overlapping. *)
Fixpoint wellFormed (tm : list Tablet) : Prop :=
  match tm with
  | [] => True
  | t :: tm' =>
      startKeyHash t ≤ endKeyHash t ∧
      existsb (overlaps (tableId t) (startKeyHash t) (endKeyHash t)) tm'
        = false ∧
      wellFormed tm'
  end.

End TabletManager.

(** [Status] codes the embedded handlers answer with. *)
Inductive Status :=
| STATUS_OK
| STATUS_UNKNOWN_TABLET
| STATUS_OBJECT_EXISTS
| STATUS_REQUEST_FORMAT_ERROR
| STATUS_INTERNAL_ERROR
| STATUS_RETRY.

#[global] Instance Status_eq_dec : EqDecision Status.
Proof. solve_decision. Defined.

(* ================================================================== *)
(** * Taking ownership of a tablet *)
(* ================================================================== *)

Module Ownership.
Import TabletManager.

(** The part of the master [takeTabletOwnership] touches; [syncs] counts
    the calls of [objectManager.syncChanges]. *)
Record Master := mkMaster {
  tabletManager : list Tablet;
  logEverSynced : bool;
  syncs : nat
}.

(** [MasterService::takeTabletOwnership]; the response header starts out
    with status zero, [STATUS_OK]. *)
Definition takeTabletOwnership (tid first last : Z) (m : Master)
  : Status * Master :=
  let m1 :=
    if logEverSynced m then m
    else mkMaster (tabletManager m) true (S (syncs m)) in
  let '(added, tm1) := addTablet tid first last NORMAL (tabletManager m1) in
  if added then
    (STATUS_OK, mkMaster tm1 (logEverSynced m1) (syncs m1))
  else
    let alreadyNormal :=
      match getTablet tid first last (tabletManager m1) with
      | Some tablet => bool_decide (state tablet = NORMAL)
      | None => false
      end in
    if alreadyNormal then (STATUS_OK, m1)
    else
      let '(changed, tm2) :=
        changeState tid first last RECOVERING NORMAL (tabletManager m1) in
      if changed then
        (STATUS_OK, mkMaster tm2 (logEverSynced m1) (syncs m1))
      else
        (STATUS_INTERNAL_ERROR, m1).

(** A master that holds the tablet (1, [0, 9]) locked for migration, as
    [migrateTablet] leaves it during its second phase. *)
Definition lockedMaster : Master :=
  mkMaster [mkTablet 1 0 9 LOCKED_FOR_MIGRATION] true 1.

End Ownership.

(* ================================================================== *)
(** * The RECOVER handler: recovery completion *)
(* ================================================================== *)

Module RecoverRpc.
Import TabletManager.

(** Modelled from the spec: [Atomic<uint64_t>::compareExchange(test,
    newValue)] (Atomic.h is not among the sources), the compare-and-swap
    behind "the write must be monotonic under concurrent observers": on a
    variable holding [value] it stores [newValue] if [value] is [test];
    it returns the value found.  The pair is the value found and the value
    left. *)
Definition compareExchange (value test newValue : Z) : Z * Z :=
  (value, if decide (value = test) then newValue else value).

(** The loop
    [while (currentClusterTime < clientLease.timestamp)
       currentClusterTime = clusterTime.compareExchange(
           currentClusterTime, clientLease.timestamp);]
    run next to other threads: before each exchange another thread may
    have advanced [clusterTime] to the head of [others] (cluster time only
    moves forward).  Returns the value left in [clusterTime]. *)
Fixpoint clusterTimeLoop (fuel : nat) (others : list Z)
    (currentClusterTime timestamp value : Z) : option Z :=
  if decide (currentClusterTime < timestamp) then
    match fuel with
    | O => None
    | S fuel' =>
        let value1 := match others with
                      | [] => value
                      | v :: _ => Z.max value v
                      end in
        let '(found, value2) :=
          compareExchange value1 currentClusterTime timestamp in
        clusterTimeLoop fuel' (tail others) found timestamp value2
    end
  else Some value.

(** [uint64_t currentClusterTime = clusterTime;] and the loop. *)
Definition updateClusterTime (others : list Z) (timestamp value : Z)
  : option Z :=
  clusterTimeLoop (length others + 3) others value timestamp value.

(** What the handler does that others can see, in order. *)
Inductive Event :=
| SendReply
| GetLeaseInfoStarted
| TabletAdded (tid first last : Z)
| ClusterTimeUpdated (value : Z)
| HeadRolledOver
| PartitionRecovered (successful : bool)
| RecoveryMasterFinished (successful : bool)
| LocksRegrabbed
| TabletNormal (tid first last : Z)
| IndexletsNormal
| TabletDeleted (tid first last : Z)
| OrphansRemoved.

(** The part of the master the handler touches. *)
Record Master := mkMaster {
  clusterTime : Z;
  tabletManager : list Tablet;
  trace : list Event
}.

Definition emit (e : Event) (m : Master) : Master :=
  mkMaster (clusterTime m) (tabletManager m) (trace m ++ [e]).

(** The RECOVER request: the tablets of the partition as
    (table_id, start_key_hash, end_key_hash), and the replicas as
    (backupId, segmentId). *)
Record Request := mkRequest {
  recoveryId : Z;
  crashedServerId : Z;
  partitionId : Z;
  tablets : list (Z * Z * Z);
  wireReplicas : list (Z * Z)
}.

(** What the rest of the cluster does during the handler: the timestamp
    of the coordinator's lease reply, the concurrent updates of
    [clusterTime], the scheduling and the results of the GetRecoveryData
    RPCs, the coordinator's answer to [recoveryMasterFinished] and whether
    the indexlets of the partition could be set to NORMAL. *)
Record Environment := mkEnvironment {
  leaseTimestamp : Z;
  others : list Z;
  fuel : nat;
  ready : nat → nat → bool;
  outcome : nat → MasterService.RpcResult;
  cancelRecovery : bool → bool;
  indexletsChanged : bool
}.

Inductive Result :=
| Returned
| Died
| OverlapException
| FatalError
| AssertionFailure
| Diverged.

(** [foreach (newTablet, recoveryPartition.tablet()) addTablet(...,
    RECOVERING)]; [false] when a tablet overlaps one already there. *)
Fixpoint installTablets (ts : list (Z * Z * Z)) (m : Master)
  : bool * Master :=
  match ts with
  | [] => (true, m)
  | (tid, first, last) :: ts' =>
      let '(added, tm) :=
        addTablet tid first last RECOVERING (tabletManager m) in
      if added then
        installTablets ts'
          (emit (TabletAdded tid first last)
             (mkMaster (clusterTime m) tm (trace m)))
      else (false, m)
  end.

(** [foreach (tablet, recoveryPartition.tablet()) changeState(...,
    RECOVERING, NORMAL)]; [false] when a state could not be changed. *)
Fixpoint markTabletsNormal (ts : list (Z * Z * Z)) (m : Master)
  : bool * Master :=
  match ts with
  | [] => (true, m)
  | (tid, first, last) :: ts' =>
      let '(changed, tm) :=
        changeState tid first last RECOVERING NORMAL (tabletManager m) in
      if changed then
        markTabletsNormal ts'
          (emit (TabletNormal tid first last)
             (mkMaster (clusterTime m) tm (trace m)))
      else (false, m)
  end.

(** [foreach (tablet, recoveryPartition.tablet()) deleteTablet(...)]. *)
Fixpoint deleteTablets (ts : list (Z * Z * Z)) (m : Master) : Master :=
  match ts with
  | [] => m
  | (tid, first, last) :: ts' =>
      deleteTablets ts'
        (emit (TabletDeleted tid first last)
           (mkMaster (clusterTime m)
              (deleteTablet tid first last (tabletManager m)) (trace m)))
  end.

(** The handler [MasterService::recover(reqHdr, respHdr, rpc)] up to the
    call of the helper: the reply, the request for the lease, the
    installation of the tablets, the update of the cluster time and the
    roll-over of the log head.  [Some r]: the handler ends there with [r]. *)
Definition prepare (req : Request) (env : Environment) (m : Master)
  : option Result * Master :=
  if decide (partitionId req = 4294967295) then (Some Died, m)
  else
    let m1 := emit GetLeaseInfoStarted (emit SendReply m) in
    match installTablets (tablets req) m1 with
    | (false, m2) => (Some OverlapException, m2)
    | (true, m2) =>
        match updateClusterTime (others env) (leaseTimestamp env)
                (clusterTime m2) with
        | None => (Some Diverged, m2)
        | Some ct =>
            (None,
             emit HeadRolledOver
               (emit (ClusterTimeUpdated ct)
                  (mkMaster ct (tabletManager m2) (trace m2))))
        end
    end.

(** The handler from the report to the coordinator on; [successful] is
    false when the helper threw [SegmentRecoveryFailedException].  Of the
    indexlets of the partition only the outcome of their change to NORMAL
    is kept. *)
Definition complete (req : Request) (env : Environment) (successful : bool)
    (m3 : Master) : Result * Master :=
  let m4 := emit (RecoveryMasterFinished successful)
              (emit (PartitionRecovered successful) m3) in
  if cancelRecovery env successful then
    (Returned, emit OrphansRemoved (deleteTablets (tablets req) m4))
  else
    match markTabletsNormal (tablets req) (emit LocksRegrabbed m4) with
    | (false, m5) => (FatalError, m5)
    | (true, m5) =>
        if indexletsChanged env
        then (Returned, emit IndexletsNormal m5)
        else (FatalError, m5)
    end.

(** The handler [MasterService::recover(reqHdr, respHdr, rpc)]. *)
Definition recover (req : Request) (env : Environment) (m : Master)
  : Result * Master :=
  match prepare req env m with
  | (Some r, m') => (r, m')
  | (None, m3) =>
      match MasterService.recover (fuel env) (ready env) (outcome env)
              (MasterService.parseReplicas (wireReplicas req)) with
      | None => (Diverged, m3)
      | Some (MasterService.Aborted _) => (AssertionFailure, m3)
      | Some (MasterService.Committed _) => complete req env true m3
      | Some (MasterService.SegmentRecoveryFailed _) =>
          complete req env false m3
      end
  end.

(** Every [TabletNormal] of the trace comes after a [ClusterTimeUpdated]
    to a value that is at least [ts] and at least [old]. *)
Definition gated (ts old : Z) (tr : list Event) : Prop :=
  ∀ i tid first last, tr !! i = Some (TabletNormal tid first last) →
    ∃ j v, (j < i)%nat ∧ tr !! j = Some (ClusterTimeUpdated v) ∧
           ts ≤ v ∧ old ≤ v.

Definition isTabletNormal (e : Event) : bool :=
  match e with
  | TabletNormal _ _ _ => true
  | _ => false
  end.

(** A recovery of the partition with the tablet (1, [0, 9]) from the
    two replicas of scenario S5, next to one concurrent update of the
    cluster time; the coordinator does not cancel. *)
Definition requestS5 : Request :=
  mkRequest 1 99 0 [(1, 0, 9)] [(1, 42); (2, 42)].

Definition environmentS5 : Environment :=
  mkEnvironment 100 [50] 5 MasterService.allReady MasterService.corruptFirst
    (λ _, false) true.

Definition masterS5 : Master := mkMaster 7 [] [].

End RecoverRpc.

(* ================================================================== *)
(** * Tablet migration *)
(* ================================================================== *)

Module Migration.
Import TabletManager.

(** [LogEntryType]: the three types migration looks at, and the others
    by their number. *)
Inductive LogEntryType :=
| LOG_ENTRY_TYPE_OBJ
| LOG_ENTRY_TYPE_OBJTOMB
| LOG_ENTRY_TYPE_TXDECISION
| LOG_ENTRY_TYPE_OTHER (n : Z).

#[global] Instance LogEntryType_eq_dec : EqDecision LogEntryType.
Proof. solve_decision. Defined.

(** A log entry as the iterator presents it: its type, the table id, key
    and key hash its [Key] or [TxDecisionRecord] yields, the version of
    the object (for a tombstone, of the object it deletes), the size of
    its buffer and its reference in the log. *)
Record LogEntry := mkLogEntry {
  entryType : LogEntryType;
  entryTableId : Z;
  entryKey : Z;
  entryKeyHash : Z;
  entryVersion : Z;
  entrySize : Z;
  entryReference : Z
}.

#[global] Instance LogEntry_eq_dec : EqDecision LogEntry.
Proof. solve_decision. Defined.

(** Modelled from the spec: [ObjectManager::keyPointsAtReference]
    (ObjectManager.cc is not among the sources): "the hash table still
    points at this log entry (i.e., it is the live version)".  The hash
    table gives the reference of the live object of (table id, key). *)
Definition keyPointsAtReference (hashTable : gmap (Z * Z) Z) (e : LogEntry)
  : bool :=
  bool_decide (hashTable !! (entryTableId e, entryKey e)
               = Some (entryReference e)).

(** Modelled from the spec: [Segment] (Segment.cc is not among the
    sources), the fixed-size append unit of the log: [append] adds the
    entry unless it does not fit in what is left of [capacity] bytes. *)
Definition segmentBytes (seg : list LogEntry) : Z :=
  foldr (λ e acc, entrySize e + acc) 0 seg.

Definition segmentAppend (capacity : Z) (seg : list LogEntry) (e : LogEntry)
  : option (list LogEntry) :=
  if decide (segmentBytes seg + entrySize e ≤ capacity)
  then Some (seg ++ [e]) else None.

(** The MIGRATE_TABLET request. *)
Record Request := mkRequest {
  tableId : Z;
  firstKeyHash : Z;
  lastKeyHash : Z;
  newOwnerMasterId : Z
}.

(** The RPCs the migration sends. *)
Inductive Rpc :=
| PrepForMigration (owner tid first last : Z)
| GetHeadOfLog (owner : Z)
| ReceiveMigrationData (owner : Z) (segment : list LogEntry) (tid first : Z)
| ReassignTabletOwnership (tid first last owner headId headOffset : Z).

(** What [migrateSingleLogEntry] works on: the transfer segment, the
    counters, the status of the response and the RPCs sent so far. *)
Record Transfer := mkTransfer {
  transferSeg : option (list LogEntry);
  entryTotals : LogEntryType → Z;
  totalBytes : Z;
  status : Status;
  rpcs : list Rpc
}.

Definition increment (totals : LogEntryType → Z) (type : LogEntryType)
  : LogEntryType → Z :=
  λ t, if decide (t = type) then wrap64 (totals t + 1) else totals t.

(** The end of [migrateSingleLogEntry], from [entryTotals[type]++] on:
    the entry is counted and appended; when it does not fit, the segment
    is sent and a fresh one is tried. *)
Definition appendToTransfer (capacity : Z) (req : Request) (it : LogEntry)
    (tr : Transfer) : Z * Transfer :=
  let totals := increment (entryTotals tr) (entryType it) in
  let bytes := wrap64 (totalBytes tr + entrySize it) in
  let seg := default [] (transferSeg tr) in
  match segmentAppend capacity seg it with
  | Some seg' =>
      (0, mkTransfer (Some seg') totals bytes (status tr) (rpcs tr))
  | None =>
      let sent := rpcs tr ++ [ReceiveMigrationData (newOwnerMasterId req)
                                seg (tableId req) (firstKeyHash req)] in
      match segmentAppend capacity [] it with
      | Some seg' =>
          (0, mkTransfer (Some seg') totals bytes (status tr) sent)
      | None =>
          (1, mkTransfer (Some []) totals bytes STATUS_INTERNAL_ERROR sent)
      end
  end.

(** [MasterService::migrateSingleLogEntry]: 0 or 1, and the state left. *)
Definition migrateSingleLogEntry (capacity : Z) (hashTable : gmap (Z * Z) Z)
    (req : Request) (it : LogEntry) (tr : Transfer) : Z * Transfer :=
  let type := entryType it in
  if decide (type ≠ LOG_ENTRY_TYPE_OBJ ∧ type ≠ LOG_ENTRY_TYPE_OBJTOMB ∧
             type ≠ LOG_ENTRY_TYPE_TXDECISION)
  then (0, tr)
  else if decide (entryTableId it ≠ tableId req) then (0, tr)
  else if decide (entryKeyHash it < firstKeyHash req ∨
                  entryKeyHash it > lastKeyHash req) then (0, tr)
  else if decide (type = LOG_ENTRY_TYPE_OBJ) then
    if keyPointsAtReference hashTable it
    then appendToTransfer capacity req it tr
    else (0, tr)
  else appendToTransfer capacity req it tr.

(** The loops [for (; ...; it.next()) { int error =
    migrateSingleLogEntry(...); if (error) return; }] over the entries the
    iterator passes. *)
Fixpoint migrateEntries (capacity : Z) (hashTable : gmap (Z * Z) Z)
    (req : Request) (log : list LogEntry) (tr : Transfer) : Z * Transfer :=
  match log with
  | [] => (0, tr)
  | it :: log' =>
      let '(error, tr') :=
        migrateSingleLogEntry capacity hashTable req it tr in
      if decide (error = 0)
      then migrateEntries capacity hashTable req log' tr'
      else (error, tr')
  end.

(** The part of the master [migrateTablet] touches. *)
Record Master := mkMaster {
  serverId : Z;
  tabletManager : list Tablet;
  hashTable : gmap (Z * Z) Z
}.

(** What the other servers answer: the destination to PrepForMigration and
    GetHeadOfLog, the coordinator to ReassignTabletOwnership. *)
Record Environment := mkEnvironment {
  prepStatus : Status;
  newOwnerLogHead : Z * Z;
  reassignStatus : Status
}.

Definition startTransfer (rpcs : list Rpc) : Transfer :=
  mkTransfer None (λ _, 0) 0 STATUS_OK rpcs.

(** [MasterService::migrateTablet]: the status of the response, the RPCs
    sent and the master left.  [log1] are the entries before the head of
    the log, [log2] those of the head up to the position taken once the
    writes have drained; a status other than STATUS_OK from another server
    is the exception that ends the handler.  The wait for the epoch and
    [removeOrphanedObjects] leave the modelled state as it is. *)
Definition migrateTablet (capacity : Z) (req : Request) (env : Environment)
    (log1 log2 : list LogEntry) (m : Master) : Status * list Rpc * Master :=
  let tid := tableId req in
  let first := firstKeyHash req in
  let last := lastKeyHash req in
  let owner := newOwnerMasterId req in
  match getTablet tid first last (tabletManager m) with
  | None => (STATUS_UNKNOWN_TABLET, [], m)
  | Some _ =>
      if decide (owner = serverId m) then (STATUS_REQUEST_FORMAT_ERROR, [], m)
      else if decide (prepStatus env ≠ STATUS_OK)
      then (prepStatus env, [PrepForMigration owner tid first last], m)
      else
        let tr0 := startTransfer [PrepForMigration owner tid first last;
                                  GetHeadOfLog owner] in
        let '(error1, tr1) :=
          migrateEntries capacity (hashTable m) req log1 tr0 in
        if decide (error1 ≠ 0) then (status tr1, rpcs tr1, m)
        else
          let m1 := mkMaster (serverId m)
                      (changeState tid first last NORMAL LOCKED_FOR_MIGRATION
                         (tabletManager m)).2
                      (hashTable m) in
          let '(error2, tr2) :=
            migrateEntries capacity (hashTable m) req log2 tr1 in
          if decide (error2 ≠ 0) then (status tr2, rpcs tr2, m1)
          else
            let sent :=
              match transferSeg tr2 with
              | Some seg =>
                  rpcs tr2 ++ [ReceiveMigrationData owner seg tid first]
              | None => rpcs tr2
              end in
            let all := sent ++ [ReassignTabletOwnership tid first last owner
                                  (newOwnerLogHead env).1
                                  (newOwnerLogHead env).2] in
            if decide (reassignStatus env ≠ STATUS_OK)
            then (reassignStatus env, all, m1)
            else
              (STATUS_OK, all,
               mkMaster (serverId m)
                 (deleteTablet tid first last (tabletManager m1))
                 (hashTable m))
  end.

(** ** Reading the migration *)

(** The filter in the words of the specification: the entry is an object,
    a tombstone or a transaction decision of the migrated table with its
    key hash in the range, and an object is moreover the live version. *)
Definition shouldMigrate (hashTable : gmap (Z * Z) Z) (req : Request)
    (e : LogEntry) : bool :=
  bool_decide
    ((entryType e = LOG_ENTRY_TYPE_OBJ ∨ entryType e = LOG_ENTRY_TYPE_OBJTOMB ∨
      entryType e = LOG_ENTRY_TYPE_TXDECISION) ∧
     entryTableId e = tableId req ∧
     firstKeyHash req ≤ entryKeyHash e ≤ lastKeyHash req ∧
     (entryType e = LOG_ENTRY_TYPE_OBJ →
      hashTable !! (entryTableId e, entryKey e) = Some (entryReference e))).

(** The segments handed to ReceiveMigrationData, oldest first. *)
Definition sentSegments (rs : list Rpc) : list (list LogEntry) :=
  omap (λ r, match r with
             | ReceiveMigrationData _ seg _ _ => Some seg
             | _ => None
             end) rs.

(** Everything appended to a transfer segment so far, in order: the
    segments sent and the one being filled. *)
Definition streamed (tr : Transfer) : list LogEntry :=
  concat (sentSegments (rpcs tr)) ++ default [] (transferSeg tr).


(** The key of an entry in the object table. *)
Definition keyOf (e : LogEntry) : Z * Z := (entryTableId e, entryKey e).

(** Modelled from the spec: replay on the destination
    ([ObjectManager::replaySegment] is not among the sources): "the object
    manager resolves duplicates by (keyHash, version), keeping the highest
    version or latest tombstone".  The table maps (table id, key) to the
    entry kept. *)
Definition replayEntry (objects : gmap (Z * Z) LogEntry) (e : LogEntry)
  : gmap (Z * Z) LogEntry :=
  let k := (entryTableId e, entryKey e) in
  match entryType e with
  | LOG_ENTRY_TYPE_OBJ =>
      match objects !! k with
      | Some cur =>
          if decide (entryVersion cur < entryVersion e)
          then <[k := e]> objects else objects
      | None => <[k := e]> objects
      end
  | LOG_ENTRY_TYPE_OBJTOMB =>
      match objects !! k with
      | Some cur =>
          if decide (entryVersion cur ≤ entryVersion e)
          then <[k := e]> objects else objects
      | None => <[k := e]> objects
      end
  | _ => objects
  end.

Definition replayEntries (es : list LogEntry) (objects : gmap (Z * Z) LogEntry)
  : gmap (Z * Z) LogEntry :=
  foldl replayEntry objects es.

(** The object the destination serves for a key, if any. *)
Definition readObject (objects : gmap (Z * Z) LogEntry) (k : Z * Z)
  : option LogEntry :=
  match objects !! k with
  | Some e => if decide (entryType e = LOG_ENTRY_TYPE_OBJ) then Some e else None
  | None => None
  end.

(** Scenario S6: two versions of key 7 of table 1 in the log, the first
    superseded and deleted by a tombstone, the second live. *)
Definition objectV1 : LogEntry := mkLogEntry LOG_ENTRY_TYPE_OBJ 1 7 5 1 40 11.
Definition tombstoneV1 : LogEntry :=
  mkLogEntry LOG_ENTRY_TYPE_OBJTOMB 1 7 5 1 20 12.
Definition objectV2 : LogEntry := mkLogEntry LOG_ENTRY_TYPE_OBJ 1 7 5 2 40 13.
Definition logS6 : list LogEntry := [objectV1; tombstoneV1; objectV2].
Definition hashTableS6 : gmap (Z * Z) Z := {[ (1, 7) := 13 ]}.
Definition requestS6 : Request := mkRequest 1 0 9 2.

(** A live object of the range that is larger than a segment. *)
Definition bigObject : LogEntry :=
  mkLogEntry LOG_ENTRY_TYPE_OBJ 1 7 5 2 200 13.

End Migration.

(* ================================================================== *)
(** * Recovery orchestration on the coordinator *)
(* ================================================================== *)

Module Recovery.

(** [ProtoBuf::ServerType]. *)
Inductive ServerType := MASTER | BACKUP.

#[global] Instance ServerType_eq_dec : EqDecision ServerType.
Proof. solve_decision. Defined.

(** [ProtoBuf::ServerList::Entry], with the fields the tests of
    [Recovery] read. *)
Record Entry := mkEntry {
  server_type : ServerType;
  server_id : Z;
  service_locator : string;
  segment_id : option Z
}.

(** [ProtoBuf::Tablets::Tablet]; [user_data] holds the partition id. *)
Record Tablet := mkTablet {
  table_id : Z;
  start_object_id : Z;
  end_object_id : Z;
  user_data : Z
}.

(** The order of [Recovery::BackupMap]: segment ids ascending, and within
    a segment id backup ids ascending. *)
Definition mapLess (a b : Z * Entry) : bool :=
  (a.1 <? b.1) || ((a.1 =? b.1) && (server_id a.2 <? server_id b.2)).

Definition mapLe (a b : Z * Entry) : Prop :=
  a.1 < b.1 ∨ (a.1 = b.1 ∧ server_id a.2 ≤ server_id b.2).

(** Insertion into the multimap, behind the entries that are not above
    the new one. *)
Fixpoint mapInsert (x : Z * Entry) (m : list (Z * Entry))
  : list (Z * Entry) :=
  match m with
  | [] => [x]
  | y :: m' => if mapLess x y then x :: m else y :: mapInsert x m'
  end.

(** Modelled from the spec: [Recovery::buildSegmentIdToBackups]
    (Recovery.cc is not among the sources).  Every listed backup is asked
    for the segments it holds of the crashed master, each given here with
    its answer, and the replies are combined into a multimap from segment
    id to backup that iterates by segment id ascending and, within a
    segment id, by backup id ascending. *)
Definition addReply (m : list (Z * Entry)) (reply : Entry * list Z)
  : list (Z * Entry) :=
  foldl (λ acc seg, mapInsert (seg, reply.1) acc) m reply.2.

Definition buildSegmentIdToBackups (replies : list (Entry * list Z))
  : list (Z * Entry) :=
  foldl addReply [] replies.

(** Modelled from the spec: [Recovery::createBackupList] (Recovery.cc is
    not among the sources): the dispatch list has one entry per entry of
    the multimap, in the order of the multimap, each with the BACKUP role
    and its segment id. *)
Definition createBackupList (m : list (Z * Entry)) : list Entry :=
  map (λ p, mkEntry BACKUP (server_id p.2) (service_locator p.2) (Some p.1))
    m.

(** The partition ids of a tablet set, ascending and without repetition. *)
Fixpoint insertId (x : Z) (ids : list Z) : list Z :=
  match ids with
  | [] => [x]
  | y :: ids' =>
      if decide (x < y) then x :: ids
      else if decide (x = y) then ids
      else y :: insertId x ids'
  end.

Definition partitionIds (tablets : list Tablet) : list Z :=
  foldr (λ t ids, insertId (user_data t) ids) [] tablets.

(** Modelled from the spec: the partitioner (Recovery.cc is not among
    the sources) groups the tablets by their partition id; it does not
    decide the partitioning. *)
Definition partitions (tablets : list Tablet) : list (list Tablet) :=
  map (λ pid, filter (λ t, user_data t = pid) tablets) (partitionIds tablets).

(** The lines [Recovery::start] logs. *)
Inductive LogLine :=
| TryingPartition (locator : string) (tablets hosts : nat)
| Busted.

(** Modelled from the spec: [Recovery::start] (Recovery.cc is not among
    the sources) gives one recovery partition to each available recovery
    master; when the masters run out before the partitions, it stops with
    the terminal diagnostic that declares the system unrecovered, the
    surplus partitions staying unrecovered. *)
Fixpoint dispatch (parts : list (list Tablet)) (masters : list Entry)
    (hosts : nat) : list LogLine :=
  match parts with
  | [] => []
  | part :: parts' =>
      match masters with
      | [] => [Busted]
      | master :: masters' =>
          TryingPartition (service_locator master) (length part) hosts
            :: dispatch parts' masters' hosts
      end
  end.

Definition start (tablets : list Tablet) (masterHosts : list Entry)
    (replies : list (Entry * list Z)) : list LogLine :=
  dispatch (partitions tablets)
    (filter (λ e, server_type e = MASTER) masterHosts)
    (length (createBackupList (buildSegmentIdToBackups replies))).

Definition isTrying (l : LogLine) : bool :=
  match l with
  | TryingPartition _ _ _ => true
  | Busted => false
  end.

(** The set-up of RecoveryTest: three backups, of which the first holds
    segments 88 and 89 of master 99, the second segment 88 and the third
    nothing; two masters. *)
Definition backupHost (id : Z) (locator : string) : Entry :=
  mkEntry BACKUP id locator None.

Definition repliesS1 (id1 id2 id3 : Z) : list (Entry * list Z) :=
  [(backupHost id1 "mock:host=backup1", [88; 89]);
   (backupHost id2 "mock:host=backup2", [88]);
   (backupHost id3 "mock:host=backup3", [])].

Definition masterHostsS4 : list Entry :=
  [mkEntry MASTER 9999998 "mock:host=master1" None;
   mkEntry MASTER 9999999 "mock:host=master2" None].

Definition tabletsS4 : list Tablet :=
  [mkTablet 123 0 9 0; mkTablet 123 10 19 1; mkTablet 123 20 29 2].

End Recovery.

(* ================================================================== *)
(** * Request dispatch and the disabling of the service *)
(* ================================================================== *)

Module Dispatch.

(** [WireFormat::Opcode]: the opcodes the switch of
    [MasterService::dispatch] has a case for, and the others by their
    number. *)
Inductive Opcode :=
| DROP_TABLET_OWNERSHIP | DROP_INDEXLET_OWNERSHIP | ENUMERATE
| GET_HEAD_OF_LOG | GET_LOG_METRICS | GET_SERVER_STATISTICS
| FILL_WITH_TEST_DATA | INCREMENT | INSERT_INDEX_ENTRY | IS_REPLICA_NEEDED
| LOOKUP_INDEX_KEYS | MIGRATE_TABLET | READ_HASHES | MULTI_OP
| PREP_FOR_INDEXLET_MIGRATION | PREP_FOR_MIGRATION | READ
| READ_KEYS_AND_VALUE | RECEIVE_MIGRATION_DATA | REMOVE | REMOVE_INDEX_ENTRY
| SPLIT_AND_MIGRATE_INDEXLET | SPLIT_MASTER_TABLET | TAKE_TABLET_OWNERSHIP
| TAKE_INDEXLET_OWNERSHIP | TX_DECISION | TX_HINT_FAILED | TX_PREPARE
| WRITE | RECOVER
| OTHER_OPCODE (n : Z).

(** The fields of [MasterService] that [dispatch], [initOnceEnlisted] and
    [Disabler] use; [disableCount] is an [Atomic<int>]. *)
Record Service := mkService {
  initCalled : bool;
  disableCount : Z
}.

(** Two's complement wrap-around of [int]. *)
Definition wrapInt (x : Z) : Z := (x + 2 ^ 31) mod 2 ^ 32 - 2 ^ 31.

(** What [dispatch] does with a request. *)
Inductive Dispatched :=
| ThrowsRetryException
| RepliesRetry
| CallsHandler (opcode : Opcode)
| RepliesUnimplementedRequest.

(** [MasterService::dispatch]. *)
Definition dispatch (opcode : Opcode) (s : Service) : Dispatched :=
  if negb (initCalled s) then ThrowsRetryException
  else if decide (disableCount s > 0) then RepliesRetry
  else match opcode with
       | OTHER_OPCODE _ => RepliesUnimplementedRequest
       | _ => CallsHandler opcode
       end.

(** [MasterService::initOnceEnlisted]; [None] is the failed
    [assert(!initCalled)]. *)
Definition initOnceEnlisted (s : Service) : option Service :=
  if initCalled s then None else Some (mkService true (disableCount s)).

(** A [Disabler] object: its [service] pointer is the service or NULL. *)
Record Disabler := mkDisabler { service : bool }.

(** [Disabler::Disabler(service)]; [nonNull] tells whether the argument is
    the service or NULL. *)
Definition construct (nonNull : bool) (s : Service) : Disabler * Service :=
  if nonNull
  then (mkDisabler true,
        mkService (initCalled s) (wrapInt (disableCount s + 1)))
  else (mkDisabler false, s).

(** [Disabler::reenable()]. *)
Definition reenable (d : Disabler) (s : Service) : Disabler * Service :=
  if service d
  then (mkDisabler false,
        mkService (initCalled s) (wrapInt (disableCount s - 1)))
  else (d, s).

(** What a thread does with its disablers: it constructs one, reenables
    the service through one, or destroys one ([~Disabler] calls
    [reenable]).  The objects are kept in the order of construction and
    named by their position. *)
Inductive Step :=
| Construct (nonNull : bool)
| Reenable (d : nat)
| Destroy (d : nat).

Definition step (p : list Disabler * Service) (st : Step)
  : list Disabler * Service :=
  let '(ds, s) := p in
  match st with
  | Construct nonNull =>
      let '(d, s') := construct nonNull s in (ds ++ [d], s')
  | Reenable i | Destroy i =>
      match ds !! i with
      | Some d => let '(d', s') := reenable d s in (<[i := d']> ds, s')
      | None => (ds, s)
      end
  end.

Definition run (steps : list Step) (s : Service) : list Disabler * Service :=
  foldl step ([], s) steps.

(** The disablers through which the service is still disabled. *)
Fixpoint attached (ds : list Disabler) : Z :=
  match ds with
  | [] => 0
  | d :: ds' => (if service d then 1 else 0) + attached ds'
  end.

End Dispatch.

(* ================================================================== *)
(** * The destination of a migration, and dropping a tablet *)
(* ================================================================== *)

Module KeyHashLookup.
Import TabletManager.

(** The tablet holds the key hash of the table. *)
Definition holds (tid keyHash : Z) (t : Tablet) : bool :=
  bool_decide (tableId t = tid ∧ startKeyHash t ≤ keyHash ≤ endKeyHash t).

(** Modelled from the spec: [TabletManager::getTablet(tableId, keyHash,
    outTablet)] (TabletManager.cc is not among the sources), the tablet of
    the table whose key hash range holds [keyHash], if the master has
    one. *)
Definition getTablet (tid keyHash : Z) (tm : list Tablet) : option Tablet :=
  find (holds tid keyHash) tm.

End KeyHashLookup.

Module MigrationTarget.
Import TabletManager.

(** [MasterService::prepForMigration]: the status of the response and the
    tablet table left. *)
Definition prepForMigration (tid first last : Z) (tm : list Tablet)
  : Status * list Tablet :=
  let '(added, tm1) := addTablet tid first last RECOVERING tm in
  if added then (STATUS_OK, tm1)
  else
    match KeyHashLookup.getTablet tid first tm1 with
    | Some _ => (STATUS_OBJECT_EXISTS, tm1)
    | None =>
        match KeyHashLookup.getTablet tid last tm1 with
        | Some _ => (STATUS_OBJECT_EXISTS, tm1)
        | None => (STATUS_RETRY, tm1)
        end
    end.

(** The RECEIVE_MIGRATION_DATA request: the header fields the handler
    reads, the size of the payload behind the header, and the entries of
    the segment it carries ([None] when [checkMetadataIntegrity] rejects
    the segment). *)
Record Request := mkRequest {
  tableId : Z;
  firstKeyHash : Z;
  segmentBytes : Z;
  keyLength : Z;
  payloadBytes : Z;
  isIndexletData : bool;
  segment : option (list Migration.LogEntry)
}.

(** The part of the master the handler touches: the tablet table and the
    object table the replay writes to. *)
Record Master := mkMaster {
  tabletManager : list Tablet;
  objects : gmap (Z * Z) Migration.LogEntry
}.

Inductive Outcome :=
| Replied (status : Status)
| ThrowsSegmentIteratorException.

(** [MasterService::receiveMigrationData].  Of the replay only the effect
    on the object table is kept, which is the same for indexlet data (the
    next node id of the indexlet is not modelled). *)
Definition receiveMigrationData (req : Request) (m : Master)
  : Outcome * Master :=
  match KeyHashLookup.getTablet (tableId req) (firstKeyHash req)
          (tabletManager m) with
  | None => (Replied STATUS_UNKNOWN_TABLET, m)
  | Some tablet =>
      if decide (state tablet ≠ RECOVERING)
      then (Replied STATUS_INTERNAL_ERROR, m)
      else if decide (payloadBytes req
                      ≠ wrap32 (segmentBytes req + keyLength req))
      then (Replied STATUS_REQUEST_FORMAT_ERROR, m)
      else
        match segment req with
        | None => (ThrowsSegmentIteratorException, m)
        | Some entries =>
            (Replied STATUS_OK,
             mkMaster (tabletManager m)
               (Migration.replayEntries entries (objects m)))
        end
  end.

(** [MasterService::dropTabletOwnership] on the tablet table
    ([removeOrphanedObjects] works on the object table only). *)
Definition dropTabletOwnership (tid first last : Z) (tm : list Tablet)
  : list Tablet :=
  deleteTablet tid first last tm.

End MigrationTarget.

(* ================================================================== *)
(** * Object operations: MULTI_READ, INCREMENT, FILL_WITH_TEST_DATA *)
(* ================================================================== *)

(** The [Status] codes the object manager answers the embedded handlers
    with; the codes they do not tell apart by their number. *)
Module ObjectStatus.

Inductive t :=
| STATUS_OK
| STATUS_OBJECT_DOESNT_EXIST
| STATUS_WRONG_VERSION
| STATUS_INVALID_OBJECT
| STATUS_NO_TABLE_SPACE
| STATUS_RETRY
| STATUS_OTHER (code : Z).

#[global] Instance eq_dec : EqDecision t.
Proof. solve_decision. Defined.

End ObjectStatus.

Module MultiRead.

(** [WireFormat::MultiOp::Request::ReadPart] with its key. *)
Record ReadRequest := mkReadRequest {
  tableId : Z;
  key : string
}.

(** [WireFormat::MultiOp::Response::ReadPart]. *)
Record ReadPart := mkReadPart {
  status : ObjectStatus.t;
  version : Z;
  length : Z
}.

(** The reply payload: its size in bytes and the response parts in it,
    each with the offset at which its bytes (the part and the object
    behind it) end.  [Buffer] keeps its size in 32 bits; sizes are taken
    to stay below that. *)
Record Reply := mkReply {
  size : Z;
  parts : list (ReadPart * Z)
}.

(** [emplaceAppend<ReadPart>()] followed by the [bytes] bytes that
    [readObject] appends; [partBytes] is [sizeof(ReadPart)]. *)
Definition appendPart (partBytes : Z) (part : ReadPart) (bytes : Z)
    (reply : Reply) : Reply :=
  let newSize := size reply + partBytes + bytes in
  mkReply newSize (parts reply ++ [(part, newSize)]).

(** [Buffer::truncate(newLength)]: the parts that are no longer whole in
    the buffer are gone. *)
Definition truncate (newLength : Z) (reply : Reply) : Reply :=
  if decide (newLength < size reply)
  then mkReply newLength
         (filter (λ p : ReadPart * Z, p.2 ≤ newLength) (parts reply))
  else reply.

(** How the handler ends: it returns with [respHdr->count] and the reply,
    or it reads through the NULL that [getOffset] yields for a part the
    request does not hold. *)
Inductive Result :=
| Returned (count : Z) (reply : Reply)
| NullDereference.

(** The loop [for (uint32_t i = 0; ; i++)] of [MasterService::multiRead],
    at its head, with the parts of the request not yet read.
    [readObject] gives the status, the version and the number of bytes
    appended to the reply; [count] is [respHdr->count]. *)
Fixpoint readLoop (maxResponseRpcLen partBytes : Z)
    (readObject : ReadRequest → ObjectStatus.t * Z * Z)
    (numRequests : Z) (requests : list ReadRequest)
    (i oldResponseLength count : Z) (reply : Reply) : Result :=
  let newLength := size reply in
  if decide (newLength > maxResponseRpcLen)
  then Returned (wrap32 (i - 1)) (truncate oldResponseLength reply)
  else if decide (i >= numRequests) then Returned count reply
  else
    match requests with
    | [] => NullDereference
    | currentReq :: requests' =>
        let '(st, ver, bytes) := readObject currentReq in
        let part :=
          mkReadPart st ver
            (if decide (st = ObjectStatus.STATUS_OK) then bytes else 0) in
        readLoop maxResponseRpcLen partBytes readObject numRequests
          requests' (i + 1) newLength count
          (appendPart partBytes part bytes reply)
    end.

(** [MasterService::multiRead]; [reply] holds the response header. *)
Definition multiRead (maxResponseRpcLen partBytes : Z)
    (readObject : ReadRequest → ObjectStatus.t * Z * Z)
    (numRequests : Z) (requests : list ReadRequest) (reply : Reply)
  : Result :=
  readLoop maxResponseRpcLen partBytes readObject numRequests requests
    0 (size reply) numRequests reply.

(** The response part the handler builds for a request. *)
Definition respond (readObject : ReadRequest → ObjectStatus.t * Z * Z)
    (r : ReadRequest) : ReadPart :=
  let '(st, ver, bytes) := readObject r in
  mkReadPart st ver
    (if decide (st = ObjectStatus.STATUS_OK) then bytes else 0).

(** The reply once the requests [rs] are answered behind what it holds. *)
Definition answer (partBytes : Z)
    (readObject : ReadRequest → ObjectStatus.t * Z * Z)
    (reply : Reply) (rs : list ReadRequest) : Reply :=
  foldl (λ rep r, appendPart partBytes (respond readObject r)
                    (readObject r).2 rep) reply rs.

End MultiRead.

Module FillWithTestData.
Import TabletManager.

(** The tablet spans the entire table: [startKeyHash == 0 &&
    endKeyHash == ~0UL]. *)
Definition spansTable (t : Tablet) : bool :=
  bool_decide (startKeyHash t = 0 ∧ endKeyHash t = 18446744073709551615).

(** [tablets[i] = tablets[tablets.size() - 1]; tablets.pop_back();] *)
Definition swapRemove (i : nat) (tablets : list Tablet) : list Tablet :=
  match last tablets with
  | Some back => take (Datatypes.length tablets - 1) (<[i := back]> tablets)
  | None => tablets
  end.

(** The loop [for (size_t i = 0; i < tablets.size(); i++)] that keeps the
    tablets spanning their table; [i--] and [i++] are those of [size_t].
    [None]: the fuel ran out. *)
Fixpoint keepSpanning (fuel : nat) (i : Z) (tablets : list Tablet)
  : option (list Tablet) :=
  if decide (i < Z.of_nat (Datatypes.length tablets)) then
    match fuel with
    | O => None
    | S fuel' =>
        match tablets !! Z.to_nat i with
        | Some tablet =>
            if spansTable tablet
            then keepSpanning fuel' (wrap64 (i + 1)) tablets
            else keepSpanning fuel' (wrap64 (wrap64 (i - 1) + 1))
                   (swapRemove (Z.to_nat i) tablets)
        | None => None
        end
    end
  else Some tablets.

(** A call of [objectManager.writeObject]: the table, the key and the
    number of bytes of the value. *)
Record Write := mkWrite {
  writeTableId : Z;
  writeKey : string;
  writeBytes : Z
}.

(** The key of object number [objects] when there are [n] tablets:
    [format("%lu", objects / tablets.size())]. *)
Definition keyString (objects n : Z) : string :=
  pretty (Z.to_N (objects / n)).

(** The loop [for (uint32_t objects = 0; objects < numObjects; objects++)]
    with [remaining] objects to go; [writeObject] gives the status of the
    write of each object.  Returns the status of the response and the
    writes made; [proceed] of the replica manager is not modelled. *)
Fixpoint writeObjects (remaining : nat) (objects objectSize : Z)
    (tablets : list Tablet) (writeObject : Z → ObjectStatus.t)
    (written : list Write) : ObjectStatus.t * list Write :=
  match remaining with
  | O => (ObjectStatus.STATUS_OK, written)
  | S remaining' =>
      let n := Z.of_nat (Datatypes.length tablets) in
      let t := objects mod n in
      match tablets !! Z.to_nat t with
      | None => (ObjectStatus.STATUS_OK, written)
      | Some tablet =>
          let w := mkWrite (tableId tablet) (keyString objects n)
                     objectSize in
          let status := writeObject objects in
          let status :=
            if decide (status = ObjectStatus.STATUS_RETRY)
            then ObjectStatus.STATUS_NO_TABLE_SPACE else status in
          if decide (status ≠ ObjectStatus.STATUS_OK)
          then (status, written ++ [w])
          else writeObjects remaining' (objects + 1) objectSize tablets
                 writeObject (written ++ [w])
      end
  end.

Inductive Result :=
| ObjectDoesntExistException
| Responded (status : ObjectStatus.t) (writes : list Write) (synced : bool)
| OutOfFuel.

(** [MasterService::fillWithTestData] on the tablets [getTablets] yields;
    [synced] tells whether [syncChanges] was reached. *)
Definition fillWithTestData (numObjects objectSize : Z)
    (tablets : list Tablet) (writeObject : Z → ObjectStatus.t) : Result :=
  match keepSpanning (Datatypes.length tablets) 0 tablets with
  | None => OutOfFuel
  | Some [] => ObjectDoesntExistException
  | Some kept =>
      let '(status, writes) :=
        writeObjects (Z.to_nat numObjects) 0 objectSize kept writeObject []
      in
      Responded status writes
        (bool_decide (status = ObjectStatus.STATUS_OK))
  end.

End FillWithTestData.

Module Increment.

(** Two's complement wrap-around of [int64_t]. *)
Definition wrapInt64 (x : Z) : Z := (x + 2 ^ 63) mod 2 ^ 64 - 2 ^ 63.

(** The eight bytes of a double, read as an [int64_t], compare equal to
    [0.0]: they are those of [+0.0] or of [-0.0]. *)
Definition isZeroDouble (bits : Z) : bool :=
  bool_decide (bits = 0 ∨ bits = - 2 ^ 63).

(** What one turn of the read-increment-write cycle meets: the answer of
    [readObject] (status, the first eight bytes of the value as an
    [int64_t], the length of the value, the version) and the answer of
    [writeObject] (status, new version). *)
Record Turn := mkTurn {
  readStatus : ObjectStatus.t;
  readValue : Z;
  readLength : Z;
  readVersion : Z;
  writeStatus : ObjectStatus.t;
  writeVersion : Z
}.

(** A call of [writeObject]: the eight bytes written and the reject rules
    [updateRejectRules], of which [givenVersion] and [versionNeGiven] are
    set. *)
Record Write := mkWrite {
  newValue : Z;
  givenVersion : Z;
  versionNeGiven : bool
}.

(** What [incrementObject] leaves: the status, the two summands as they
    are on return ([*asInt64] and the eight bytes of [*asDouble]), the new
    version, and the calls of [writeObject]. *)
Record Outcome := mkOutcome {
  status : ObjectStatus.t;
  asInt64 : Z;
  asDouble : Z;
  newVersion : Z;
  writes : list Write
}.

(** [MasterService::incrementObject].  [addDouble] is the addition of
    doubles on their eight bytes; [mustExist] is [rejectRules.doesntExist];
    [turns] are the answers of the object manager, one per turn of
    [while (1)].  [None]: the answers ran out while the write was still
    rejected with STATUS_WRONG_VERSION. *)
Fixpoint incrementObject (addDouble : Z → Z → Z) (mustExist : bool)
    (asInt64 asDouble newVersion : Z) (turns : list Turn)
    (writes : list Write) : option Outcome :=
  match turns with
  | [] => None
  | turn :: turns' =>
      let stop st := Some (mkOutcome st asInt64 asDouble newVersion writes) in
      let cycle oldValue :=
        let v1 := if decide (asInt64 ≠ 0)
                  then wrapInt64 (oldValue + asInt64) else oldValue in
        let v2 := if isZeroDouble asDouble then v1
                  else addDouble v1 asDouble in
        let writes' := writes ++ [mkWrite v2 (readVersion turn) true] in
        if decide (writeStatus turn = ObjectStatus.STATUS_WRONG_VERSION)
        then incrementObject addDouble mustExist asInt64 asDouble
               (writeVersion turn) turns' writes'
        else if decide (writeStatus turn ≠ ObjectStatus.STATUS_OK)
        then Some (mkOutcome (writeStatus turn) asInt64 asDouble
                     (writeVersion turn) writes')
        else Some (mkOutcome ObjectStatus.STATUS_OK v2 v2
                     (writeVersion turn) writes') in
      if bool_decide (readStatus turn = ObjectStatus.STATUS_OBJECT_DOESNT_EXIST)
         && negb mustExist
      then cycle 0
      else if decide (readStatus turn ≠ ObjectStatus.STATUS_OK)
      then stop (readStatus turn)
      else if decide (readLength turn ≠ 8)
      then stop ObjectStatus.STATUS_INVALID_OBJECT
      else cycle (readValue turn)
  end.

(** [MasterService::increment]: the status, the new value in its two
    views, the version, the writes and whether [syncChanges] was called. *)
Definition increment (addDouble : Z → Z → Z) (mustExist : bool)
    (incrementInt64 incrementDouble : Z) (turns : list Turn)
  : option (Outcome * bool) :=
  match incrementObject addDouble mustExist incrementInt64 incrementDouble
          0 turns [] with
  | None => None
  | Some out =>
      Some (out, bool_decide (status out = ObjectStatus.STATUS_OK))
  end.

End Increment.

(* ================================================================== *)
(** * The TX_DECISION handler *)
(* ================================================================== *)

Module TxDecision.
Import TabletManager.

(** [WireFormat::TxDecision::Decision]: the two decisions the handler
    knows, and the others by their number. *)
Inductive Decision := COMMIT | ABORT | OTHER_DECISION (n : Z).

(** [WireFormat::TxPrepare::OpType], the type in the header of a prepared
    operation. *)
Inductive OpType := READ | REMOVE | WRITE | OTHER_TYPE (n : Z).

(** [WireFormat::TxParticipant]. *)
Record TxParticipant := mkTxParticipant {
  tableId : Z;
  keyHash : Z;
  rpcId : Z
}.

(** What the handler does that others can see, in order; a commit names
    the log reference of the prepared operation. *)
Inductive Event :=
| CommitRead (opPtr : Z)
| CommitRemove (opPtr : Z)
| CommitWrite (opPtr : Z)
| PopOp (leaseId rpcId : Z)
| SyncChanges
| SendReply (status : Status).

Section Handler.

(** [PreparedWrites] (its source is not among the files) is kept
    abstract: [peekOp] and [popOp] are its two methods the handler calls,
    and [opType] reads the type of the prepared operation at a log
    reference. *)
Context {PreparedWrites : Type}.
Variable peekOp : PreparedWrites → Z → Z → Z.
Variable popOp : PreparedWrites → Z → Z → PreparedWrites.
Variable opType : Z → OpType.

(** The part of the master the handler touches, with the status of the
    response header. *)
Record Master := mkMaster {
  tabletManager : list Tablet;
  preparedWrites : PreparedWrites;
  status : Status;
  trace : list Event
}.

Definition emit (e : Event) (m : Master) : Master :=
  mkMaster (tabletManager m) (preparedWrites m) (status m) (trace m ++ [e]).

(** [respHdr->common.status = s; rpc->sendReply();] *)
Definition reply (s : Status) (m : Master) : Master :=
  emit (SendReply s)
    (mkMaster (tabletManager m) (preparedWrites m) s (trace m)).

(** [!tabletManager.getTablet(tableId, keyHash, &tablet) ||
     tablet.state != TabletManager::NORMAL]. *)
Definition notServed (p : TxParticipant) (tm : list Tablet) : bool :=
  match KeyHashLookup.getTablet (tableId p) (keyHash p) tm with
  | Some tablet => bool_decide (state tablet ≠ NORMAL)
  | None => true
  end.

(** The commit of one prepared operation: by its type for COMMIT, always
    [commitRead] for ABORT. *)
Definition commitOp (decision : Decision) (opPtr : Z) (m : Master)
  : Master :=
  match decision with
  | COMMIT =>
      match opType opPtr with
      | READ => emit (CommitRead opPtr) m
      | REMOVE => emit (CommitRemove opPtr) m
      | WRITE => emit (CommitWrite opPtr) m
      | OTHER_TYPE _ => m
      end
  | ABORT => emit (CommitRead opPtr) m
  | OTHER_DECISION _ => m
  end.

(** The loop over the participants, the same for COMMIT and ABORT but for
    the commit; [false] when the handler has returned from inside the
    loop. *)
Fixpoint decideAll (decision : Decision) (leaseId : Z)
    (participants : list TxParticipant) (m : Master) : bool * Master :=
  match participants with
  | [] => (true, m)
  | p :: participants' =>
      if notServed p (tabletManager m)
      then (false, reply STATUS_UNKNOWN_TABLET m)
      else
        let opPtr := peekOp (preparedWrites m) leaseId (rpcId p) in
        if decide (opPtr = 0)
        then decideAll decision leaseId participants' m
        else
          let m1 := commitOp decision opPtr m in
          decideAll decision leaseId participants'
            (emit (PopOp leaseId (rpcId p))
               (mkMaster (tabletManager m1)
                  (popOp (preparedWrites m1) leaseId (rpcId p))
                  (status m1) (trace m1)))
  end.

(** The end of the handler: [syncChanges], STATUS_OK and the reply. *)
Definition finish (m : Master) : Master :=
  reply STATUS_OK (emit SyncChanges m).

(** [MasterService::txDecision]. *)
Definition txDecision (decision : Decision) (leaseId : Z)
    (participants : list TxParticipant) (m : Master) : Master :=
  match decision with
  | COMMIT | ABORT =>
      match decideAll decision leaseId participants m with
      | (true, m') => finish m'
      | (false, m') => m'
      end
  | OTHER_DECISION _ => finish (reply STATUS_REQUEST_FORMAT_ERROR m)
  end.

End Handler.

End TxDecision.

(* ================================================================== *)
(** * Reading the replica vector and the partition *)
(* ================================================================== *)

Module ReplicaVector.
Import MasterService.

(** The state of the last replica of segment [s] in the vector. *)
Definition lastState (s : Z) (rs : list Replica) : option State :=
  state <$> last (filter (λ r, segmentId r = s) rs).

(** The tablets of a partition as the RECOVER handler installs them. *)
Definition recoveringTablets (ts : list (Z * Z * Z))
  : list TabletManager.Tablet :=
  map (λ p : Z * Z * Z,
         TabletManager.mkTablet p.1.1 p.1.2 p.2 TabletManager.RECOVERING) ts.

(** The tablet is one of the partition. *)
Definition inPartition (ts : list (Z * Z * Z)) (t : TabletManager.Tablet)
  : bool :=
  existsb (λ p : Z * Z * Z, TabletManager.isTablet p.1.1 p.1.2 p.2 t) ts.

(** Some RPC for a replica of segment [s] fetches and replays it. *)
Definition recoverable (rs : list Replica) (outcome : nat → RpcResult)
    (s : Z) : Prop :=
  ∃ i r, rs !! i = Some r ∧ segmentId r = s ∧ outcome i = Replayed.

End ReplicaVector.

(* ================================================================== *)
(** * Reading the handlers *)
(* ================================================================== *)

Module MigrationReading.
Import Migration.
(** The RPCs that carry the segments [segs] to the new owner. *)
Definition receiveRpcs (req : Request) (segs : list (list LogEntry))
  : list Rpc :=
  map (λ seg, ReceiveMigrationData (newOwnerMasterId req) seg (tableId req)
                (firstKeyHash req)) segs.

(** The segment holds an entry and fits the capacity. *)
Definition goodSegment (capacity : Z) (seg : list LogEntry) : Prop :=
  seg ≠ [] ∧ segmentBytes seg ≤ capacity.

End MigrationReading.

Module OwnershipReading.
Import Ownership.
(** TAKE_TABLET_OWNERSHIP requests handled one after the other: the
    statuses answered and the master left. *)
Definition takeNext (acc : list Status * Master) (req : Z * Z * Z)
  : list Status * Master :=
  let r := takeTabletOwnership req.1.1 req.1.2 req.2 acc.2 in
  (acc.1 ++ [r.1], r.2).

Definition takeAll (reqs : list (Z * Z * Z)) (m : Master)
  : list Status * Master :=
  foldl takeNext ([], m) reqs.
End OwnershipReading.

Module MultiReadReading.
Import MultiRead.
(** The offsets of the parts of a reply are within it. *)
Definition within (reply : Reply) : Prop :=
  Forall (λ p : ReadPart * Z, p.2 ≤ size reply) (parts reply).

(** An object manager holding 30-byte objects of version 7 in table 1 and
    nothing elsewhere, and four requests to it. *)
Definition readTableOne (r : ReadRequest) : ObjectStatus.t * Z * Z :=
  if decide (tableId r = 1) then (ObjectStatus.STATUS_OK, 7, 30)
  else (ObjectStatus.STATUS_OBJECT_DOESNT_EXIST, 0, 0).

Definition fourRequests : list ReadRequest :=
  [mkReadRequest 1 "a"; mkReadRequest 2 "b"; mkReadRequest 1 "c";
   mkReadRequest 1 "d"].
End MultiReadReading.

Module IncrementReading.
Import Increment.

(** The value a turn starts from: zero when the object does not exist and
    need not, the value read otherwise. *)
Definition oldValue (mustExist : bool) (turn : Turn) : Z :=
  if bool_decide (readStatus turn = ObjectStatus.STATUS_OBJECT_DOESNT_EXIST)
     && negb mustExist
  then 0 else readValue turn.

(** The eight bytes a turn writes. *)
Definition summed (addDouble : Z → Z → Z) (asInt64 asDouble old : Z) : Z :=
  let v1 := if decide (asInt64 ≠ 0) then wrapInt64 (old + asInt64) else old in
  if isZeroDouble asDouble then v1 else addDouble v1 asDouble.

(** The call of [writeObject] of a turn. *)
Definition writeOf (addDouble : Z → Z → Z) (mustExist : bool)
    (asInt64 asDouble : Z) (turn : Turn) : Write :=
  mkWrite (summed addDouble asInt64 asDouble (oldValue mustExist turn))
    (readVersion turn) true.

(** The turn reads a value that can be incremented. *)
Definition readable (mustExist : bool) (turn : Turn) : Prop :=
  (readStatus turn = ObjectStatus.STATUS_OBJECT_DOESNT_EXIST ∧
   mustExist = false) ∨
  (readStatus turn = ObjectStatus.STATUS_OK ∧ readLength turn = 8).
End IncrementReading.

Module TxDecisionReading.
Import TxDecision.
(** The event is neither a reply nor a sync. *)
Definition quiet (e : Event) : bool :=
  match e with
  | SendReply _ | SyncChanges => false
  | _ => true
  end.

(** The event is no commit of a write or of a remove. *)
Definition noWriteCommitted (e : Event) : bool :=
  match e with
  | CommitWrite _ | CommitRemove _ => false
  | _ => true
  end.
End TxDecisionReading.

(* ================================================================== *)
(** * Proofs: partition recovery *)
(* ================================================================== *)

Section ScoreboardLemmas.
Import MasterService.

(** ** Task slots *)

Lemma countActive_le ts : (countActive ts ≤ length ts)%nat.
Proof. induction ts as [|[x|] ts IH]; simpl; lia. Qed.

Lemma countActive_clear ts slot i :
  ts !! slot = Some (Some i) →
  countActive ts = S (countActive (<[slot := None]> ts)).
Proof.
  revert slot.
  induction ts as [|x ts IH]; intros [|slot] H; simplify_eq/=; auto.
  destruct x; simpl; rewrite (IH _ H); done.
Qed.

Lemma countActive_fill ts slot j :
  ts !! slot = Some None →
  countActive (<[slot := Some j]> ts) = S (countActive ts).
Proof.
  revert slot.
  induction ts as [|x ts IH]; intros [|slot] H; simplify_eq/=; auto.
  destruct x; simpl; rewrite (IH _ H); done.
Qed.

Lemma countActive_zero ts slot i :
  countActive ts = 0%nat → ts !! slot = Some (Some i) → False.
Proof.
  intros H0 H. rewrite (countActive_clear _ _ _ H) in H0. lia.
Qed.

(** ** The three scans of the vector *)

Lemma skipRunning_spec running rs it :
  let it' := skipRunning running (drop it rs) it in
  (it ≤ it')%nat ∧
  (∀ j r, (it ≤ j < it')%nat → rs !! j = Some r → segmentId r ∈ running) ∧
  (∀ r, rs !! it' = Some r → segmentId r ∉ running).
Proof.
  remember (drop it rs) as rest eqn:Hrest. revert it Hrest.
  induction rest as [|x rest IH]; intros it Hrest; simpl.
  - split; [lia|]. split; [intros; lia|].
    intros r Hr. apply lookup_lt_Some in Hr.
    assert (length (drop it rs) = 0%nat) by (rewrite <- Hrest; done).
    rewrite length_drop in H. lia.
  - assert (Hx : rs !! it = Some x).
    { rewrite <- (Nat.add_0_r it), <- lookup_drop, <- Hrest. done. }
    assert (Hd : rest = drop (S it) rs).
    { erewrite drop_S in Hrest by eauto. by simplify_eq. }
    destruct (decide (segmentId x ∈ running)) as [Hin|Hout].
    + destruct (IH (S it) Hd) as (Hle & Hmid & Hend).
      split; [lia|]. split; [|done].
      intros j r Hj Hr. destruct (decide (j = it)) as [->|Hne].
      * by simplify_eq.
      * apply (Hmid j r); [lia|done].
    + split; [lia|]. split; [intros; lia|].
      intros r Hr. by simplify_eq.
Qed.

Lemma advanceNotStarted_spec rs it :
  let it' := advanceNotStarted (drop it rs) it in
  (it ≤ it')%nat ∧
  (∀ j r, (it ≤ j < it')%nat → rs !! j = Some r → state r ≠ NOT_STARTED).
Proof.
  remember (drop it rs) as rest eqn:Hrest. revert it Hrest.
  induction rest as [|x rest IH]; intros it Hrest; simpl.
  - split; [lia|]. intros; lia.
  - assert (Hx : rs !! it = Some x).
    { rewrite <- (Nat.add_0_r it), <- lookup_drop, <- Hrest. done. }
    assert (Hd : rest = drop (S it) rs).
    { erewrite drop_S in Hrest by eauto. by simplify_eq. }
    destruct (decide (state x = NOT_STARTED)) as [Hin|Hout].
    + split; [lia|]. intros; lia.
    + destruct (IH (S it) Hd) as (Hle & Hmid).
      split; [lia|].
      intros j r Hj Hr. destruct (decide (j = it)) as [->|Hne].
      * by simplify_eq.
      * apply (Hmid j r); [lia|done].
Qed.

Lemma findNext_Some running rs it j :
  findNext running (drop it rs) it = Some j →
  (it ≤ j)%nat ∧
  (∃ r, rs !! j = Some r ∧ state r = NOT_STARTED ∧ segmentId r ∉ running) ∧
  (∀ k r, (it ≤ k < j)%nat → rs !! k = Some r →
          state r ≠ NOT_STARTED ∨ segmentId r ∈ running).
Proof.
  remember (drop it rs) as rest eqn:Hrest. revert it Hrest.
  induction rest as [|x rest IH]; intros it Hrest; simpl; [done|].
  assert (Hx : rs !! it = Some x).
  { rewrite <- (Nat.add_0_r it), <- lookup_drop, <- Hrest. done. }
  assert (Hd : rest = drop (S it) rs).
  { erewrite drop_S in Hrest by eauto. by simplify_eq. }
  destruct (decide (state x ≠ NOT_STARTED ∨ segmentId x ∈ running))
    as [Hskip|Hpick]; intros Hj.
  - destruct (IH (S it) Hd Hj) as (Hle & Hr & Hmid).
    split; [lia|]. split; [done|].
    intros k r Hk Hkr. destruct (decide (k = it)) as [->|Hne].
    + by simplify_eq.
    + apply (Hmid k r); [lia|done].
  - simplify_eq. split; [lia|]. split; [|intros; lia].
    exists x. split; [done|].
    destruct (decide (state x = NOT_STARTED)); [|tauto].
    split; [done|]. tauto.
Qed.

Lemma findNext_None running rs it :
  findNext running (drop it rs) it = None →
  ∀ k r, (it ≤ k)%nat → rs !! k = Some r →
         state r ≠ NOT_STARTED ∨ segmentId r ∈ running.
Proof.
  remember (drop it rs) as rest eqn:Hrest. revert it Hrest.
  induction rest as [|x rest IH]; intros it Hrest; simpl.
  - intros _ k r Hk Hr. apply lookup_lt_Some in Hr.
    assert (length (drop it rs) = 0%nat) by (rewrite <- Hrest; done).
    rewrite length_drop in H. lia.
  - assert (Hx : rs !! it = Some x).
    { rewrite <- (Nat.add_0_r it), <- lookup_drop, <- Hrest. done. }
    assert (Hd : rest = drop (S it) rs).
    { erewrite drop_S in Hrest by eauto. by simplify_eq. }
    destruct (decide (state x ≠ NOT_STARTED ∨ segmentId x ∈ running))
      as [Hskip|Hpick]; intros Hj; [|done].
    intros k r Hk Hr. destruct (decide (k = it)) as [->|Hne].
    + by simplify_eq.
    + apply (IH (S it) Hd Hj k r); [lia|done].
Qed.

(** ** The multimap from segment ids to replicas *)

Lemma elem_of_equal_range_insert k v m s j :
  j ∈ equal_range (multimapInsert k v m) s ↔
  j ∈ equal_range m s ∨ (k = s ∧ j = v).
Proof.
  unfold equal_range, multimapInsert.
  destruct (decide (k = s)) as [->|Hne].
  - rewrite lookup_insert_eq. simpl. rewrite elem_of_app, list_elem_of_singleton.
    naive_solver.
  - rewrite lookup_insert_ne by done. naive_solver.
Qed.

Lemma elem_of_equal_range_build rs i m s j :
  j ∈ equal_range (buildSegmentIdToBackups rs i m) s ↔
  j ∈ equal_range m s ∨
  ∃ r, (i ≤ j)%nat ∧ rs !! (j - i)%nat = Some r ∧ segmentId r = s.
Proof.
  revert i m. induction rs as [|x rs IH]; intros i m; simpl.
  - naive_solver.
  - rewrite IH, elem_of_equal_range_insert. split.
    + intros [[H|[<- ->]]|(r & Hle & Hr & Hs)].
      * by left.
      * right. exists x. rewrite Nat.sub_diag. done.
      * right. exists r. split; [lia|].
        replace (j - i)%nat with (S (j - S i)) by lia. done.
    + intros [H|(r & Hle & Hr & Hs)]; [by left; left|].
      destruct (decide (j = i)) as [->|Hne].
      * rewrite Nat.sub_diag in Hr. simplify_eq/=. left. by right.
      * right. exists r. split; [lia|].
        replace (j - i)%nat with (S (j - S i)) in Hr by lia. done.
Qed.

Lemma elem_of_segmentIdToBackups rs s j :
  j ∈ equal_range (buildSegmentIdToBackups rs 0 ∅) s ↔
  ∃ r, rs !! j = Some r ∧ segmentId r = s.
Proof.
  rewrite elem_of_equal_range_build. unfold equal_range.
  rewrite lookup_empty. simpl. rewrite Nat.sub_0_r.
  split.
  - intros [H|(r & _ & Hr & Hs)]; [by apply elem_of_nil in H|eauto].
  - intros (r & Hr & Hs). right. exists r. split; [lia|done].
Qed.

Lemma markOK_lookup idxs rs j :
  markOK idxs rs !! j =
  if decide (j ∈ idxs) then setState OK <$> rs !! j else rs !! j.
Proof.
  unfold markOK. revert rs. induction idxs as [|a idxs IH]; intros rs; simpl.
  - done.
  - rewrite IH.
    assert (Hstep : (match rs !! a with
                     | Some r => <[a:=setState OK r]> rs
                     | None => rs
                     end) !! j =
                    if decide (j = a) then setState OK <$> rs !! j
                    else rs !! j).
    { destruct (decide (j = a)) as [->|Hne].
      - destruct (rs !! a) as [r|] eqn:Hr; [|by rewrite Hr].
        rewrite list_lookup_insert_eq; [done|by eapply lookup_lt_Some].
      - destruct (rs !! a); [|done]. by rewrite list_lookup_insert_ne. }
    rewrite Hstep.
    destruct (decide (j = a)) as [->|Hne].
    + rewrite (decide_True (P := a ∈ a :: idxs)) by left.
      destruct (decide (a ∈ idxs)); [|done].
      destruct (rs !! a); done.
    + destruct (decide (j ∈ idxs)) as [Hin|Hout].
      * rewrite decide_True; [done|by right].
      * rewrite decide_False; [done|].
        intros Hc. apply elem_of_cons in Hc. tauto.
Qed.

Lemma lookup_segmentId_eq (rs rs0 : list Replica) j r :
  map segmentId rs = map segmentId rs0 →
  rs !! j = Some r →
  ∃ r0, rs0 !! j = Some r0 ∧ segmentId r0 = segmentId r.
Proof.
  intros Hm Hr.
  assert (H : map segmentId rs !! j = Some (segmentId r)).
  { change (map segmentId rs) with (segmentId <$> rs).
    by rewrite list_lookup_fmap, Hr. }
  rewrite Hm in H. change (map segmentId rs0) with (segmentId <$> rs0) in H.
  rewrite list_lookup_fmap in H.
  destruct (rs0 !! j) as [r0|]; simplify_eq/=. eauto.
Qed.

Lemma finishRpc_Replayed_replicas rs0 sb i r :
  map segmentId (replicas sb) = map segmentId rs0 →
  replicas sb !! i = Some r →
  replicas (finishRpc (buildSegmentIdToBackups rs0 0 ∅) i r Replayed sb) =
  markSegment (segmentId r) (replicas sb).
Proof.
  intros Hm Hi. simpl. apply list_eq. intros j.
  rewrite markOK_lookup. unfold markSegment.
  change (map ?f ?l) with (f <$> l). rewrite list_lookup_fmap.
  destruct (decide (j = i)) as [->|Hne].
  - rewrite list_lookup_insert_eq by (by eapply lookup_lt_Some).
    rewrite Hi. simpl.
    rewrite (decide_True (P := segmentId r = segmentId r)) by done.
    by destruct (decide _).
  - rewrite list_lookup_insert_ne by done.
    destruct (replicas sb !! j) as [x|] eqn:Hx; simpl.
    + destruct (lookup_segmentId_eq _ _ _ _ Hm Hx) as (x0 & Hx0 & Hs).
      destruct (decide (segmentId x = segmentId r)) as [Heq|Hneq].
      * rewrite decide_True; [done|].
        apply elem_of_segmentIdToBackups. exists x0. split; congruence.
      * rewrite decide_False; [done|].
        rewrite elem_of_segmentIdToBackups. intros (x1 & Hx1 & Hs1).
        congruence.
    + by destruct (decide _).
Qed.

Lemma lookup_setState_Some (rs : list Replica) i r s j r' :
  rs !! i = Some r →
  <[i := setState s r]> rs !! j = Some r' ↔
  (j = i ∧ r' = setState s r) ∨ (j ≠ i ∧ rs !! j = Some r').
Proof.
  intros Hi. rewrite list_lookup_insert_Some.
  apply lookup_lt_Some in Hi. naive_solver.
Qed.

Lemma lookup_markSegment_Some s (rs : list Replica) j r' :
  markSegment s rs !! j = Some r' ↔
  ∃ r0, rs !! j = Some r0 ∧
        r' = if decide (segmentId r0 = s) then setState OK r0 else r0.
Proof.
  unfold markSegment. change (map ?f ?l) with (f <$> l).
  rewrite list_lookup_fmap. destruct (rs !! j); naive_solver.
Qed.

Lemma map_segmentId_setState (rs : list Replica) i r s :
  rs !! i = Some r →
  map segmentId (<[i := setState s r]> rs) = map segmentId rs.
Proof.
  intros Hi. change (map ?f ?l) with (f <$> l).
  rewrite list_fmap_insert. simpl. apply list_insert_id.
  by rewrite list_lookup_fmap, Hi.
Qed.

Lemma map_segmentId_markSegment s (rs : list Replica) :
  map segmentId (markSegment s rs) = map segmentId rs.
Proof.
  unfold markSegment. rewrite map_map. apply map_ext.
  intros a. by destruct (decide _).
Qed.

(** ** Preservation of the invariant on the replica vector *)

Section ReplicaInvariant.
Variable rs0 : list Replica.
Variable outcome : nat → RpcResult.

Lemma ReplicaInv_init :
  allNotStarted rs0 → ReplicaInv rs0 outcome (initScoreboard rs0).
Proof.
  intros Hall.
  assert (Hns : ∀ i r, rs0 !! i = Some r → state r = NOT_STARTED).
  { intros i r Hr. apply Hall. by eapply list_elem_of_lookup_2. }
  split; simpl.
  - done.
  - intros s. split; [set_solver|].
    intros (i & r & Hr & Hw & _). apply Hns in Hr. congruence.
  - intros i j ri rj Hi _ Hw. apply Hns in Hi. congruence.
  - intros; lia.
  - intros i j ri rj Hi _ _ Hok. apply Hns in Hi. congruence.
  - intros i r Hi Hf. apply Hns in Hi. congruence.
  - constructor.
  - intros s. split; [by intros ?%elem_of_nil|].
    intros (i & r & Hr & _ & Hok). apply Hns in Hr. congruence.
Qed.

Lemma ReplicaInv_failed sb sb' i r :
  ReplicaInv rs0 outcome sb →
  replicas sb !! i = Some r → state r = WAITING →
  outcome i ≠ Replayed →
  replicas sb' = <[i := setState FAILED r]> (replicas sb) →
  runningSet sb' = runningSet sb ∖ {[segmentId r]} →
  notStarted sb' = notStarted sb →
  replayed sb' = replayed sb →
  ReplicaInv rs0 outcome sb'.
Proof.
  intros [Hsegs Hrun Hdist Hns Hok Hfail Hnd Hrep] Hi Hw Ho Hrs Hr' Hns' Hrp'.
  split; rewrite ?Hrs, ?Hr', ?Hns', ?Hrp'.
  - by rewrite map_segmentId_setState.
  - intros s. rewrite elem_of_difference, not_elem_of_singleton, Hrun.
    split.
    + intros [(j & x & Hj & Hxw & Hxs) Hne].
      exists j, x. rewrite lookup_setState_Some by done.
      split; [|done]. right. split; [|done]. intros ->. congruence.
    + intros (j & x & Hj & Hxw & Hxs).
      apply lookup_setState_Some in Hj as [[-> ->]|[Hne Hj]]; [done| |done].
      split; [eauto|]. intros ->. apply Hne. eauto.
  - intros j k rj rk Hj Hk Hjw Hkw Hs.
    apply lookup_setState_Some in Hj as [[-> ->]|[Hnj Hj]]; [done| |done].
    apply lookup_setState_Some in Hk as [[-> ->]|[Hnk Hk]]; [done| |done].
    eauto.
  - intros j x Hlt Hj.
    apply lookup_setState_Some in Hj as [[-> ->]|[Hnj Hj]]; [done| |done].
    eauto.
  - intros j k rj rk Hj Hk Hs Hjok.
    apply lookup_setState_Some in Hj as [[-> ->]|[Hnj Hj]]; [done| |done].
    apply lookup_setState_Some in Hk as [[-> ->]|[Hnk Hk]]; [ |eauto|done].
    simpl in *. assert (state r = OK) by eauto. congruence.
  - intros j x Hj Hf.
    apply lookup_setState_Some in Hj as [[-> ->]|[Hnj Hj]]; [done| |done].
    eauto.
  - done.
  - intros s. rewrite Hrep. split.
    + intros (j & x & Hj & Hxs & Hxok). exists j, x.
      rewrite lookup_setState_Some by done.
      split; [|done]. right. split; [|done]. intros ->. congruence.
    + intros (j & x & Hj & Hxs & Hxok).
      apply lookup_setState_Some in Hj as [[-> ->]|[Hnj Hj]]; [done| |done].
      eauto.
Qed.

Lemma ReplicaInv_replayed sb sb' i r :
  ReplicaInv rs0 outcome sb →
  replicas sb !! i = Some r → state r = WAITING →
  replicas sb' = markSegment (segmentId r) (replicas sb) →
  runningSet sb' = runningSet sb ∖ {[segmentId r]} →
  notStarted sb' = notStarted sb →
  replayed sb' = replayed sb ++ [segmentId r] →
  ReplicaInv rs0 outcome sb'.
Proof.
  intros [Hsegs Hrun Hdist Hns Hok Hfail Hnd Hrep] Hi Hw Hrs Hr' Hns' Hrp'.
  assert (Hfresh : segmentId r ∉ replayed sb).
  { rewrite Hrep. intros (j & x & Hj & Hxs & Hxok).
    assert (state r = OK) by eauto. congruence. }
  split; rewrite ?Hrs, ?Hr', ?Hns', ?Hrp'.
  - by rewrite map_segmentId_markSegment.
  - intros s. rewrite elem_of_difference, not_elem_of_singleton, Hrun.
    split.
    + intros [(j & x & Hj & Hxw & Hxs) Hne].
      exists j, x. rewrite lookup_markSegment_Some.
      split; [|done]. exists x. split; [done|].
      rewrite decide_False; [done|congruence].
    + intros (j & x & Hj & Hxw & Hxs).
      apply lookup_markSegment_Some in Hj as (x0 & Hj & ->).
      destruct (decide (segmentId x0 = segmentId r)); [done|].
      split; [eauto|congruence].
  - intros j k rj rk Hj Hk Hjw Hkw Hs.
    apply lookup_markSegment_Some in Hj as (xj & Hj & ->).
    apply lookup_markSegment_Some in Hk as (xk & Hk & ->).
    destruct (decide (segmentId xj = segmentId r)); [done|].
    destruct (decide (segmentId xk = segmentId r)); [done|].
    eauto.
  - intros j x Hlt Hj.
    apply lookup_markSegment_Some in Hj as (xj & Hj & ->).
    destruct (decide (segmentId xj = segmentId r)); [done|]. eauto.
  - intros j k rj rk Hj Hk Hs Hjok.
    apply lookup_markSegment_Some in Hj as (xj & Hj & ->).
    apply lookup_markSegment_Some in Hk as (xk & Hk & ->).
    destruct (decide (segmentId xj = segmentId r)) as [Hej|Hnj];
      destruct (decide (segmentId xk = segmentId r)) as [Hek|Hnk];
      simpl in *; try done; try congruence.
    eauto.
  - intros j x Hj Hf.
    apply lookup_markSegment_Some in Hj as (xj & Hj & ->).
    destruct (decide (segmentId xj = segmentId r)); [done|]. eauto.
  - apply NoDup_app. split; [done|]. split; [|apply NoDup_singleton].
    intros s Hs ->%list_elem_of_singleton. done.
  - intros s. rewrite elem_of_app, list_elem_of_singleton, Hrep. split.
    + intros [(j & x & Hj & Hxs & Hxok)| ->].
      * exists j, x. rewrite lookup_markSegment_Some.
        split; [|done]. exists x. split; [done|].
        destruct (decide _); [|done].
        destruct x; unfold setState; simpl in *; congruence.
      * exists i, (setState OK r). rewrite lookup_markSegment_Some.
        split; [|done]. exists r. split; [done|]. by rewrite decide_True.
    + intros (j & x & Hj & Hxs & Hxok).
      apply lookup_markSegment_Some in Hj as (xj & Hj & ->).
      destruct (decide (segmentId xj = segmentId r)) as [Hej|Hnj].
      * right. simpl in *. congruence.
      * left. eauto.
Qed.

Lemma ReplicaInv_finishRpc sb i r :
  ReplicaInv rs0 outcome sb →
  replicas sb !! i = Some r → state r = WAITING →
  ReplicaInv rs0 outcome
    (finishRpc (buildSegmentIdToBackups rs0 0 ∅) i r (outcome i) sb).
Proof.
  intros Hinv Hi Hw. destruct (outcome i) eqn:Ho.
  - eapply ReplicaInv_replayed; eauto.
    apply finishRpc_Replayed_replicas; [apply Hinv|done].
  - eapply ReplicaInv_failed; eauto. congruence.
  - eapply ReplicaInv_failed; eauto. congruence.
  - eapply ReplicaInv_failed; eauto. congruence.
Qed.

Lemma ReplicaInv_startTask sb slot j r :
  ReplicaInv rs0 outcome sb →
  replicas sb !! j = Some r → state r = NOT_STARTED →
  segmentId r ∉ runningSet sb →
  ReplicaInv rs0 outcome (startTask slot j r sb).
Proof.
  intros [Hsegs Hrun Hdist Hns Hok Hfail Hnd Hrep] Hj Hst Hout.
  split; simpl.
  - by rewrite map_segmentId_setState.
  - intros s. rewrite elem_of_union, elem_of_singleton, Hrun. split.
    + intros [->|(k & x & Hk & Hxw & Hxs)].
      * exists j, (setState WAITING r). rewrite lookup_setState_Some by done.
        split; [by left|done].
      * exists k, x. rewrite lookup_setState_Some by done.
        split; [|done]. right. split; [|done]. intros ->. congruence.
    + intros (k & x & Hk & Hxw & Hxs).
      apply lookup_setState_Some in Hk as [[-> ->]|[Hnk Hk]];
        [by left|right; eauto 10|done].
  - intros k l rk rl Hk Hl Hkw Hlw Hs.
    apply lookup_setState_Some in Hk as [[-> ->]|[Hnk Hk]]; [| |done];
      apply lookup_setState_Some in Hl as [[-> ->]|[Hnl Hl]]; try done.
    + exfalso. apply Hout, Hrun. simpl in Hs. eauto.
    + exfalso. apply Hout, Hrun. simpl in Hs. eauto.
    + eauto.
  - intros k x Hlt Hk.
    apply lookup_setState_Some in Hk as [[-> ->]|[Hnk Hk]]; [done|eauto|done].
  - intros k l rk rl Hk Hl Hs Hkok.
    apply lookup_setState_Some in Hk as [[-> ->]|[Hnk Hk]]; [done| |done].
    apply lookup_setState_Some in Hl as [[-> ->]|[Hnl Hl]]; [|eauto|done].
    simpl in *. assert (state r = OK) by eauto. congruence.
  - intros k x Hk Hf.
    apply lookup_setState_Some in Hk as [[-> ->]|[Hnk Hk]]; [done|eauto|done].
  - done.
  - intros s. rewrite Hrep. split.
    + intros (k & x & Hk & Hxs & Hxok). exists k, x.
      rewrite lookup_setState_Some by done.
      split; [|done]. right. split; [|done]. intros ->. congruence.
    + intros (k & x & Hk & Hxs & Hxok).
      apply lookup_setState_Some in Hk as [[-> ->]|[Hnk Hk]]; [done|eauto|done].
Qed.

Lemma ReplicaInv_ext sb sb' :
  ReplicaInv rs0 outcome sb →
  replicas sb' = replicas sb → runningSet sb' = runningSet sb →
  replayed sb' = replayed sb →
  (∀ j r, (j < notStarted sb')%nat → replicas sb !! j = Some r →
          state r ≠ NOT_STARTED) →
  ReplicaInv rs0 outcome sb'.
Proof.
  intros [Hsegs Hrun Hdist Hns Hok Hfail Hnd Hrep] Hrs Hr' Hrp' Hns'.
  split; rewrite ?Hrs, ?Hr', ?Hrp'; done.
Qed.

(** What the handling of a completed RPC changes. *)
Lemma finishRpc_effect sb i r :
  ReplicaInv rs0 outcome sb →
  replicas sb !! i = Some r → state r = WAITING →
  let sbF := finishRpc (buildSegmentIdToBackups rs0 0 ∅) i r (outcome i) sb in
  tasks sbF = tasks sb ∧ activeRequests sbF = activeRequests sb ∧
  notStarted sbF = notStarted sb ∧
  runningSet sbF = runningSet sb ∖ {[segmentId r]} ∧
  (∀ j x, replicas sbF !! j = Some x → state x = WAITING →
          j ≠ i ∧ replicas sb !! j = Some x) ∧
  (∀ j x, replicas sb !! j = Some x → state x = WAITING → j ≠ i →
          replicas sbF !! j = Some x) ∧
  (∀ j x, replicas sbF !! j = Some x → state x = NOT_STARTED →
          replicas sb !! j = Some x).
Proof.
  intros Hinv Hi Hw sbF.
  assert (Hrs : replicas sbF = markSegment (segmentId r) (replicas sb) ∨
                replicas sbF = <[i := setState FAILED r]> (replicas sb)).
  { subst sbF. destruct (outcome i); [left|right..]; try done.
    apply finishRpc_Replayed_replicas; [apply Hinv|done]. }
  assert (Hother : tasks sbF = tasks sb ∧ activeRequests sbF = activeRequests sb
                   ∧ notStarted sbF = notStarted sb
                   ∧ runningSet sbF = runningSet sb ∖ {[segmentId r]}).
  { subst sbF. by destruct (outcome i). }
  destruct Hother as (Ht & Ha & Hn & Hr).
  do 4 (split; [done|]).
  destruct Hrs as [Hrs|Hrs]; rewrite Hrs.
  - split; [|split].
    + intros j x Hj Hx.
      apply lookup_markSegment_Some in Hj as (x0 & Hj & ->).
      destruct (decide (segmentId x0 = segmentId r)) as [He|Hne]; [done|].
      split; [|done]. intros ->. congruence.
    + intros j x Hj Hx Hne. apply lookup_markSegment_Some.
      exists x. split; [done|]. rewrite decide_False; [done|].
      intros He. apply Hne. eapply (inv_waiting_distinct _ _ _ Hinv); eauto.
    + intros j x Hj Hx.
      apply lookup_markSegment_Some in Hj as (x0 & Hj & ->).
      by destruct (decide (segmentId x0 = segmentId r)).
  - split; [|split].
    + intros j x Hj Hx.
      apply lookup_setState_Some in Hj as [[-> ->]|[Hne Hj]]; done.
    + intros j x Hj Hx Hne. apply lookup_setState_Some; [done|]. by right.
    + intros j x Hj Hx.
      apply lookup_setState_Some in Hj as [[-> ->]|[Hne Hj]]; done.
Qed.

Lemma wrap32_small (n : nat) :
  (n ≤ numTasks)%nat → wrap32 (Z.of_nat n) = Z.of_nat n.
Proof.
  unfold numTasks, wrap32. intros H. apply Z.mod_small. lia.
Qed.

(** A task completion keeps the invariant of the event loop. *)
Lemma LoopInv_completeTask sb slot i :
  LoopInv rs0 outcome sb →
  tasks sb !! slot = Some (Some i) →
  LoopInv rs0 outcome
    (completeTask (buildSegmentIdToBackups rs0 0 ∅) slot i (outcome i) sb).
Proof.
  intros [[HR [Hlen Htw Hwt Hinj] Hact] Hidle] Hslot.
  destruct (Htw _ _ Hslot) as (r & Hi & Hw).
  unfold completeTask. rewrite Hi.
  destruct (finishRpc_effect sb i r HR Hi Hw)
    as (Ht & Ha & Hn & Hrun & HF2 & HF3 & HF4).
  pose proof (ReplicaInv_finishRpc sb i r HR Hi Hw) as HRF.
  set (sbF := finishRpc _ i r (outcome i) sb) in *.
  unfold refillTask.
  pose proof (advanceNotStarted_spec (replicas sbF) (notStarted sbF))
    as [Hadv1 Hadv2].
  set (ns := advanceNotStarted _ _) in *.
  simpl in Hadv1, Hadv2.
  assert (Hnsprop : ∀ j x, (j < ns)%nat → replicas sbF !! j = Some x →
                           state x ≠ NOT_STARTED).
  { intros j x Hlt Hj. destruct (decide (j < notStarted sbF)%nat).
    - eapply (inv_notStarted _ _ _ HRF); eauto.
    - eapply Hadv2; [|done]. lia. }
  set (sb1 := {| replicas := replicas sbF; runningSet := runningSet sbF;
                 tasks := <[slot:=None]> (tasks sbF);
                 activeRequests := activeRequests sbF;
                 notStarted := ns; replayed := replayed sbF |}).
  assert (HR1 : ReplicaInv rs0 outcome sb1) by (by eapply ReplicaInv_ext).
  assert (Hslotlt : (slot < length (tasks sb))%nat)
    by (by eapply lookup_lt_Some).
  assert (Hcnt : countActive (tasks sb) =
                 S (countActive (<[slot:=None]> (tasks sb))))
    by (by eapply countActive_clear).
  pose proof (countActive_le (tasks sb)) as Hcle.
  destruct (findNext _ _ ns) as [j|] eqn:Hfind; simpl in Hfind.
  - (* a replica is picked for the slot *)
    apply findNext_Some in Hfind as (Hnsj & (x & Hj & Hxn & Hxout) & _).
    change (replicas sb1 !! j) with (replicas sbF !! j). rewrite Hj.
    assert (Hjsb : replicas sb !! j = Some x) by eauto.
    assert (Hji : j ≠ i) by (intros ->; congruence).
    split; [split|].
    + by apply ReplicaInv_startTask.
    + simpl. rewrite Ht. split.
      * by rewrite !length_insert.
      * intros s k Hs. destruct (decide (s = slot)) as [->|Hne].
        -- rewrite list_lookup_insert_eq in Hs
             by (by rewrite length_insert).
           simplify_eq. exists (setState WAITING x).
           split; [|done]. apply lookup_setState_Some; [done|]. by left.
        -- rewrite !list_lookup_insert_ne in Hs by done.
           destruct (Htw _ _ Hs) as (y & Hk & Hyw).
           assert (k ≠ i) by (intros ->; eauto).
           exists y. split; [|done].
           apply lookup_setState_Some; [done|]. right.
           split; [intros ->; congruence|]. eauto.
      * intros k y Hk Hyw.
        apply lookup_setState_Some in Hk as [[-> ->]|[Hnk Hk]]; [|  |done].
        -- exists slot. by rewrite list_lookup_insert_eq
             by (by rewrite length_insert).
        -- destruct (HF2 _ _ Hk Hyw) as [Hki Hksb].
           destruct (Hwt _ _ Hksb Hyw) as (s & Hs).
           exists s. assert (s ≠ slot) by (intros ->; congruence).
           by rewrite !list_lookup_insert_ne.
      * intros s1 s2 k H1 H2.
        destruct (decide (s1 = slot)) as [->|Hn1];
          destruct (decide (s2 = slot)) as [->|Hn2]; [done|..].
        -- rewrite list_lookup_insert_eq in H1
             by (by rewrite length_insert).
           rewrite !list_lookup_insert_ne in H2 by done. simplify_eq.
           destruct (Htw _ _ H2) as (y & Hy & Hyw). congruence.
        -- rewrite list_lookup_insert_eq in H2
             by (by rewrite length_insert).
           rewrite !list_lookup_insert_ne in H1 by done. simplify_eq.
           destruct (Htw _ _ H1) as (y & Hy & Hyw). congruence.
        -- rewrite !list_lookup_insert_ne in H1, H2 by done. eauto.
    + simpl. rewrite Ht, Ha, Hact. f_equal.
      rewrite countActive_fill; [lia|].
      by rewrite list_lookup_insert_eq.
    + simpl. rewrite Ht, Hrun. intros s Hs k y Hk Hyn.
      assert (s ≠ slot).
      { intros ->. rewrite list_lookup_insert_eq in Hs
          by (by rewrite length_insert). done. }
      rewrite !list_lookup_insert_ne in Hs by done.
      apply lookup_setState_Some in Hk as [[-> ->]|[Hnk Hk]]; [done| |done].
      assert (Hy : segmentId y ∈ runningSet sb) by eauto.
      assert (Hx : segmentId x ∈ runningSet sb) by eauto.
      rewrite Hrun in Hxout. apply elem_of_union.
      destruct (decide (segmentId y = segmentId r)) as [He|Hne].
      * left. apply elem_of_singleton. rewrite He.
        destruct (decide (segmentId x = segmentId r)); [done|].
        exfalso. apply Hxout, elem_of_difference.
        split; [done|by apply not_elem_of_singleton].
      * right. apply elem_of_difference.
        split; [done|by apply not_elem_of_singleton].
  - (* out of hosts: the slot stays empty *)
    pose proof (findNext_None _ _ _ Hfind) as Hnone.
    split; [split|].
    + by eapply ReplicaInv_ext.
    + simpl. rewrite Ht. split.
      * by rewrite length_insert.
      * intros s k Hs.
        assert (s ≠ slot).
        { intros ->. by rewrite list_lookup_insert_eq in Hs. }
        rewrite list_lookup_insert_ne in Hs by done.
        destruct (Htw _ _ Hs) as (y & Hk & Hyw).
        assert (k ≠ i) by (intros ->; eauto).
        exists y. eauto.
      * intros k y Hk Hyw.
        destruct (HF2 _ _ Hk Hyw) as [Hki Hksb].
        destruct (Hwt _ _ Hksb Hyw) as (s & Hs).
        exists s. assert (s ≠ slot) by (intros ->; congruence).
        by rewrite list_lookup_insert_ne.
      * intros s1 s2 k H1 H2.
        assert (s1 ≠ slot).
        { intros ->. by rewrite list_lookup_insert_eq in H1. }
        assert (s2 ≠ slot).
        { intros ->. by rewrite list_lookup_insert_eq in H2. }
        rewrite list_lookup_insert_ne in H1, H2 by done. eauto.
    + simpl. rewrite Ht, Ha, Hact, Hcnt.
      replace (Z.of_nat (S (countActive (<[slot:=None]> (tasks sb)))) - 1)
        with (Z.of_nat (countActive (<[slot:=None]> (tasks sb)))) by lia.
      apply wrap32_small. unfold numTasks in *. lia.
    + simpl. intros s Hs k y Hk Hyn.
      destruct (decide (k < ns)%nat) as [Hlt|Hge].
      * exfalso. by eapply Hnsprop.
      * destruct (Hnone k y) as [Hc|Hin]; [lia|done|done|done].
Qed.

(** ** The initial round of RPCs *)

Lemma InitInv_init :
  allNotStarted rs0 → InitInv rs0 outcome 0 0 (initScoreboard rs0).
Proof.
  intros Hall.
  assert (Hns : ∀ i r, rs0 !! i = Some r → state r = NOT_STARTED).
  { intros i r Hr. apply Hall. by eapply list_elem_of_lookup_2. }
  split; simpl.
  - split; [by apply ReplicaInv_init| |done].
    split; simpl.
    + done.
    + intros slot i H. do 4 (destruct slot as [|slot]; [done|]). done.
    + intros i r Hr Hw. apply Hns in Hr. congruence.
    + intros s1 s2 i H. do 4 (destruct s1 as [|s1]; [done|]). done.
  - intros s Hs. do 4 (destruct s as [|s]; [done|]).
    unfold numTasks in Hs. lia.
  - intros; lia.
  - intros; lia.
  - eauto.
  - intros. apply not_elem_of_empty.
Qed.

Lemma InitInv_step k it sb r :
  InitInv rs0 outcome k it sb → (k < numTasks)%nat →
  replicas sb !! it = Some r →
  let sb1 := startTask k it r sb in
  let sb2 := {| replicas := replicas sb1; runningSet := runningSet sb1;
                tasks := tasks sb1;
                activeRequests := wrap32 (activeRequests sb1 + 1);
                notStarted := notStarted sb1; replayed := replayed sb1 |} in
  InitInv rs0 outcome (S k)
    (skipRunning (runningSet sb2) (drop (S it) (replicas sb2)) (S it)) sb2.
Proof.
  intros [[HR [Hlen Htw Hwt Hinj] Hact] Hempty Hfull Hbefore Hafter Hcur]
    Hk Hit sb1 sb2.
  assert (Hrn : state r = NOT_STARTED) by eauto.
  assert (Hrout : segmentId r ∉ runningSet sb) by eauto.
  assert (Hslot : tasks sb !! k = Some None) by (apply Hempty; lia).
  assert (Hklt : (k < length (tasks sb))%nat) by (by eapply lookup_lt_Some).
  pose proof (skipRunning_spec (runningSet sb2) (replicas sb2) (S it))
    as (Hle & Hmid & Hend).
  set (it' := skipRunning _ _ _) in *. simpl in Hle, Hmid, Hend.
  split.
  - split.
    + eapply (ReplicaInv_ext (startTask k it r sb)); try done.
      * by apply ReplicaInv_startTask.
      * apply (inv_notStarted _ _ _ (ReplicaInv_startTask _ k _ _ HR Hit Hrn Hrout)).
    + split; simpl.
      * by rewrite length_insert.
      * intros s j Hs. destruct (decide (s = k)) as [->|Hne].
        -- rewrite list_lookup_insert_eq in Hs by done. simplify_eq.
           exists (setState WAITING r). split; [|done].
           apply lookup_setState_Some; [done|]. by left.
        -- rewrite list_lookup_insert_ne in Hs by done.
           destruct (Htw _ _ Hs) as (y & Hj & Hyw).
           exists y. split; [|done]. apply lookup_setState_Some; [done|].
           right. split; [intros ->; congruence|done].
      * intros j y Hj Hyw.
        apply lookup_setState_Some in Hj as [[-> ->]|[Hnj Hj]]; [| |done].
        -- exists k. by rewrite list_lookup_insert_eq.
        -- destruct (Hwt _ _ Hj Hyw) as (s & Hs). exists s.
           rewrite list_lookup_insert_ne; [done|]. intros ->. congruence.
      * intros s1 s2 j H1 H2.
        destruct (decide (s1 = k)) as [->|Hn1];
          destruct (decide (s2 = k)) as [->|Hn2]; [done|..].
        -- rewrite list_lookup_insert_eq in H1 by done.
           rewrite list_lookup_insert_ne in H2 by done. simplify_eq.
           destruct (Htw _ _ H2) as (y & Hy & Hyw). congruence.
        -- rewrite list_lookup_insert_eq in H2 by done.
           rewrite list_lookup_insert_ne in H1 by done. simplify_eq.
           destruct (Htw _ _ H1) as (y & Hy & Hyw). congruence.
        -- rewrite list_lookup_insert_ne in H1, H2 by done. eauto.
    + simpl. rewrite Hact, countActive_fill by done.
      replace (Z.of_nat (countActive (tasks sb)) + 1)
        with (Z.of_nat (S (countActive (tasks sb)))) by lia.
      apply wrap32_small.
      pose proof (countActive_le (<[k:=Some it]> (tasks sb))) as Hc.
      rewrite countActive_fill, length_insert in Hc by done. lia.
  - simpl. intros s Hs. rewrite list_lookup_insert_ne by lia.
    apply Hempty. lia.
  - simpl. intros s Hs. destruct (decide (s = k)) as [->|Hne].
    + exists it. by rewrite list_lookup_insert_eq.
    + rewrite list_lookup_insert_ne by done. apply Hfull. lia.
  - simpl. intros j y Hlt Hj Hyn.
    destruct (decide (S it ≤ j)%nat) as [Hge|Hlt'].
    + eapply (Hmid j y); [lia|done].
    + apply lookup_setState_Some in Hj as [[-> ->]|[Hnj Hj]]; [done| |done].
      apply elem_of_union. right. eapply Hbefore; [|done..]. lia.
  - simpl. intros j y Hge Hj.
    apply lookup_setState_Some in Hj as [[-> ->]|[Hnj Hj]]; [lia| |done].
    eapply Hafter; [|done]. lia.
  - simpl. intros y Hy. by apply Hend.
Qed.

Lemma startInitialTasks_inv n : ∀ k it sb,
  InitInv rs0 outcome k it sb → (k + n ≤ numTasks)%nat →
  let res := startInitialTasks (seq k n) it sb in
  ∃ k', InitInv rs0 outcome k' res.1 res.2 ∧
        (k' = (k + n)%nat ∨ replicas res.2 !! res.1 = None).
Proof.
  induction n as [|n IH]; intros k it sb Hinv Hkn; simpl.
  - exists k. split; [done|]. left. lia.
  - destruct (replicas sb !! it) as [r|] eqn:Hit; simpl.
    + destruct (IH (S k) _ _ (InitInv_step k it sb r Hinv ltac:(lia) Hit)
                  ltac:(lia)) as (k' & Hinv' & Hk').
      exists k'. split; [done|]. destruct Hk' as [->|Hnone]; [left; lia|by right].
    + exists k. split; [done|]. by right.
Qed.

Lemma CoreInv_initial k :
  allNotStarted rs0 → (k ≤ numTasks)%nat →
  CoreInv rs0 outcome (startInitialTasks (seq 0 k) 0 (initScoreboard rs0)).2.
Proof.
  intros Hall Hk.
  destruct (startInitialTasks_inv k 0 0 _ (InitInv_init Hall) Hk)
    as (k' & Hinv & _).
  apply Hinv.
Qed.

Lemma LoopInv_start :
  allNotStarted rs0 → LoopInv rs0 outcome (startRecovery rs0).
Proof.
  intros Hall. unfold startRecovery.
  destruct (startInitialTasks_inv numTasks 0 0 _ (InitInv_init Hall)
              ltac:(done)) as (k' & Hinv & Hk').
  split; [apply Hinv|].
  intros slot Hslot j r Hj Hrn.
  destruct Hk' as [->|Hnone].
  - exfalso. apply lookup_lt_Some in Hslot as Hlt.
    rewrite (inv_tasks_len _ _ (inv_task _ _ _ (init_core _ _ _ _ _ Hinv)))
      in Hlt.
    destruct (init_full _ _ _ _ _ Hinv slot) as (i & Hi); [simpl; lia|].
    congruence.
  - eapply (init_before _ _ _ _ _ Hinv); [|done..].
    apply lookup_ge_None in Hnone. apply lookup_lt_Some in Hj. lia.
Qed.

Lemma inLoop_LoopInv sb :
  allNotStarted rs0 → inLoop rs0 outcome sb → LoopInv rs0 outcome sb.
Proof.
  intros Hall. induction 1 as [|sb slot i _ IH Hslot].
  - by apply LoopInv_start.
  - by apply LoopInv_completeTask.
Qed.

Lemma reachable_CoreInv sb :
  allNotStarted rs0 → reachable rs0 outcome sb → CoreInv rs0 outcome sb.
Proof.
  intros Hall [k Hk|sb' Hloop].
  - by apply CoreInv_initial.
  - by apply inLoop_LoopInv.
Qed.

(** ** Leaving the event loop *)

Lemma countActive_pos ts :
  (0 < countActive ts)%nat → ∃ slot i, ts !! slot = Some (Some i).
Proof.
  induction ts as [|[x|] ts IH]; simpl; intros H; [lia| |].
  - by exists 0%nat, x.
  - destruct (IH H) as (slot & i & Hs). by exists (S slot), i.
Qed.

Lemma LoopInv_exit sb :
  LoopInv rs0 outcome sb → activeRequests sb = 0 →
  ∀ j r, replicas sb !! j = Some r → state r = OK ∨ state r = FAILED.
Proof.
  intros [[HR [Hlen Htw Hwt Hinj] Hact] Hidle] H0.
  assert (Hc : countActive (tasks sb) = 0%nat) by lia.
  assert (Hnow : ∀ j r, replicas sb !! j = Some r → state r ≠ WAITING).
  { intros j r Hj Hw. destruct (Hwt _ _ Hj Hw) as (slot & Hs).
    by eapply countActive_zero. }
  assert (Hslot0 : tasks sb !! 0%nat = Some None).
  { destruct (tasks sb) as [|[i|] ts] eqn:Hts; simpl in *; try done. }
  intros j r Hj. destruct (state r) eqn:Hst; auto.
  - exfalso. pose proof (Hidle _ Hslot0 _ _ Hj Hst) as Hin.
    apply (inv_running _ _ _ HR) in Hin as (k & x & Hk & Hxw & _).
    by eapply Hnow.
  - exfalso. by eapply Hnow.
Qed.

End ReplicaInvariant.

(** ** Progress of the event loop *)

Lemma pending_insert (rs : list Replica) i r r' :
  rs !! i = Some r →
  (pending (<[i := r']> rs) + (if isPending r then 1 else 0) =
   pending rs + (if isPending r' then 1 else 0))%nat.
Proof.
  revert i. induction rs as [|x rs IH]; intros [|i] Hi; simplify_eq/=.
  - lia.
  - specialize (IH _ Hi). lia.
Qed.

Lemma isPending_markSegment s r :
  (if isPending (if decide (segmentId r = s) then setState OK r else r)
   then 1 else 0) ≤ (if isPending r then 1 else 0).
Proof. destruct (decide _); simpl; destruct (isPending r); lia. Qed.

Lemma pending_markSegment_le s rs :
  (pending (markSegment s rs) ≤ pending rs)%nat.
Proof.
  induction rs as [|x rs IH]; simpl; [lia|].
  pose proof (isPending_markSegment s x) as H.
  destruct (decide (segmentId x = s)); simpl in *;
    destruct (isPending x); simpl in *; lia.
Qed.

Lemma pending_markSegment_lt s (rs : list Replica) i r :
  rs !! i = Some r → segmentId r = s → isPending r = true →
  (pending (markSegment s rs) < pending rs)%nat.
Proof.
  revert i. induction rs as [|x rs IH]; intros [|i] Hi Hs Hp; simplify_eq/=.
  - rewrite decide_True by done. rewrite Hp. simpl.
    pose proof (pending_markSegment_le (segmentId r) rs). lia.
  - specialize (IH _ Hi eq_refl Hp).
    destruct (decide (segmentId x = segmentId r)); simpl;
      destruct (isPending x); simpl; lia.
Qed.

Lemma refillTask_pending slot sb :
  pending (replicas (refillTask slot sb)) = pending (replicas sb).
Proof.
  unfold refillTask.
  destruct (findNext _ _ _) as [j|] eqn:Hfind; simpl in *; [|done].
  apply findNext_Some in Hfind as (_ & (x & Hj & Hxn & _) & _).
  rewrite Hj. simpl.
  pose proof (pending_insert _ _ _ (setState WAITING x) Hj) as H.
  unfold isPending in H. simpl in H. rewrite Hxn in H. lia.
Qed.

Section Progress.
Variable rs0 : list Replica.
Variable outcome : nat → RpcResult.
Hypothesis Hall : allNotStarted rs0.
Let m := buildSegmentIdToBackups rs0 0 ∅.

Lemma completeTask_pending sb slot i :
  LoopInv rs0 outcome sb → tasks sb !! slot = Some (Some i) →
  (pending (replicas (completeTask m slot i (outcome i) sb))
   < pending (replicas sb))%nat.
Proof.
  intros Hinv Hslot.
  destruct (inv_task_waiting _ _ (inv_task _ _ _ (inv_core _ _ _ Hinv))
              _ _ Hslot) as (r & Hi & Hw).
  pose proof (inv_replica _ _ _ (inv_core _ _ _ Hinv)) as HR.
  unfold completeTask. rewrite Hi, refillTask_pending.
  assert (Hp : isPending r = true) by (unfold isPending; by rewrite Hw).
  destruct (outcome i) eqn:Ho.
  - unfold m. rewrite finishRpc_Replayed_replicas; [|apply HR|done].
    by eapply pending_markSegment_lt.
  - simpl. pose proof (pending_insert _ _ _ (setState FAILED r) Hi) as H.
    rewrite Hp in H. unfold isPending in H. simpl in H. lia.
  - simpl. pose proof (pending_insert _ _ _ (setState FAILED r) Hi) as H.
    rewrite Hp in H. unfold isPending in H. simpl in H. lia.
  - simpl. pose proof (pending_insert _ _ _ (setState FAILED r) Hi) as H.
    rewrite Hp in H. unfold isPending in H. simpl in H. lia.
Qed.

(** A round over some slots stays within the states of the loop, and
    either changes nothing, no occupied slot of the round being ready, or
    brings a replica to OK or FAILED. *)
Lemma poll_slots ready slots : ∀ sb,
  inLoop rs0 outcome sb →
  let sb' := foldl (pollTask m ready outcome) sb slots in
  inLoop rs0 outcome sb' ∧
  ((sb' = sb ∧ ∀ slot i, slot ∈ slots → tasks sb !! slot = Some (Some i) →
                         ready slot = false) ∨
   (pending (replicas sb') < pending (replicas sb))%nat).
Proof.
  induction slots as [|slot slots IH]; intros sb Hloop; simpl.
  - split; [done|]. left. split; [done|]. by intros ? ? ?%elem_of_nil.
  - assert (Hstep : inLoop rs0 outcome (pollTask m ready outcome sb slot) ∧
      ((pollTask m ready outcome sb slot = sb ∧
        ∀ i, tasks sb !! slot = Some (Some i) → ready slot = false) ∨
       (pending (replicas (pollTask m ready outcome sb slot))
        < pending (replicas sb))%nat)).
    { unfold pollTask.
      destruct (tasks sb !! slot) as [[i|]|] eqn:Hslot;
        [|split; [done|left; done]..].
      destruct (ready slot) eqn:Hr; [|split; [done|left; done]].
      split; [by apply loop_complete|]. right.
      apply completeTask_pending; [|done]. by apply inLoop_LoopInv. }
    destruct Hstep as [Hloop1 Hcase1].
    destruct (IH _ Hloop1) as [Hloop2 Hcase2].
    split; [done|].
    destruct Hcase1 as [[Heq1 Hnr1]|Hlt1].
    + rewrite Heq1 in *. destruct Hcase2 as [[Heq2 Hnr2]|Hlt2]; [|by right].
      left. split; [done|].
      intros s i [->|Hs]%elem_of_cons Hsi; eauto.
    + right. destruct Hcase2 as [[-> _]|Hlt2]; lia.
Qed.

Lemma eventLoop_inLoop ready fuel : ∀ n sb sb',
  inLoop rs0 outcome sb →
  eventLoop fuel n m ready outcome sb = Some sb' →
  inLoop rs0 outcome sb' ∧ activeRequests sb' = 0.
Proof.
  induction fuel as [|fuel IH]; intros n sb sb' Hloop; simpl;
    destruct (decide (activeRequests sb = 0)) as [H0|Hn0]; intros H;
    simplify_eq; auto.
  eapply IH; [|done]. by apply (poll_slots (ready n) (seq 0 numTasks)).
Qed.

(** Under a fair scheduler the event loop comes to an end. *)
Lemma eventLoop_terminates ready :
  fair ready →
  ∀ p sb n, inLoop rs0 outcome sb → (pending (replicas sb) ≤ p)%nat →
  ∃ fuel sb', eventLoop fuel n m ready outcome sb = Some sb'.
Proof.
  intros Hfair. induction p as [p IHp] using lt_wf_ind.
  intros sb n Hloop Hp.
  destruct (decide (activeRequests sb = 0)) as [H0|Hn0].
  { exists 0%nat, sb. simpl. by rewrite decide_True. }
  pose proof (inLoop_LoopInv _ _ _ Hall Hloop) as Hinv.
  assert (Hact : (0 < countActive (tasks sb))%nat).
  { rewrite (inv_active _ _ _ (inv_core _ _ _ Hinv)) in Hn0. lia. }
  apply countActive_pos in Hact as (slot & i & Hslot).
  assert (Hslot4 : slot ∈ seq 0 numTasks).
  { apply elem_of_seq. apply lookup_lt_Some in Hslot.
    rewrite (inv_tasks_len _ _ (inv_task _ _ _ (inv_core _ _ _ Hinv)))
      in Hslot. lia. }
  destruct (Hfair n slot) as (k & Hk & Hready).
  assert (Hd : ∃ d, k = (n + d)%nat) by (exists (k - n)%nat; lia).
  destruct Hd as (d & ->). clear Hk.
  revert n Hready. induction d as [|d IHd]; intros n Hready.
  - destruct (poll_slots (ready n) (seq 0 numTasks) sb Hloop)
      as [Hloop' [[_ Hnr]|Hlt]].
    + rewrite Nat.add_0_r in Hready.
      rewrite (Hnr slot i Hslot4 Hslot) in Hready. done.
    + destruct (IHp (pending (replicas (pass m (ready n) outcome sb)))
                  ltac:(unfold pass; lia) _ (S n) Hloop' ltac:(done))
        as (fuel & sb' & Hrun).
      exists (S fuel), sb'. simpl. by rewrite decide_False.
  - destruct (poll_slots (ready n) (seq 0 numTasks) sb Hloop)
      as [Hloop' [[Heq _]|Hlt]].
    + destruct (IHd (S n)) as (fuel & sb' & Hrun).
      { by replace (S n + d)%nat with (n + S d)%nat by lia. }
      exists (S fuel), sb'. simpl. rewrite decide_False by done.
      unfold pass. by rewrite Heq.
    + destruct (IHp (pending (replicas (pass m (ready n) outcome sb)))
                  ltac:(unfold pass; lia) _ (S n) Hloop' ltac:(done))
        as (fuel & sb' & Hrun).
      exists (S fuel), sb'. simpl. by rewrite decide_False.
Qed.

End Progress.

(** ** [detectSegmentRecoveryFailure] on a finished scoreboard *)

Lemma scanFailures_spec rs : ∀ F,
  (∀ r, r ∈ rs → state r = OK ∨ state r = FAILED) →
  (∀ r1 r2, r1 ∈ rs → r2 ∈ rs → segmentId r1 = segmentId r2 →
            state r1 = OK → state r2 = OK) →
  ∃ F', scanFailures F rs = Some F' ∧
    ∀ s, s ∈ F' ↔
      (s ∈ F ∧ ∀ r, r ∈ rs → segmentId r ≠ s) ∨
      (∃ r, r ∈ rs ∧ segmentId r = s ∧ state r = FAILED).
Proof.
  induction rs as [|x rs IH]; intros F Hterm Hclosed; simpl.
  - exists F. split; [done|]. intros s. split.
    + intros Hs. left. split; [done|]. by intros r ?%elem_of_nil.
    + intros [[Hs _]|(r & Hr%elem_of_nil & _)]; done.
  - assert (Hterm' : ∀ r, r ∈ rs → state r = OK ∨ state r = FAILED)
      by (intros; apply Hterm; by right).
    assert (Hclosed' : ∀ r1 r2, r1 ∈ rs → r2 ∈ rs →
              segmentId r1 = segmentId r2 → state r1 = OK → state r2 = OK).
    { intros r1 r2 H1 H2. apply Hclosed; by right. }
    destruct (Hterm x ltac:(left)) as [Hx|Hx]; rewrite Hx.
    + destruct (IH (F ∖ {[segmentId x]}) Hterm' Hclosed') as (F' & -> & HF').
      exists F'. split; [done|]. intros s. rewrite HF'.
      rewrite elem_of_difference, not_elem_of_singleton. split.
      * intros [[[Hs Hne] Hno]|(r & Hr & Hrs & Hrf)].
        -- left. split; [done|]. intros r [->|Hr]%elem_of_cons; eauto.
        -- right. exists r. split; [by right|done].
      * intros [[Hs Hno]|(r & [->|Hr]%elem_of_cons & Hrs & Hrf)].
        -- left. split; [split; [done|]|].
           ++ intros ->. by apply (Hno x); [left|].
           ++ intros r Hr. apply Hno. by right.
        -- congruence.
        -- right. eauto.
    + destruct (IH ({[segmentId x]} ∪ F) Hterm' Hclosed') as (F' & -> & HF').
      exists F'. split; [done|]. intros s. rewrite HF'.
      rewrite elem_of_union, elem_of_singleton. split.
      * intros [[[->|Hs] Hno]|(r & Hr & Hrs & Hrf)].
        -- right. exists x. split; [by left|done].
        -- destruct (decide (segmentId x = s)) as [He|Hne].
           ++ right. exists x. split; [by left|done].
           ++ left. split; [done|].
              intros r [->|Hr]%elem_of_cons; eauto.
        -- right. exists r. split; [by right|done].
      * intros [[Hs Hno]|(r & [->|Hr]%elem_of_cons & Hrs & Hrf)].
        -- left. split; [by right|]. intros r Hr. apply Hno. by right.
        -- destruct (decide (s ∈ map segmentId rs)) as [Hin|Hout].
           ++ right. apply list_elem_of_In, in_map_iff in Hin
                as (r & Hrs' & Hr%list_elem_of_In).
              exists r. split; [done|]. split; [done|].
              destruct (Hterm' r Hr) as [Hok|Hf]; [|done].
              assert (state x = OK); [|congruence].
              apply (Hclosed r x); [by right|by left|congruence|done].
           ++ left. split; [by left|]. intros r Hr He. apply Hout.
              apply list_elem_of_In, in_map_iff. exists r.
              split; [done|by apply list_elem_of_In].
        -- right. eauto.
Qed.

Lemma detect_finished rs :
  (∀ r, r ∈ rs → state r = OK ∨ state r = FAILED) →
  (∀ r1 r2, r1 ∈ rs → r2 ∈ rs → segmentId r1 = segmentId r2 →
            state r1 = OK → state r2 = OK) →
  (detectSegmentRecoveryFailure rs = NoFailure ∧
   ∀ r, r ∈ rs → state r = OK) ∨
  (∃ F, detectSegmentRecoveryFailure rs = SegmentRecoveryFailedException F ∧
        ∃ r, r ∈ rs ∧ state r = FAILED).
Proof.
  intros Hterm Hclosed. unfold detectSegmentRecoveryFailure.
  destruct (scanFailures_spec rs ∅ Hterm Hclosed) as (F' & -> & HF').
  destruct (decide (F' = ∅)) as [->|Hne].
  - left. split; [done|]. intros r Hr.
    destruct (Hterm r Hr) as [Hok|Hf]; [done|].
    exfalso. apply (not_elem_of_empty (C := gset Z) (segmentId r)).
    apply HF'. right. eauto.
  - right. exists F'. split; [done|].
    apply set_choose_L in Hne as (s & Hs).
    apply HF' in Hs as [[Hs _]|(r & Hr & _ & Hf)]; [|eauto].
    by apply not_elem_of_empty in Hs.
Qed.


(** ** The helper [recover] as a whole *)

Lemma allNotStarted_parseReplicas wire : allNotStarted (parseReplicas wire).
Proof.
  intros r Hr. apply list_elem_of_In, in_map_iff in Hr as (p & <- & _). done.
Qed.

Lemma elem_of_segmentIds (rs rs0 : list Replica) r :
  map segmentId rs = map segmentId rs0 → r ∈ rs →
  segmentId r ∈ map segmentId rs0.
Proof.
  intros <- Hr. apply list_elem_of_In, in_map. by apply list_elem_of_In.
Qed.

Lemma segmentIds_elem_of (rs rs0 : list Replica) s :
  map segmentId rs = map segmentId rs0 → s ∈ map segmentId rs0 →
  ∃ r, r ∈ rs ∧ segmentId r = s.
Proof.
  intros <- Hs. apply list_elem_of_In, in_map_iff in Hs as (r & <- & Hr).
  exists r. split; [by apply list_elem_of_In|done].
Qed.

(** The state in which the event loop is left. *)
Lemma finished_scoreboard rs outcome sb :
  allNotStarted rs → inLoop rs outcome sb → activeRequests sb = 0 →
  (∀ r, r ∈ replicas sb → state r = OK ∨ state r = FAILED) ∧
  (∀ r1 r2, r1 ∈ replicas sb → r2 ∈ replicas sb →
            segmentId r1 = segmentId r2 → state r1 = OK → state r2 = OK).
Proof.
  intros Hall Hloop H0.
  pose proof (inLoop_LoopInv _ _ _ Hall Hloop) as Hinv. split.
  - intros r (j & Hj)%list_elem_of_lookup. by eapply LoopInv_exit.
  - intros r1 r2 (j1 & H1)%list_elem_of_lookup (j2 & H2)%list_elem_of_lookup.
    eapply (inv_ok_closed _ _ _ (inv_replica _ _ _ (inv_core _ _ _ Hinv)));
      eauto.
Qed.

(** The exception is raised exactly when a segment is left without a
    replica in state OK. *)
Lemma detect_iff_unrecovered rs outcome sb :
  allNotStarted rs → inLoop rs outcome sb → activeRequests sb = 0 →
  (∃ F, detectSegmentRecoveryFailure (replicas sb)
        = SegmentRecoveryFailedException F) ↔
  (∃ s, s ∈ map segmentId rs ∧
        ∀ r, r ∈ replicas sb → segmentId r = s → state r ≠ OK).
Proof.
  intros Hall Hloop H0.
  destruct (finished_scoreboard _ _ _ Hall Hloop H0) as [Hterm Hclosed].
  pose proof (inv_segs _ _ _ (inv_replica _ _ _ (inv_core _ _ _
    (inLoop_LoopInv _ _ _ Hall Hloop)))) as Hsegs.
  destruct (detect_finished _ Hterm Hclosed)
    as [[Hd Hok]|(F & Hd & r & Hr & Hf)]; rewrite Hd.
  - split; [by intros (F & ?)|].
    intros (s & Hs & Hno).
    destruct (segmentIds_elem_of _ _ _ Hsegs Hs) as (r & Hr & Hrs).
    exfalso. by apply (Hno r); [| |apply Hok].
  - split; [|by eauto]. intros _. exists (segmentId r).
    split; [by eapply elem_of_segmentIds|].
    intros r' Hr' Hs Hok'.
    assert (state r = OK) by (by eapply (Hclosed r' r)). congruence.
Qed.

(** With a good replica for every segment, everything ends in OK. *)
Lemma finished_all_OK rs outcome sb :
  allNotStarted rs → inLoop rs outcome sb → activeRequests sb = 0 →
  (∀ s, s ∈ map segmentId rs →
        ∃ i r, rs !! i = Some r ∧ segmentId r = s ∧ outcome i = Replayed) →
  detectSegmentRecoveryFailure (replicas sb) = NoFailure ∧
  ∀ r, r ∈ replicas sb → state r = OK.
Proof.
  intros Hall Hloop H0 Hgood.
  destruct (finished_scoreboard _ _ _ Hall Hloop H0) as [Hterm Hclosed].
  pose proof (inv_replica _ _ _ (inv_core _ _ _
    (inLoop_LoopInv _ _ _ Hall Hloop))) as HR.
  destruct (detect_finished _ Hterm Hclosed)
    as [[Hd Hok]|(F & Hd & r & Hr & Hf)]; [done|exfalso].
  destruct (Hgood (segmentId r)) as (i & r0 & Hi & Hs & Ho).
  { eapply elem_of_segmentIds; [apply HR|done]. }
  assert (Hx : ∃ x, replicas sb !! i = Some x ∧ segmentId x = segmentId r0).
  { destruct (lookup_segmentId_eq rs (replicas sb) i r0) as (x & Hx & Hxs);
      [symmetry; apply HR|done|eauto]. }
  destruct Hx as (x & Hx & Hxs).
  destruct (Hterm x) as [Hxok|Hxf]; [by eapply list_elem_of_lookup_2| |].
  - assert (state r = OK); [|congruence].
    eapply (Hclosed x r); [by eapply list_elem_of_lookup_2|done|congruence|done].
  - by eapply (inv_failed _ _ _ HR).
Qed.

Lemma recover_commits rs outcome ready :
  allNotStarted rs → fair ready →
  (∀ s, s ∈ map segmentId rs →
        ∃ i r, rs !! i = Some r ∧ segmentId r = s ∧ outcome i = Replayed) →
  ∃ fuel sb, recover fuel ready outcome rs = Some (Committed sb) ∧
             LoopInv rs outcome sb ∧
             ∀ r, r ∈ replicas sb → state r = OK.
Proof.
  intros Hall Hfair Hgood.
  destruct (eventLoop_terminates rs outcome Hall ready Hfair _
              (startRecovery rs) 0%nat (loop_enter _ _) (le_n _))
    as (fuel & sb & Hrun).
  destruct (eventLoop_inLoop _ _ Hall _ _ _ _ _ (loop_enter _ _) Hrun)
    as [Hloop H0].
  destruct (finished_all_OK _ _ _ Hall Hloop H0 Hgood) as [Hd Hok].
  exists fuel, sb. unfold recover. rewrite Hrun, Hd.
  split; [done|]. split; [by apply inLoop_LoopInv|done].
Qed.

(** The result does not depend on the fuel, once there is enough of it. *)
Lemma eventLoop_deterministic m ready outcome f1 : ∀ f2 n sb a b,
  eventLoop f1 n m ready outcome sb = Some a →
  eventLoop f2 n m ready outcome sb = Some b → a = b.
Proof.
  induction f1 as [|f1 IH]; intros [|f2] n sb a b; simpl;
    destruct (decide (activeRequests sb = 0)); intros H1 H2;
    simplify_eq; eauto.
Qed.

Lemma recover_deterministic ready outcome rs f1 f2 a b :
  recover f1 ready outcome rs = Some a →
  recover f2 ready outcome rs = Some b → a = b.
Proof.
  unfold recover.
  destruct (eventLoop f1 _ _ _ _ _) as [sb1|] eqn:H1; [|done].
  destruct (eventLoop f2 _ _ _ _ _) as [sb2|] eqn:H2; [|done].
  rewrite (eventLoop_deterministic _ _ _ _ _ _ _ _ _ H1 H2).
  congruence.
Qed.

Lemma NoDup_only (l : list Z) a :
  NoDup l → (∀ x, x ∈ l ↔ x = a) → l = [a].
Proof.
  intros Hnd Hl. destruct l as [|x l].
  - exfalso. by apply (elem_of_nil a), Hl.
  - assert (x = a) as -> by (apply Hl; left).
    apply NoDup_cons in Hnd as [Hx Hnd]. destruct l as [|y l]; [done|].
    exfalso. apply Hx. assert (y = a) as -> by (apply Hl; right; left).
    left.
Qed.

End ScoreboardLemmas.

(* ================================================================== *)
(** * Proofs: the tablet table and the RECOVER handler *)
(* ================================================================== *)

Section TabletLemmas.
Import TabletManager.

Lemma isTablet_true tid first last t :
  isTablet tid first last t = true ↔
  tableId t = tid ∧ startKeyHash t = first ∧ endKeyHash t = last.
Proof. unfold isTablet. apply bool_decide_eq_true. Qed.

Lemma overlaps_true tid first last t :
  overlaps tid first last t = true ↔
  tableId t = tid ∧ first ≤ endKeyHash t ∧ startKeyHash t ≤ last.
Proof. unfold overlaps. apply bool_decide_eq_true. Qed.

Lemma addTablet_elem_of tid first last st tm added tm' t :
  addTablet tid first last st tm = (added, tm') →
  t ∈ tm' → t ∈ tm ∨ (added = true ∧ t = mkTablet tid first last st).
Proof.
  unfold addTablet. destruct (existsb _ tm); intros ? Ht; simplify_eq.
  - by left.
  - apply elem_of_app in Ht as [Ht|Ht%list_elem_of_singleton]; auto.
Qed.

Lemma changeState_elem_of tid first last old new tm : ∀ changed tm' t,
  changeState tid first last old new tm = (changed, tm') →
  t ∈ tm' → t ∈ tm ∨ (changed = true ∧ t = mkTablet tid first last new).
Proof.
  induction tm as [|x tm IH]; intros changed tm' t; simpl.
  - intros ? Ht; simplify_eq. by left.
  - destruct (isTablet tid first last x).
    + destruct (decide (state x = old)); intros ? Ht; simplify_eq.
      * apply elem_of_cons in Ht as [->|Ht]; [by right|].
        left. by right.
      * by left.
    + destruct (changeState tid first last old new tm) as [c tm''] eqn:Hc.
      intros ? Ht; simplify_eq.
      apply elem_of_cons in Ht as [->|Ht]; [left; left|].
      destruct (IH _ _ _ eq_refl Ht) as [?|?]; [left; by right|by right].
Qed.

Lemma deleteTablet_elem_of tid first last tm t :
  t ∈ deleteTablet tid first last tm → t ∈ tm.
Proof. unfold deleteTablet. by intros [_ ?]%list_elem_of_filter. Qed.

Lemma overlaps_self t :
  startKeyHash t ≤ endKeyHash t →
  overlaps (tableId t) (startKeyHash t) (endKeyHash t) t = true.
Proof. intros H. apply overlaps_true. lia. Qed.

Lemma existsb_overlaps_elem_of tid first last (tm : list Tablet) t :
  t ∈ tm → overlaps tid first last t = true →
  existsb (overlaps tid first last) tm = true.
Proof.
  intros Ht Ho. apply existsb_exists. exists t.
  split; [by apply list_elem_of_In|done].
Qed.

Lemma existsb_overlaps_false tid first last (tm : list Tablet) t :
  existsb (overlaps tid first last) tm = false → t ∈ tm →
  overlaps tid first last t = false.
Proof.
  intros He Ht. destruct (overlaps tid first last t) eqn:Ho; [|done].
  by rewrite (existsb_overlaps_elem_of _ _ _ _ _ Ht Ho) in He.
Qed.

Lemma wellFormed_elem_of tm t :
  wellFormed tm → t ∈ tm → startKeyHash t ≤ endKeyHash t.
Proof.
  induction tm as [|x tm IH]; simpl; [by intros _ ?%elem_of_nil|].
  intros (Hx & _ & Hwf) [->|Ht]%elem_of_cons; auto.
Qed.

(** In a well-formed table the tablet of a given range is unique. *)
Lemma getTablet_wellFormed tid first last tm t :
  wellFormed tm → t ∈ tm → isTablet tid first last t = true →
  getTablet tid first last tm = Some t.
Proof.
  unfold getTablet. induction tm as [|x tm IH]; simpl;
    [by intros _ ?%elem_of_nil|].
  intros (Hx & Hno & Hwf) Ht Hex.
  destruct (isTablet tid first last x) eqn:Hxe.
  - apply elem_of_cons in Ht as [->|Ht]; [done|exfalso].
    apply isTablet_true in Hex as (? & ? & ?).
    apply isTablet_true in Hxe as (? & ? & ?).
    pose proof (existsb_overlaps_false _ _ _ _ _ Hno Ht) as Hf.
    pose proof (wellFormed_elem_of _ _ Hwf Ht) as Hne.
    assert (overlaps (tableId x) (startKeyHash x) (endKeyHash x) t = true)
      by (apply overlaps_true; lia).
    congruence.
  - apply elem_of_cons in Ht as [->|Ht]; [congruence|]. by apply IH.
Qed.

Lemma getTablet_Some tid first last tm t :
  getTablet tid first last tm = Some t →
  t ∈ tm ∧ isTablet tid first last t = true.
Proof.
  unfold getTablet. intros H. apply find_some in H as [Hin He].
  split; [by apply list_elem_of_In|done].
Qed.

Lemma changeState_true tid first last old new tm : ∀ tm',
  changeState tid first last old new tm = (true, tm') →
  ∃ t, t ∈ tm ∧ isTablet tid first last t = true ∧ state t = old.
Proof.
  induction tm as [|x tm IH]; intros tm'; simpl; [done|].
  destruct (isTablet tid first last x) eqn:Hx.
  - destruct (decide (state x = old)); [|done].
    intros _. exists x. split; [left|done].
  - destruct (changeState tid first last old new tm) as [c tm''] eqn:Hc.
    intros ?; simplify_eq. destruct (IH _ eq_refl) as (t & Ht & He & Hs).
    exists t. split; [by right|done].
Qed.


Lemma existsb_overlaps_changeState tid first last old new tm a b c :
  ∀ changed tm',
  changeState tid first last old new tm = (changed, tm') →
  existsb (overlaps a b c) tm' = existsb (overlaps a b c) tm.
Proof.
  induction tm as [|x tm IH]; intros changed tm'; simpl.
  - by intros ?; simplify_eq.
  - destruct (isTablet tid first last x) eqn:Hx.
    + apply isTablet_true in Hx as (? & ? & ?).
      destruct (decide (state x = old)); intros ?; simplify_eq; [|done].
      simpl. f_equal.
    + destruct (changeState tid first last old new tm) as [c' tm''] eqn:Hc.
      intros ?; simplify_eq. simpl. by rewrite (IH _ _ eq_refl).
Qed.

Lemma changeState_wellFormed tid first last old new tm : ∀ changed tm',
  wellFormed tm →
  changeState tid first last old new tm = (changed, tm') →
  wellFormed tm'.
Proof.
  induction tm as [|x tm IH]; intros changed tm'; simpl.
  - by intros _ ?; simplify_eq.
  - intros (Hx & Hno & Hwf).
    destruct (isTablet tid first last x) eqn:Hxe.
    + apply isTablet_true in Hxe as (? & ? & ?).
      destruct (decide (state x = old)); intros ?; simplify_eq; [|done].
      simpl. done.
    + destruct (changeState tid first last old new tm) as [c tm''] eqn:Hc.
      intros ?; simplify_eq. simpl. split; [done|]. split; [|by eapply IH].
      by rewrite (existsb_overlaps_changeState _ _ _ _ _ _ _ _ _ _ _ Hc).
Qed.

(** The tablet of the range, found in state [old], is the one changed. *)
Lemma changeState_found tid first last old new tm t :
  wellFormed tm → t ∈ tm → isTablet tid first last t = true →
  state t = old →
  ∃ tm', changeState tid first last old new tm = (true, tm') ∧
         mkTablet tid first last new ∈ tm' ∧
         length tm' = length tm ∧
         ∀ t', t' ∈ tm → isTablet tid first last t' = false → t' ∈ tm'.
Proof.
  induction tm as [|x tm IH]; simpl; [by intros _ ?%elem_of_nil|].
  intros (Hx & Hno & Hwf) Ht Hex Hst.
  destruct (isTablet tid first last x) eqn:Hxe.
  - assert (x = t) as ->.
    { pose proof (getTablet_wellFormed tid first last (x :: tm) t) as Hg.
      unfold getTablet in Hg. simpl in Hg. rewrite Hxe in Hg.
      by injection (Hg (conj Hx (conj Hno Hwf)) Ht Hex). }
    rewrite decide_True by done. eexists. split; [done|].
    split; [left|]. split; [done|].
    intros t' [->|Ht']%elem_of_cons Hne; [congruence|by right].
  - apply elem_of_cons in Ht as [->|Ht]; [congruence|].
    destruct (IH Hwf Ht Hex Hst) as (tm' & -> & Hin & Hlen & Hoth).
    eexists. split; [done|]. split; [by right|]. split; [simpl; lia|].
    intros t' [->|Ht']%elem_of_cons Hne; [left|right; eauto].
Qed.

Lemma wellFormed_snoc tm t :
  wellFormed tm → startKeyHash t ≤ endKeyHash t →
  existsb (overlaps (tableId t) (startKeyHash t) (endKeyHash t)) tm = false →
  wellFormed (tm ++ [t]).
Proof.
  induction tm as [|x tm IH]; simpl.
  - intros _ Ht _. done.
  - intros (Hx & Hno & Hwf) Ht Hnew.
    apply orb_false_iff in Hnew as [Hxt Hnew].
    split; [done|]. split; [|by apply IH].
    rewrite existsb_app, Hno. simpl. rewrite orb_false_r.
    unfold overlaps in *. apply bool_decide_eq_false.
    apply bool_decide_eq_false in Hxt. lia.
Qed.

Lemma addTablet_wellFormed tid first last st tm tm' :
  wellFormed tm → first ≤ last →
  addTablet tid first last st tm = (true, tm') →
  wellFormed tm' ∧ mkTablet tid first last st ∈ tm'.
Proof.
  unfold addTablet. intros Hwf Hle.
  destruct (existsb _ tm) eqn:He; intros ?; simplify_eq.
  split; [by apply wellFormed_snoc|].
  apply elem_of_app. right. left.
Qed.

End TabletLemmas.

Section RecoverRpcLemmas.
Import TabletManager RecoverRpc.

(** The compare-exchange loop ends, whatever the other threads do, and
    leaves [clusterTime] at least at the timestamp and not below where it
    was. *)
Lemma clusterTimeLoop_done fuel others cur ts value :
  ts ≤ cur → clusterTimeLoop fuel others cur ts value = Some value.
Proof.
  intros Hge. destruct fuel; simpl; rewrite decide_False by lia; done.
Qed.

Lemma clusterTimeLoop_step fuel cur ts value :
  cur < ts →
  clusterTimeLoop (S fuel) [] cur ts value =
  clusterTimeLoop fuel [] value ts
    (if decide (value = cur) then ts else value).
Proof. intros Hlt. simpl. by rewrite decide_True by lia. Qed.

Lemma clusterTimeLoop_quiet fuel cur ts value :
  cur ≤ value → (3 ≤ fuel)%nat →
  ∃ v, clusterTimeLoop fuel [] cur ts value = Some v ∧ ts ≤ v ∧ value ≤ v.
Proof.
  intros Hle Hfuel.
  destruct fuel as [|[|[|fuel]]]; [lia..|].
  destruct (decide (cur < ts)) as [Hlt|Hge];
    [|exists value; rewrite clusterTimeLoop_done by lia; split; [done|lia]].
  rewrite clusterTimeLoop_step by done.
  destruct (decide (value = cur)) as [->|Hne].
  - rewrite clusterTimeLoop_step by done.
    rewrite clusterTimeLoop_done by lia.
    exists ts. split; [by destruct (decide _)|lia].
  - destruct (decide (value < ts)) as [Hlt'|Hge'];
      [|exists value; rewrite clusterTimeLoop_done by lia; split; [done|lia]].
    rewrite clusterTimeLoop_step by done.
    rewrite (decide_True (P := value = value)) by done.
    rewrite clusterTimeLoop_step by done.
    rewrite clusterTimeLoop_done by lia.
    exists ts. split; [by destruct (decide _)|lia].
Qed.

Lemma clusterTimeLoop_spec others : ∀ fuel cur ts value,
  cur ≤ value → (length others + 3 ≤ fuel)%nat →
  ∃ v, clusterTimeLoop fuel others cur ts value = Some v ∧
       ts ≤ v ∧ value ≤ v.
Proof.
  induction others as [|o others IH]; intros fuel cur ts value Hle Hfuel.
  - by apply clusterTimeLoop_quiet.
  - destruct fuel as [|fuel]; [simpl in Hfuel; lia|].
    simpl. destruct (decide (cur < ts)) as [Hlt|Hge].
    + unfold compareExchange.
      destruct (decide (value `max` o = cur)) as [He|Hne].
      * destruct (IH fuel (value `max` o) ts ts) as (v & Hv & H1 & H2);
          [lia|simpl in Hfuel; lia|].
        exists v. split; [done|lia].
      * destruct (IH fuel (value `max` o) ts (value `max` o))
          as (v & Hv & H1 & H2); [lia|simpl in Hfuel; lia|].
        exists v. split; [done|lia].
    + exists value. split; [done|lia].
Qed.

Lemma updateClusterTime_spec others ts value :
  ∃ v, updateClusterTime others ts value = Some v ∧ ts ≤ v ∧ value ≤ v.
Proof. apply clusterTimeLoop_spec; lia. Qed.

Lemma updateClusterTime_alone ts value :
  updateClusterTime [] ts value = Some (Z.max value ts).
Proof.
  unfold updateClusterTime.
  change (length (@nil Z) + 3)%nat with 3%nat.
  destruct (decide (value < ts)) as [Hlt|Hge];
    [|rewrite clusterTimeLoop_done by lia; f_equal; lia].
  rewrite clusterTimeLoop_step by done.
  rewrite (decide_True (P := value = value)) by done.
  rewrite clusterTimeLoop_step by done.
  rewrite clusterTimeLoop_done by lia.
  destruct (decide _); f_equal; lia.
Qed.

(** The three loops over the tablets of the partition. *)
Lemma installTablets_spec ts : ∀ m b m',
  installTablets ts m = (b, m') →
  clusterTime m' = clusterTime m ∧
  (∃ new, trace m' = trace m ++ new ∧
          Forall (λ e, isTabletNormal e = false) new) ∧
  (∀ t, t ∈ tabletManager m' → state t = NORMAL → t ∈ tabletManager m).
Proof.
  induction ts as [|[[tid first] last] ts IH]; intros m b m'; simpl.
  - intros ?; simplify_eq. split; [done|]. split; [|done].
    exists []. by rewrite app_nil_r.
  - destruct (addTablet tid first last RECOVERING (tabletManager m))
      as [added tm] eqn:Hadd.
    destruct added.
    + intros H. destruct (IH _ _ _ H) as (Hct & (new & Htr & Hnew) & Htm).
      simpl in *. split; [done|]. split.
      * exists (TabletAdded tid first last :: new).
        rewrite Htr, <- app_assoc. split; [done|]. by constructor.
      * intros t Ht Hn.
        destruct (addTablet_elem_of _ _ _ _ _ _ _ _ Hadd (Htm t Ht Hn))
          as [?|[_ ->]]; done.
    + intros ?; simplify_eq. split; [done|]. split; [|done].
      exists []. by rewrite app_nil_r.
Qed.

Lemma markTabletsNormal_spec ts : ∀ m b m',
  markTabletsNormal ts m = (b, m') →
  clusterTime m' = clusterTime m ∧
  (∃ new, trace m' = trace m ++ new ∧
     ∀ t, t ∈ tabletManager m' → state t = NORMAL →
          t ∈ tabletManager m ∨
          TabletNormal (tableId t) (startKeyHash t) (endKeyHash t) ∈ new).
Proof.
  induction ts as [|[[tid first] last] ts IH]; intros m b m'; simpl.
  - intros ?; simplify_eq. split; [done|].
    exists []. rewrite app_nil_r. split; [done|]. by left.
  - destruct (changeState tid first last RECOVERING NORMAL (tabletManager m))
      as [changed tm] eqn:Hch.
    destruct changed.
    + intros H. destruct (IH _ _ _ H) as (Hct & new & Htr & Htm).
      simpl in *. split; [done|].
      exists (TabletNormal tid first last :: new).
      rewrite Htr, <- app_assoc. split; [done|].
      intros t Ht Hn. destruct (Htm t Ht Hn) as [Hin|Hev].
      * destruct (changeState_elem_of _ _ _ _ _ _ _ _ _ Hch Hin)
          as [?|[_ ->]]; [by left|]. right. left.
      * right. by right.
    + intros ?; simplify_eq. split; [done|].
      exists []. rewrite app_nil_r. split; [done|]. by left.
Qed.

Lemma deleteTablets_spec ts : ∀ m,
  clusterTime (deleteTablets ts m) = clusterTime m ∧
  (∃ new, trace (deleteTablets ts m) = trace m ++ new ∧
          Forall (λ e, isTabletNormal e = false) new) ∧
  (∀ t, t ∈ tabletManager (deleteTablets ts m) → t ∈ tabletManager m).
Proof.
  induction ts as [|[[tid first] last] ts IH]; intros m; simpl.
  - split; [done|]. split; [|done]. exists []. by rewrite app_nil_r.
  - destruct (IH (emit (TabletDeleted tid first last)
                    (mkMaster (clusterTime m)
                       (deleteTablet tid first last (tabletManager m))
                       (trace m)))) as (Hct & (new & Htr & Hnew) & Htm).
    simpl in *. split; [done|]. split.
    + exists (TabletDeleted tid first last :: new).
      rewrite Htr, <- app_assoc. split; [done|]. by constructor.
    + intros t Ht. eapply deleteTablet_elem_of. eauto.
Qed.

(** Traces and the gate. *)
Lemma gated_quiet ts old tr :
  Forall (λ e, isTabletNormal e = false) tr → gated ts old tr.
Proof.
  intros Hall i tid first last Hi.
  eapply Forall_lookup_1 in Hall; [|done]. done.
Qed.

Lemma gated_after ts old pre v post :
  Forall (λ e, isTabletNormal e = false) pre →
  ts ≤ v → old ≤ v →
  gated ts old (pre ++ ClusterTimeUpdated v :: post).
Proof.
  intros Hpre Hts Hold i tid first last Hi.
  exists (length pre), v.
  split; [|split; [by rewrite list_lookup_middle|done]].
  destruct (decide (i < length pre)%nat) as [Hlt|Hge].
  - rewrite lookup_app_l in Hi by done.
    eapply Forall_lookup_1 in Hpre; [|done]. done.
  - destruct (decide (i = length pre)) as [->|Hne]; [|lia].
    rewrite list_lookup_middle in Hi by done. done.
Qed.

Lemma prepare_spec req env m o m' :
  prepare req env m = (o, m') →
  clusterTime m ≤ clusterTime m' ∧
  (∀ t, t ∈ tabletManager m' → state t = NORMAL → t ∈ tabletManager m) ∧
  ∃ pre, trace m' = trace m ++ pre ∧
    match o with
    | Some r => r ≠ Returned ∧ Forall (λ e, isTabletNormal e = false) pre
    | None =>
        ∃ pre0, pre = pre0 ++ [ClusterTimeUpdated (clusterTime m');
                               HeadRolledOver] ∧
                Forall (λ e, isTabletNormal e = false) pre0 ∧
                leaseTimestamp env ≤ clusterTime m'
    end.
Proof.
  unfold prepare. destruct (decide (partitionId req = 4294967295)).
  { intros ?; simplify_eq. split; [lia|]. split; [done|].
    exists []. rewrite app_nil_r. by repeat split. }
  destruct (installTablets _ _) as [b m2] eqn:Hinst.
  apply installTablets_spec in Hinst as (Hct & (adds & Htr & Hadds) & Htm).
  simpl in Hct, Htr, Htm. rewrite <- !app_assoc in Htr. simpl in Htr.
  destruct b.
  - destruct (updateClusterTime_spec (others env) (leaseTimestamp env)
                (clusterTime m2)) as (v & -> & Hts & Hold).
    intros ?; simplify_eq. simpl. split; [lia|]. split; [done|].
    eexists. split.
    + rewrite Htr, <- !app_assoc. reflexivity.
    + exists (SendReply :: GetLeaseInfoStarted :: adds).
      split; [done|].
      split; [by repeat constructor|done].
  - intros ?; simplify_eq. split; [lia|]. split; [done|].
    eexists. split; [done|]. split; [done|]. by repeat constructor.
Qed.

Lemma complete_spec req env successful m3 r m' :
  complete req env successful m3 = (r, m') →
  clusterTime m' = clusterTime m3 ∧
  ∃ post, trace m' = trace m3 ++ post ∧
    ∀ t, t ∈ tabletManager m' → state t = NORMAL →
         t ∈ tabletManager m3 ∨
         TabletNormal (tableId t) (startKeyHash t) (endKeyHash t) ∈ post.
Proof.
  unfold complete. destruct (cancelRecovery env successful).
  - intros ?; simplify_eq.
    destruct (deleteTablets_spec (tablets req)
                (emit (RecoveryMasterFinished successful)
                   (emit (PartitionRecovered successful) m3)))
      as (Hct & (new & Htr & _) & Htm).
    simpl in *. split; [done|]. eexists. split.
    + rewrite Htr, <- !app_assoc. reflexivity.
    + intros t Ht _. left. by apply Htm.
  - destruct (markTabletsNormal _ _) as [b m5] eqn:Hmark.
    apply markTabletsNormal_spec in Hmark as (Hct & new & Htr & Htm).
    simpl in Hct, Htr, Htm.
    assert (Hnew : ∀ t, t ∈ tabletManager m5 → state t = NORMAL →
              t ∈ tabletManager m3 ∨
              TabletNormal (tableId t) (startKeyHash t) (endKeyHash t)
                ∈ PartitionRecovered successful
                    :: RecoveryMasterFinished successful
                    :: LocksRegrabbed :: new).
    { intros t Ht Hn. destruct (Htm t Ht Hn) as [?|?]; [by left|].
      right. by do 3 right. }
    destruct b; [destruct (indexletsChanged env)|]; intros ?; simplify_eq;
      simpl; (split; [done|]).
    + exists (PartitionRecovered successful
                :: RecoveryMasterFinished successful
                :: LocksRegrabbed :: new ++ [IndexletsNormal]).
      split; [rewrite Htr, <- !app_assoc; reflexivity|].
      intros t Ht Hn. destruct (Hnew t Ht Hn) as [?|Hin]; [by left|].
      right. rewrite !elem_of_cons, elem_of_app.
      rewrite !elem_of_cons in Hin. naive_solver.
    + eexists. split; [rewrite Htr, <- !app_assoc; reflexivity|done].
    + eexists. split; [rewrite Htr, <- !app_assoc; reflexivity|done].
Qed.

End RecoverRpcLemmas.

(* ================================================================== *)
(** * Proofs: tablet migration *)
(* ================================================================== *)

Section MigrationLemmas.
Import TabletManager Migration.

Lemma sentSegments_snoc rs r :
  sentSegments (rs ++ [r]) =
  sentSegments rs ++ match r with
                     | ReceiveMigrationData _ seg _ _ => [seg]
                     | _ => []
                     end.
Proof.
  unfold sentSegments. rewrite omap_app. f_equal. by destruct r.
Qed.

(** The test of [migrateSingleLogEntry] is the filter of the
    specification. *)
Lemma migrateSingleLogEntry_filter capacity ht req e tr :
  migrateSingleLogEntry capacity ht req e tr =
  if shouldMigrate ht req e then appendToTransfer capacity req e tr
  else (0, tr).
Proof.
  unfold migrateSingleLogEntry, shouldMigrate, keyPointsAtReference.
  destruct (decide (entryType e ≠ LOG_ENTRY_TYPE_OBJ ∧ _)) as [Ht|Ht].
  { rewrite bool_decide_eq_false_2; [done|]. intros ([?|[?|?]] & _); tauto. }
  destruct (decide (entryTableId e ≠ tableId req)) as [Hid|Hid].
  { rewrite bool_decide_eq_false_2; [done|]. tauto. }
  apply dec_stable in Hid.
  destruct (decide (entryKeyHash e < firstKeyHash req ∨ _)) as [Hh|Hh].
  { rewrite bool_decide_eq_false_2; [done|]. lia. }
  assert (Htype : entryType e = LOG_ENTRY_TYPE_OBJ ∨
                  entryType e = LOG_ENTRY_TYPE_OBJTOMB ∨
                  entryType e = LOG_ENTRY_TYPE_TXDECISION).
  { destruct (entryType e); auto. exfalso. apply Ht. done. }
  destruct (decide (entryType e = LOG_ENTRY_TYPE_OBJ)) as [Ho|Ho].
  - destruct (bool_decide (ht !! _ = _)) eqn:Hl.
    + apply bool_decide_eq_true in Hl.
      rewrite bool_decide_eq_true_2; [done|].
      split; [done|]. split; [done|]. split; [lia|done].
    + apply bool_decide_eq_false in Hl.
      rewrite bool_decide_eq_false_2; [done|]. tauto.
  - rewrite bool_decide_eq_true_2; [done|].
    split; [done|]. split; [done|]. split; [lia|done].
Qed.

Lemma list_snoc_ne {A} (l : list A) x : l ++ [x] ≠ l.
Proof.
  intros H. apply (f_equal length) in H. rewrite length_app in H.
  simpl in H. lia.
Qed.

(** What [appendToTransfer] does to the entries streamed. *)
Lemma appendToTransfer_streamed capacity req e tr :
  let fits := segmentBytes (default [] (transferSeg tr)) + entrySize e
                ≤ capacity ∨ entrySize e ≤ capacity in
  (fits →
   fst (appendToTransfer capacity req e tr) = 0 ∧
   status (snd (appendToTransfer capacity req e tr)) = status tr ∧
   streamed (snd (appendToTransfer capacity req e tr)) = streamed tr ++ [e]) ∧
  (¬ fits →
   fst (appendToTransfer capacity req e tr) = 1 ∧
   status (snd (appendToTransfer capacity req e tr)) = STATUS_INTERNAL_ERROR ∧
   streamed (snd (appendToTransfer capacity req e tr)) = streamed tr).
Proof.
  unfold appendToTransfer, segmentAppend, streamed. simpl.
  destruct (decide (segmentBytes (default [] (transferSeg tr)) + entrySize e
                    ≤ capacity)) as [H1|H1]; simpl.
  - split; [|tauto]. intros _. by rewrite app_assoc.
  - destruct (decide (0 + entrySize e ≤ capacity)) as [H2|H2]; simpl;
      rewrite sentSegments_snoc, concat_app; simpl; rewrite !app_nil_r.
    + split; [|intros Hn; exfalso; apply Hn; lia]. intros _.
      by rewrite <- !app_assoc.
    + split; [intros [?|?]; lia|]. intros _. done.
Qed.

(** A loop over entries that all fit streams the entries the filter
    keeps, in the order of the log. *)
Lemma migrateEntries_streamed capacity ht req log : ∀ tr,
  (∀ e, e ∈ log → shouldMigrate ht req e = true → entrySize e ≤ capacity) →
  fst (migrateEntries capacity ht req log tr) = 0 ∧
  status (snd (migrateEntries capacity ht req log tr)) = status tr ∧
  streamed (snd (migrateEntries capacity ht req log tr))
    = streamed tr ++ filter (λ e, shouldMigrate ht req e = true) log.
Proof.
  induction log as [|e log IH]; intros tr Hfit; simpl.
  - by rewrite app_nil_r.
  - rewrite migrateSingleLogEntry_filter.
    destruct (shouldMigrate ht req e) eqn:Hw.
    + destruct (proj1 (appendToTransfer_streamed capacity req e tr))
        as (H0 & Hst & Hstr).
      { right. apply Hfit; [left|done]. }
      destruct (appendToTransfer capacity req e tr) as [err tr'].
      simpl in *. subst err. rewrite decide_True by done.
      destruct (IH tr') as (IH0 & IHst & IHstr).
      { intros x Hx. apply Hfit. by right. }
      rewrite IH0, IHst, IHstr, Hstr, Hst.
      rewrite filter_cons_True by done. by rewrite <- app_assoc.
    + rewrite decide_True by done.
      destruct (IH tr) as (IH0 & IHst & IHstr).
      { intros x Hx. apply Hfit. by right. }
      rewrite IH0, IHst, IHstr.
      rewrite filter_cons_False; [done|congruence].
Qed.

(** What [migrateTablet] sends once the request is accepted and the
    entries fit. *)
Lemma migrateTablet_sends capacity req env log1 log2 m t :
  getTablet (tableId req) (firstKeyHash req) (lastKeyHash req)
    (tabletManager m) = Some t →
  newOwnerMasterId req ≠ serverId m →
  prepStatus env = STATUS_OK →
  (∀ e, e ∈ log1 ++ log2 → shouldMigrate (hashTable m) req e = true →
        entrySize e ≤ capacity) →
  concat (sentSegments (migrateTablet capacity req env log1 log2 m).1.2)
  = filter (λ e, shouldMigrate (hashTable m) req e = true) (log1 ++ log2).
Proof.
  intros Hg Hown Hprep Hfit. unfold migrateTablet. rewrite Hg.
  rewrite decide_False by done.
  rewrite decide_False by (rewrite Hprep; intros H; by apply H).
  set (tr0 := startTransfer _).
  destruct (migrateEntries_streamed capacity (hashTable m) req log1 tr0)
    as (H0 & Hst & Hstr).
  { intros e He. apply Hfit, elem_of_app. by left. }
  destruct (migrateEntries capacity (hashTable m) req log1 tr0)
    as [error1 tr1]. simpl in H0, Hst, Hstr. subst error1.
  rewrite decide_False by (intros H; by apply H).
  destruct (migrateEntries_streamed capacity (hashTable m) req log2 tr1)
    as (H0' & Hst' & Hstr').
  { intros e He. apply Hfit, elem_of_app. by right. }
  destruct (migrateEntries capacity (hashTable m) req log2 tr1)
    as [error2 tr2]. simpl in H0', Hst', Hstr'. subst error2.
  rewrite decide_False by (intros H; by apply H).
  unfold streamed in Hstr, Hstr'. rewrite Hstr in Hstr'.
  simpl in Hstr'. rewrite <- filter_app in Hstr'.
  rewrite <- Hstr'.
  destruct (decide (reassignStatus env ≠ STATUS_OK)); simpl;
    rewrite sentSegments_snoc, app_nil_r;
    destruct (transferSeg tr2) as [seg|]; simpl;
    rewrite ?sentSegments_snoc, ?concat_app; simpl;
    by rewrite ?app_nil_r.
Qed.

(** ** Replay on the destination *)

Lemma replayEntry_other objects e k :
  keyOf e ≠ k → replayEntry objects e !! k = objects !! k.
Proof.
  intros Hne. unfold replayEntry, keyOf in *.
  destruct (entryType e); try done;
    destruct (objects !! (entryTableId e, entryKey e)) as [cur|];
    try destruct (decide _); try done; by rewrite lookup_insert_ne.
Qed.

Lemma replayEntries_cons e es objects :
  replayEntries (e :: es) objects = replayEntries es (replayEntry objects e).
Proof. done. Qed.

Lemma replayEntries_app es1 es2 objects :
  replayEntries (es1 ++ es2) objects
  = replayEntries es2 (replayEntries es1 objects).
Proof. unfold replayEntries. apply foldl_app. Qed.

(** An object with a version above that of every tombstone for its key
    that follows is kept. *)
Lemma replayEntries_keeps es : ∀ objects k o,
  objects !! k = Some o →
  (∀ e, e ∈ es → keyOf e = k →
        entryType e ≠ LOG_ENTRY_TYPE_OBJ ∧
        (entryType e = LOG_ENTRY_TYPE_OBJTOMB →
         entryVersion e < entryVersion o)) →
  replayEntries es objects !! k = Some o.
Proof.
  induction es as [|e es IH]; intros objects k o Hk Hes; [done|].
  rewrite replayEntries_cons. apply IH.
  2:{ intros x Hx. apply Hes. by right. }
  destruct (decide (keyOf e = k)) as [He|Hne].
  - destruct (Hes e ltac:(left) He) as [Ht Hv].
    unfold replayEntry. unfold keyOf in He. rewrite He, Hk.
    destruct (entryType e) eqn:Hty; try done.
    rewrite decide_False; [done|]. specialize (Hv eq_refl). lia.
  - by rewrite replayEntry_other.
Qed.

(** Tombstones below a version leave the key without anything at or
    above that version. *)
Lemma replayEntries_below es : ∀ objects k v,
  (∀ e, e ∈ es → keyOf e = k →
        entryType e ≠ LOG_ENTRY_TYPE_OBJ ∧
        (entryType e = LOG_ENTRY_TYPE_OBJTOMB → entryVersion e < v)) →
  (∀ cur, objects !! k = Some cur → entryVersion cur < v) →
  ∀ cur, replayEntries es objects !! k = Some cur → entryVersion cur < v.
Proof.
  induction es as [|e es IH]; intros objects k v Hes Hk; [done|].
  rewrite replayEntries_cons. apply IH.
  { intros x Hx. apply Hes. by right. }
  intros cur. destruct (decide (keyOf e = k)) as [He|Hne].
  - destruct (Hes e ltac:(left) He) as [Ht Hv].
    unfold replayEntry. unfold keyOf in He. rewrite He.
    destruct (entryType e) eqn:Hty; try done; try apply Hk.
    destruct (objects !! k) as [c|] eqn:Hc.
    + destruct (decide (entryVersion c ≤ entryVersion e)).
      * rewrite lookup_insert_eq. intros ?; simplify_eq. auto.
      * rewrite Hc. intros ?; simplify_eq. auto.
    + rewrite lookup_insert_eq. intros ?; simplify_eq. auto.
  - rewrite replayEntry_other by done. apply Hk.
Qed.

Lemma replayEntry_object objects o :
  entryType o = LOG_ENTRY_TYPE_OBJ →
  (∀ cur, objects !! keyOf o = Some cur → entryVersion cur < entryVersion o) →
  replayEntry objects o !! keyOf o = Some o.
Proof.
  intros Ht Hcur. unfold replayEntry. rewrite Ht. fold (keyOf o).
  destruct (objects !! keyOf o) as [cur|] eqn:Hc.
  - rewrite decide_True by auto. by rewrite lookup_insert_eq.
  - by rewrite lookup_insert_eq.
Qed.

(** What is kept for a key came with one of the entries. *)
Lemma replayEntries_elem_of es : ∀ objects k x,
  replayEntries es objects !! k = Some x →
  objects !! k = Some x ∨ (x ∈ es ∧ keyOf x = k).
Proof.
  induction es as [|e es IH]; intros objects k x Hx; [by left|].
  rewrite replayEntries_cons in Hx.
  destruct (IH _ _ _ Hx) as [Hin|[Hin Hk]]; [|right; split; [by right|done]].
  destruct (decide (keyOf e = k)) as [He|Hne].
  - unfold replayEntry in Hin. unfold keyOf in He. rewrite He in Hin.
    assert (Hins : <[k:=e]> objects !! k = Some x →
                   objects !! k = Some x ∨ x ∈ e :: es ∧ keyOf x = k).
    { rewrite lookup_insert_eq. intros ?; simplify_eq.
      right. split; [left|done]. }
    destruct (entryType e); auto;
      destruct (objects !! k) as [c|] eqn:Hc; auto;
      destruct (decide _); auto; left; congruence.
  - rewrite replayEntry_other in Hin by done. by left.
Qed.

Lemma NoDup_map_inj {A B} (f : A → B) (l : list A) x y :
  NoDup (map f l) → x ∈ l → y ∈ l → f x = f y → x = y.
Proof.
  induction l as [|a l IH]; simpl; [by intros _ ?%elem_of_nil|].
  intros [Ha Hnd]%NoDup_cons [->|Hx]%elem_of_cons [->|Hy]%elem_of_cons Hf;
    auto.
  - exfalso. apply Ha. rewrite Hf. apply list_elem_of_In, in_map.
    by apply list_elem_of_In.
  - exfalso. apply Ha. rewrite <- Hf. apply list_elem_of_In, in_map.
    by apply list_elem_of_In.
Qed.

(** Replaying what the filter keeps of a log leaves, for every key, the
    live object and nothing else. *)
Lemma replay_filtered ht req log k o :
  NoDup (map entryReference log) →
  (∀ t x, t ∈ log → x ∈ log →
     entryType t = LOG_ENTRY_TYPE_OBJTOMB → entryType x = LOG_ENTRY_TYPE_OBJ →
     keyOf t = keyOf x → ht !! keyOf x = Some (entryReference x) →
     entryVersion t < entryVersion x) →
  readObject (replayEntries
                (filter (λ e, shouldMigrate ht req e = true) log) ∅) k
    = Some o ↔
  o ∈ log ∧ entryType o = LOG_ENTRY_TYPE_OBJ ∧ keyOf o = k ∧
  shouldMigrate ht req o = true.
Proof.
  intros Hnd Hver.
  set (L := filter (λ e, shouldMigrate ht req e = true) log).
  assert (HL : ∀ e, e ∈ L ↔ e ∈ log ∧ shouldMigrate ht req e = true).
  { intros e. unfold L. rewrite list_elem_of_filter. tauto. }
  assert (Hlive : ∀ e, e ∈ L → entryType e = LOG_ENTRY_TYPE_OBJ →
            ht !! keyOf e = Some (entryReference e)).
  { intros e [_ He]%HL Ht. unfold shouldMigrate in He.
    apply bool_decide_eq_true in He. unfold keyOf. tauto. }
  split.
  - unfold readObject.
    destruct (replayEntries L ∅ !! k) as [x|] eqn:Hx; [|done].
    destruct (decide (entryType x = LOG_ENTRY_TYPE_OBJ)); [|done].
    intros ?; simplify_eq.
    apply replayEntries_elem_of in Hx as [Hx|[Hin Hk]]; [done|].
    apply HL in Hin as [? ?]. done.
  - intros (Hin & Ht & Hk & Hw).
    assert (HoL : o ∈ L) by (by apply HL).
    apply list_elem_of_split in HoL as (L1 & L2 & HLeq).
    assert (Hothers : ∀ e, e ∈ L1 ++ L2 → keyOf e = k →
              entryType e ≠ LOG_ENTRY_TYPE_OBJ ∧
              (entryType e = LOG_ENTRY_TYPE_OBJTOMB →
               entryVersion e < entryVersion o)).
    { intros e He Hek.
      assert (HeL : e ∈ L).
      { rewrite HLeq. apply elem_of_app in He as [?|?];
          apply elem_of_app; [by left|right; by right]. }
      pose proof (proj1 (HL e) HeL) as [Helog _].
      split.
      - intros Hobj.
        assert (e = o).
        { apply (NoDup_map_inj entryReference log); try done.
          pose proof (Hlive e HeL Hobj) as H1.
          pose proof (Hlive o ltac:(by apply HL) Ht) as H2.
          rewrite Hek, <- Hk in H1. congruence. }
        subst e.
        assert (HndL : NoDup L).
        { unfold L. apply NoDup_filter.
          eapply NoDup_fmap_1. exact Hnd. }
        rewrite HLeq in HndL. apply NoDup_app in HndL as (_ & Hd1 & Hd2).
        apply NoDup_cons in Hd2 as [Hd2 _].
        apply elem_of_app in He as [He|He]; [|done].
        apply (Hd1 o He). left.
      - intros Htomb. apply (Hver e o); try done; [congruence|].
        apply Hlive; [by apply HL|done]. }
    unfold readObject. rewrite HLeq.
    rewrite replayEntries_app, replayEntries_cons.
    erewrite replayEntries_keeps.
    + by rewrite decide_True.
    + rewrite <- Hk. apply replayEntry_object; [done|].
      apply replayEntries_below.
      * intros e He Hek. apply Hothers; [|congruence].
        apply elem_of_app. by left.
      * intros cur Hc. by rewrite lookup_empty in Hc.
    + intros e He Hek. apply Hothers; [|done]. apply elem_of_app. by right.
Qed.

End MigrationLemmas.

(* ================================================================== *)
(** * Proofs: recovery orchestration *)
(* ================================================================== *)

Section RecoveryLemmas.
Import Recovery.

Lemma mapLess_true x y : mapLess x y = true → mapLe x y.
Proof.
  unfold mapLess, mapLe. intros H.
  apply orb_true_iff in H as [H|H]; [left; lia|].
  apply andb_true_iff in H as [H1 H2]. right. lia.
Qed.

Lemma mapLess_false x y : mapLess x y = false → mapLe y x.
Proof.
  unfold mapLess, mapLe. intros H.
  apply orb_false_iff in H as [H1 H2].
  apply andb_false_iff in H2 as [H2|H2]; lia.
Qed.

Lemma mapLe_trans x y z : mapLe x y → mapLe y z → mapLe x z.
Proof. unfold mapLe. lia. Qed.

Lemma Forall_mapInsert (P : Z * Entry → Prop) x m :
  P x → Forall P m → Forall P (mapInsert x m).
Proof.
  intros Hx. induction 1 as [|y m Hy Hm IH]; simpl.
  - by constructor.
  - destruct (mapLess x y); repeat constructor; done.
Qed.

Lemma length_mapInsert x m : length (mapInsert x m) = S (length m).
Proof.
  induction m as [|y m IH]; simpl; [done|].
  destruct (mapLess x y); simpl; lia.
Qed.

Lemma mapInsert_sorted x m :
  StronglySorted mapLe m → StronglySorted mapLe (mapInsert x m).
Proof.
  induction 1 as [|y m Hm IH Hy]; simpl.
  - by repeat constructor.
  - destruct (mapLess x y) eqn:Hxy.
    + constructor; [by constructor|].
      apply mapLess_true in Hxy. constructor; [done|].
      eapply Forall_impl; [done|]. intros z Hz. by eapply mapLe_trans.
    + constructor; [done|].
      apply Forall_mapInsert; [by apply mapLess_false|done].
Qed.

Lemma addReply_sorted reply : ∀ m,
  StronglySorted mapLe m → StronglySorted mapLe (addReply m reply).
Proof.
  unfold addReply. induction (reply.2) as [|seg segs IH]; intros m Hm; simpl.
  - done.
  - apply IH. by apply mapInsert_sorted.
Qed.

Lemma length_addReply reply : ∀ m,
  length (addReply m reply) = (length m + length reply.2)%nat.
Proof.
  unfold addReply. induction (reply.2) as [|seg segs IH]; intros m; simpl.
  - lia.
  - rewrite IH, length_mapInsert. lia.
Qed.

Lemma foldl_addReply_sorted replies : ∀ m,
  StronglySorted mapLe m → StronglySorted mapLe (foldl addReply m replies).
Proof.
  induction replies as [|reply replies IH]; intros m Hm; simpl; [done|].
  apply IH. by apply addReply_sorted.
Qed.

(** When the masters run out first, each of them gets a partition, in
    order, and the diagnostic ends the log. *)
Lemma dispatch_short parts : ∀ masters hosts,
  (length masters < length parts)%nat →
  dispatch parts masters hosts =
  zip_with (λ master part,
              TryingPartition (service_locator master) (length part) hosts)
    masters parts ++ [Busted].
Proof.
  induction parts as [|part parts IH]; intros masters hosts Hlen; simpl in *.
  - lia.
  - destruct masters as [|master masters]; simpl in *; [done|].
    rewrite IH by lia. done.
Qed.

Lemma dispatch_enough parts : ∀ masters hosts,
  (length parts ≤ length masters)%nat →
  dispatch parts masters hosts =
  zip_with (λ master part,
              TryingPartition (service_locator master) (length part) hosts)
    masters parts.
Proof.
  induction parts as [|part parts IH]; intros masters hosts Hlen; simpl in *.
  - by destruct masters.
  - destruct masters as [|master masters]; simpl in *; [lia|].
    rewrite IH by lia. done.
Qed.

Lemma dispatch_attempts parts : ∀ masters hosts,
  length (filter (λ l, isTrying l = true) (dispatch parts masters hosts))
  = (length masters `min` length parts)%nat.
Proof.
  induction parts as [|part parts IH]; intros masters hosts; simpl.
  - lia.
  - destruct masters as [|master masters]; simpl; [done|].
    by rewrite IH.
Qed.

End RecoveryLemmas.

(* ================================================================== *)
(** * The properties of partition recovery *)
(* ================================================================== *)

Section PartitionRecovery.
Import MasterService.

Lemma fair_allReady : fair allReady.
Proof. intros n slot. exists n. split; [lia|done]. Qed.

(** C1: once the replay loop of partition recovery is over,
    [detectSegmentRecoveryFailure] raises [SegmentRecoveryFailedException]
    if and only if some segment id of the replica list has no replica in
    state OK; and for every replica list in which each segment id has a
    replica whose RPC and replay do not fail, partition recovery comes to
    an end (under any fair scheduling of the RPCs), does not throw and
    commits. *)
Theorem detect_raises_iff_segment_unrecovered
    (wire : list (Z * Z)) (outcome : nat → RpcResult)
    (ready : nat → nat → bool) :
  (∀ fuel sb,
     eventLoop fuel 0 (buildSegmentIdToBackups (parseReplicas wire) 0 ∅)
       ready outcome (startRecovery (parseReplicas wire)) = Some sb →
     ((∃ F, detectSegmentRecoveryFailure (replicas sb)
            = SegmentRecoveryFailedException F) ↔
      (∃ s, s ∈ map segmentId (parseReplicas wire) ∧
            ∀ r, r ∈ replicas sb → segmentId r = s → state r ≠ OK))) ∧
  (fair ready →
   (∀ s, s ∈ map segmentId (parseReplicas wire) →
         ∃ i r, parseReplicas wire !! i = Some r ∧ segmentId r = s ∧
                outcome i = Replayed) →
   ∃ fuel sb,
     recover fuel ready outcome (parseReplicas wire) = Some (Committed sb)).
Proof.
  pose proof (allNotStarted_parseReplicas wire) as Hall. split.
  - intros fuel sb Hrun.
    destruct (eventLoop_inLoop _ _ Hall _ _ _ _ _ (loop_enter _ _) Hrun)
      as [Hloop H0].
    by apply (detect_iff_unrecovered _ outcome).
  - intros Hfair Hgood.
    destruct (recover_commits _ _ _ Hall Hfair Hgood) as (fuel & sb & H & _).
    eauto.
Qed.

Lemma detect_raises_iff_segment_unrecovered_witness :
  (∃ sb, eventLoop 2 0
           (buildSegmentIdToBackups (parseReplicas [(1, 42); (2, 42)]) 0 ∅)
           allReady corruptFirst
           (startRecovery (parseReplicas [(1, 42); (2, 42)])) = Some sb ∧
         ((∃ F, detectSegmentRecoveryFailure (replicas sb)
                = SegmentRecoveryFailedException F) ↔
          (∃ s, s ∈ map segmentId (parseReplicas [(1, 42); (2, 42)]) ∧
                ∀ r, r ∈ replicas sb → segmentId r = s → state r ≠ OK))) ∧
  (∃ fuel sb, recover fuel allReady corruptFirst
                (parseReplicas [(1, 42); (2, 42)]) = Some (Committed sb)).
Proof.
  split.
  - eexists. split; [vm_compute; reflexivity|].
    apply (proj1 (detect_raises_iff_segment_unrecovered
                    [(1, 42); (2, 42)] corruptFirst allReady) 2%nat).
    vm_compute; reflexivity.
  - apply (proj2 (detect_raises_iff_segment_unrecovered
                    [(1, 42); (2, 42)] corruptFirst allReady)).
    + intros n slot. exists n. split; [lia|reflexivity].
    + intros s Hs. exists 1%nat, (newReplica 2 42).
      split; [reflexivity|]. split; [|reflexivity].
      simpl in Hs. apply elem_of_cons in Hs as [->|Hs]; [reflexivity|].
      apply elem_of_cons in Hs as [->|Hs]; [reflexivity|].
      by apply elem_of_nil in Hs.
Defined.

(** C2 (amended): for a segment with two replicas of which the first
    returns a corrupt segment and the second succeeds, the first replica
    is marked FAILED, nothing being replayed, and the second is requested;
    recovery comes to an end under any fair scheduling and commits, the
    segment is replayed exactly once, and both replicas end in state OK:
    the success of the second marks every replica of the segment OK, the
    first included. *)
Theorem failover_replays_once_all_OK
    (b1 b2 seg : Z) (outcome : nat → RpcResult) (ready : nat → nat → bool) :
  fair ready →
  outcome 0%nat = SegmentIteratorException →
  outcome 1%nat = Replayed →
  (map state
     (replicas
        (completeTask
           (buildSegmentIdToBackups (parseReplicas [(b1, seg); (b2, seg)])
              0 ∅)
           0 0 (outcome 0%nat)
           (startRecovery (parseReplicas [(b1, seg); (b2, seg)]))))
     = [FAILED; WAITING] ∧
   replayed
     (completeTask
        (buildSegmentIdToBackups (parseReplicas [(b1, seg); (b2, seg)]) 0 ∅)
        0 0 (outcome 0%nat)
        (startRecovery (parseReplicas [(b1, seg); (b2, seg)])))
     = []) ∧
  ∃ fuel sb,
    recover fuel ready outcome (parseReplicas [(b1, seg); (b2, seg)])
      = Some (Committed sb) ∧
    replayed sb = [seg] ∧
    map state (replicas sb) = [OK; OK].
Proof.
  intros Hfair H0 H1. split.
  { rewrite H0. unfold startRecovery, parseReplicas. simpl.
    rewrite decide_True by set_solver. simpl.
    unfold completeTask. simpl. unfold refillTask. simpl.
    rewrite decide_False by set_solver. done. }
  set (rs := parseReplicas [(b1, seg); (b2, seg)]).
  assert (Hgood : ∀ s, s ∈ map segmentId rs →
            ∃ i r, rs !! i = Some r ∧ segmentId r = s ∧ outcome i = Replayed).
  { intros s Hs. exists 1%nat, (newReplica b2 seg).
    split; [done|]. split; [|done].
    simpl in Hs. apply elem_of_cons in Hs as [->|Hs]; [done|].
    apply elem_of_cons in Hs as [->|Hs]; [done|].
    by apply elem_of_nil in Hs. }
  destruct (recover_commits rs outcome ready
              (allNotStarted_parseReplicas _) Hfair Hgood)
    as (fuel & sb & Hrun & Hinv & Hok).
  exists fuel, sb. split; [done|].
  pose proof (inv_replica _ _ _ (inv_core _ _ _ Hinv)) as HR.
  pose proof (inv_segs _ _ _ HR) as Hsegs. simpl in Hsegs.
  destruct (replicas sb) as [|x0 [|x1 [|x2 l]]] eqn:Hrs; simplify_eq/=.
  split.
  - apply NoDup_only; [apply HR|].
    intros s. rewrite (inv_replayed _ _ _ HR), Hrs. split.
    + intros (i & r & Hi & Hs & _).
      destruct i as [|[|i]]; simplify_eq/=; congruence.
    + intros ->. exists 0%nat, x0. split; [done|]. split; [done|].
      apply Hok. left.
  - rewrite (Hok x0), (Hok x1); [done|right; left|left].
Qed.

Lemma failover_replays_once_all_OK_witness :
  ∃ fuel sb,
    recover fuel allReady corruptFirst (parseReplicas [(1, 42); (2, 42)])
      = Some (Committed sb) ∧
    replayed sb = [42] ∧
    map state (replicas sb) = [OK; OK].
Proof.
  destruct (failover_replays_once_all_OK 1 2 42 corruptFirst allReady)
    as [_ H].
  - intros n slot. exists n. split; [lia|reflexivity].
  - reflexivity.
  - reflexivity.
  - exact H.
Defined.

(** C2 as stated fails: in scenario S5 the first replica does not end in
    state FAILED, whatever the fuel. *)
Lemma failover_first_replica_not_FAILED :
  ¬ ∃ fuel sb,
      recover fuel allReady corruptFirst (parseReplicas [(1, 42); (2, 42)])
        = Some (Committed sb) ∧
      replayed sb = [42] ∧
      map state (replicas sb) = [FAILED; OK].
Proof.
  intros (fuel & sb & Hrun & _ & Hst).
  assert (H2 : ∃ res,
    recover 2 allReady corruptFirst (parseReplicas [(1, 42); (2, 42)])
      = Some res ∧
    map state (replicas (scoreboardOf res)) = [OK; OK])
    by (eexists; split; vm_compute; reflexivity).
  destruct H2 as (res & Hres & Hok).
  rewrite <- (recover_deterministic _ _ _ _ _ _ _ Hrun Hres) in Hok.
  simpl in Hok. congruence.
Qed.

(** C3: throughout partition recovery the task array has four slots, so
    at most four GetRecoveryData RPCs are in flight; the replica of every
    occupied slot is WAITING with its segment id in [runningSet], and no
    two occupied slots are for the same segment id.  A replica is picked,
    in the initial round as well as after a completion, only if it is
    NOT_STARTED and its segment id is not in [runningSet], and picking it
    sets it WAITING and inserts its segment id into [runningSet]. *)
Theorem bounded_distinct_requests
    (wire : list (Z * Z)) (outcome : nat → RpcResult) :
  (∀ sb, reachable (parseReplicas wire) outcome sb →
     length (tasks sb) = 4%nat ∧
     (countActive (tasks sb) ≤ 4)%nat ∧
     activeRequests sb = Z.of_nat (countActive (tasks sb)) ∧
     (∀ slot i, tasks sb !! slot = Some (Some i) →
        ∃ r, replicas sb !! i = Some r ∧ state r = WAITING ∧
             segmentId r ∈ runningSet sb) ∧
     (∀ s1 s2 i1 i2 r1 r2,
        tasks sb !! s1 = Some (Some i1) → tasks sb !! s2 = Some (Some i2) →
        replicas sb !! i1 = Some r1 → replicas sb !! i2 = Some r2 →
        segmentId r1 = segmentId r2 → s1 = s2)) ∧
  (∀ k r, (k < numTasks)%nat →
     let res := startInitialTasks (seq 0 k) 0
                  (initScoreboard (parseReplicas wire)) in
     replicas (snd res) !! fst res = Some r →
     state r = NOT_STARTED ∧ (segmentId r ∉ runningSet (snd res)) ∧
     replicas (startTask k (fst res) r (snd res)) !! fst res
       = Some (setState WAITING r) ∧
     segmentId r ∈ runningSet (startTask k (fst res) r (snd res))) ∧
  (∀ sb slot j, (slot < length (tasks sb))%nat →
     tasks (refillTask slot sb) !! slot = Some (Some j) →
     ∃ r, replicas sb !! j = Some r ∧ state r = NOT_STARTED ∧
          (segmentId r ∉ runningSet sb) ∧
          replicas (refillTask slot sb) !! j = Some (setState WAITING r) ∧
          segmentId r ∈ runningSet (refillTask slot sb)).
Proof.
  pose proof (allNotStarted_parseReplicas wire) as Hall.
  split; [|split].
  - intros sb Hreach.
    destruct (reachable_CoreInv _ outcome sb Hall Hreach)
      as [HR [Hlen Htw Hwt Hinj] Hact].
    split; [done|]. split.
    { pose proof (countActive_le (tasks sb)) as Hc.
      rewrite Hlen in Hc. done. }
    split; [done|]. split.
    + intros slot i Hs. destruct (Htw _ _ Hs) as (r & Hi & Hw).
      exists r. split; [done|]. split; [done|].
      apply (inv_running _ _ _ HR). eauto.
    + intros s1 s2 i1 i2 r1 r2 H1 H2 Hr1 Hr2 Hs.
      destruct (Htw _ _ H1) as (x1 & Hx1 & Hw1).
      destruct (Htw _ _ H2) as (x2 & Hx2 & Hw2). simplify_eq.
      assert (i1 = i2) as ->
        by (eapply (inv_waiting_distinct _ _ _ HR); eauto).
      eauto.
  - intros k r Hk res Hr.
    destruct (startInitialTasks_inv _ outcome k 0 0 _ (InitInv_init _ _ Hall)
                ltac:(simpl; lia)) as (k' & Hinv & _).
    fold res in Hinv.
    split; [by eapply (init_after _ _ _ _ _ Hinv)|].
    split; [by eapply (init_cursor _ _ _ _ _ Hinv)|].
    simpl. split; [|apply elem_of_union; left; by apply elem_of_singleton].
    apply list_lookup_insert_eq. by eapply lookup_lt_Some.
  - intros sb slot j Hslot. unfold refillTask.
    destruct (findNext _ _ _) as [j'|] eqn:Hfind; simpl in *.
    + apply findNext_Some in Hfind as (_ & (x & Hj & Hxn & Hxout) & _).
      rewrite Hj. simpl.
      rewrite list_lookup_insert_eq by (by rewrite length_insert).
      intros ?; simplify_eq. exists x.
      split; [done|]. split; [done|]. split; [done|].
      split; [|apply elem_of_union; left; by apply elem_of_singleton].
      apply list_lookup_insert_eq. by eapply lookup_lt_Some.
    + by rewrite list_lookup_insert_eq.
Qed.

Lemma bounded_distinct_requests_witness :
  let wire := [(1, 42); (2, 42); (1, 43); (2, 44); (3, 45); (4, 46)] in
  let sb := startRecovery (parseReplicas wire) in
  (length (tasks sb) = 4%nat ∧
   (countActive (tasks sb) ≤ 4)%nat ∧
   activeRequests sb = Z.of_nat (countActive (tasks sb)) ∧
   (∀ slot i, tasks sb !! slot = Some (Some i) →
      ∃ r, replicas sb !! i = Some r ∧ state r = WAITING ∧
           segmentId r ∈ runningSet sb) ∧
   (∀ s1 s2 i1 i2 r1 r2,
      tasks sb !! s1 = Some (Some i1) → tasks sb !! s2 = Some (Some i2) →
      replicas sb !! i1 = Some r1 → replicas sb !! i2 = Some r2 →
      segmentId r1 = segmentId r2 → s1 = s2)) ∧
  (state (newReplica 1 43) = NOT_STARTED ∧
   segmentId (newReplica 1 43)
     ∉ runningSet (startInitialTasks (seq 0 1) 0
                     (initScoreboard (parseReplicas wire))).2).
Proof.
  intros wire sb. split.
  - apply (proj1 (bounded_distinct_requests wire corruptFirst) sb).
    apply reach_loop, loop_enter.
  - pose proof (proj1 (proj2 (bounded_distinct_requests wire corruptFirst))
                  1%nat (newReplica 1 43)) as H.
    destruct H as (H1 & H2 & _); [unfold numTasks; lia|reflexivity|].
    split; [exact H1|exact H2].
Defined.

(** C9: when the event loop of [recover] is left, [activeRequests] being
    zero, every replica of the list is in state OK or FAILED, none is
    NOT_STARTED or WAITING, and the assertion of
    [detectSegmentRecoveryFailure] does not fail. *)
Theorem loop_exit_all_terminal
    (wire : list (Z * Z)) (outcome : nat → RpcResult) (sb : Scoreboard) :
  inLoop (parseReplicas wire) outcome sb →
  activeRequests sb = 0 →
  (∀ r, r ∈ replicas sb → state r = OK ∨ state r = FAILED) ∧
  length (replicas sb) = length wire ∧
  detectSegmentRecoveryFailure (replicas sb) ≠ AssertionFailed.
Proof.
  intros Hloop H0.
  pose proof (allNotStarted_parseReplicas wire) as Hall.
  destruct (finished_scoreboard _ _ _ Hall Hloop H0) as [Hterm Hclosed].
  split; [done|]. split.
  - pose proof (inv_segs _ _ _ (inv_replica _ _ _ (inv_core _ _ _
      (inLoop_LoopInv _ _ _ Hall Hloop)))) as Hsegs.
    apply (f_equal length) in Hsegs.
    rewrite !length_map in Hsegs. unfold parseReplicas in Hsegs.
    by rewrite length_map in Hsegs.
  - destruct (detect_finished _ Hterm Hclosed) as [[-> _]|(F & -> & _)];
      done.
Qed.

Lemma loop_exit_all_terminal_witness :
  let wire := [(1, 42); (2, 43)] in
  let m := buildSegmentIdToBackups (parseReplicas wire) 0 ∅ in
  let sb := completeTask m 1 1 (corruptFirst 1)
              (completeTask m 0 0 (corruptFirst 0)
                 (startRecovery (parseReplicas wire))) in
  (∀ r, r ∈ replicas sb → state r = OK ∨ state r = FAILED) ∧
  length (replicas sb) = length wire ∧
  detectSegmentRecoveryFailure (replicas sb) ≠ AssertionFailed.
Proof.
  intros wire m sb.
  apply (loop_exit_all_terminal wire corruptFirst sb).
  - apply loop_complete; [|reflexivity].
    apply loop_complete; [|reflexivity].
    apply loop_enter.
  - vm_compute; reflexivity.
Defined.

End PartitionRecovery.

(* ================================================================== *)
(** * The properties of recovery completion *)
(* ================================================================== *)

Section RecoveryCompletion.
Import TabletManager RecoverRpc.

(** C4: in the RECOVER handler the compare-exchange loop ends, whatever
    other threads do to [clusterTime] meanwhile, and leaves [clusterTime]
    at least at the timestamp obtained from the coordinator and not below
    its former value (at the larger of the two when no other thread
    interferes); the handler never decreases [clusterTime]; and every
    change of a recovered tablet from RECOVERING to NORMAL comes, in the
    trace of the handler, after the update of the cluster time to a value
    that is at least the timestamp.  A tablet that is NORMAL when the
    handler ends was NORMAL before or has been set so behind that gate. *)
Theorem cluster_time_updated_before_normal
    (req : Request) (env : Environment) (m : Master) :
  (∃ v, updateClusterTime (others env) (leaseTimestamp env) (clusterTime m)
          = Some v ∧
        leaseTimestamp env ≤ v ∧ clusterTime m ≤ v) ∧
  updateClusterTime [] (leaseTimestamp env) (clusterTime m)
    = Some (Z.max (clusterTime m) (leaseTimestamp env)) ∧
  clusterTime m ≤ clusterTime (snd (recover req env m)) ∧
  (fst (recover req env m) = Returned →
   leaseTimestamp env ≤ clusterTime (snd (recover req env m))) ∧
  ∃ new,
    trace (snd (recover req env m)) = trace m ++ new ∧
    gated (leaseTimestamp env) (clusterTime m) new ∧
    ∀ t, t ∈ tabletManager (snd (recover req env m)) → state t = NORMAL →
         t ∈ tabletManager m ∨
         TabletNormal (tableId t) (startKeyHash t) (endKeyHash t) ∈ new.
Proof.
  split; [apply updateClusterTime_spec|].
  split; [apply updateClusterTime_alone|].
  unfold recover.
  destruct (prepare req env m) as [o m3] eqn:Hprep.
  apply prepare_spec in Hprep as (Hct & Htm & pre & Htr & Ho).
  destruct o as [r|].
  { destruct Ho as [Hr Hpre]. simpl. split; [done|]. split; [done|].
    exists pre. split; [done|]. split; [by apply gated_quiet|].
    intros t Ht Hn. left. by apply Htm. }
  destruct Ho as (pre0 & -> & Hpre0 & Hts).
  assert (Hgate : ∀ post, gated (leaseTimestamp env) (clusterTime m)
            ((pre0 ++ [ClusterTimeUpdated (clusterTime m3); HeadRolledOver])
             ++ post)).
  { intros post. rewrite <- app_assoc. simpl. by apply gated_after. }
  assert (Hdone : ∀ successful,
    clusterTime m ≤ clusterTime (snd (complete req env successful m3)) ∧
    (fst (complete req env successful m3) = Returned →
     leaseTimestamp env
       ≤ clusterTime (snd (complete req env successful m3))) ∧
    ∃ new,
      trace (snd (complete req env successful m3)) = trace m ++ new ∧
      gated (leaseTimestamp env) (clusterTime m) new ∧
      ∀ t, t ∈ tabletManager (snd (complete req env successful m3)) →
           state t = NORMAL →
           t ∈ tabletManager m ∨
           TabletNormal (tableId t) (startKeyHash t) (endKeyHash t) ∈ new).
  { intros successful.
    destruct (complete req env successful m3) as [r m'] eqn:Hc.
    apply complete_spec in Hc as (Hct' & post & Htr' & Htm').
    simpl. rewrite Hct'. split; [done|]. split; [done|].
    eexists. split; [rewrite Htr', Htr, <- app_assoc; reflexivity|].
    split; [apply Hgate|].
    intros t Ht Hn. destruct (Htm' t Ht Hn) as [Hin|Hin].
    - left. by apply Htm.
    - right. apply elem_of_app. by right. }
  assert (Hstop : ∀ r : Result, r ≠ Returned →
    clusterTime m ≤ clusterTime m3 ∧
    (r = Returned → leaseTimestamp env ≤ clusterTime m3) ∧
    ∃ new,
      trace m3 = trace m ++ new ∧
      gated (leaseTimestamp env) (clusterTime m) new ∧
      ∀ t, t ∈ tabletManager m3 → state t = NORMAL →
           t ∈ tabletManager m ∨
           TabletNormal (tableId t) (startKeyHash t) (endKeyHash t) ∈ new).
  { intros r Hr. split; [done|]. split; [done|].
    eexists. split; [done|]. split.
    - specialize (Hgate []). by rewrite app_nil_r in Hgate.
    - intros t Ht Hn. left. by apply Htm. }
  destruct (MasterService.recover _ _ _ _) as [[sb|sb|sb]|]; simpl.
  - apply Hdone.
  - apply Hdone.
  - by apply (Hstop AssertionFailure).
  - by apply (Hstop Diverged).
Qed.

Lemma cluster_time_updated_before_normal_witness :
  leaseTimestamp environmentS5
    ≤ clusterTime (snd (recover requestS5 environmentS5 masterS5)) ∧
  mkTablet 1 0 9 NORMAL
    ∈ tabletManager (snd (recover requestS5 environmentS5 masterS5)).
Proof.
  split.
  - apply (proj1 (proj2 (proj2 (proj2 (cluster_time_updated_before_normal
                                  requestS5 environmentS5 masterS5))))).
    vm_compute. reflexivity.
  - vm_compute. left.
Defined.

End RecoveryCompletion.

(* ================================================================== *)
(** * The properties of tablet ownership *)
(* ================================================================== *)

Section TabletOwnership.
Import TabletManager Ownership.

Lemma takeTabletOwnership_tabletManager_sync tid first last m :
  takeTabletOwnership tid first last m =
  let r := takeTabletOwnership tid first last
             (mkMaster (tabletManager m) true (syncs m)) in
  (fst r,
   mkMaster (tabletManager (snd r)) true
     (if logEverSynced m then syncs m else S (syncs m))).
Proof.
  unfold takeTabletOwnership. destruct m as [tm synced n]. simpl.
  destruct synced; simpl;
    destruct (addTablet tid first last NORMAL tm) as [[] tm1]; simpl;
    try done;
    destruct (getTablet tid first last tm) as [t|]; simpl;
    try destruct (bool_decide (state t = NORMAL)); simpl; try done;
    destruct (changeState tid first last RECOVERING NORMAL tm) as [[] tm2];
    done.
Qed.

(** C10 (amended): on a well-formed tablet table [takeTabletOwnership]
    is idempotent: when the master already has the tablet of exactly the
    requested range in state NORMAL it answers STATUS_OK and leaves the
    table as it is; when it has it in state RECOVERING the tablet becomes
    NORMAL, the others staying; a call that answered STATUS_OK can be
    repeated with the same answer and no further change.
    STATUS_INTERNAL_ERROR is the answer exactly when some tablet of the
    master overlaps the requested range and the master has no tablet of
    exactly that range in state NORMAL or RECOVERING: an overlap with a
    different range, or the very tablet in state LOCKED_FOR_MIGRATION;
    the table is then left as it is. *)
Theorem takeTabletOwnership_idempotent (tid first last : Z) (m : Master) :
  wellFormed (tabletManager m) →
  (∀ t, t ∈ tabletManager m → isTablet tid first last t = true →
        state t = NORMAL →
        fst (takeTabletOwnership tid first last m) = STATUS_OK ∧
        tabletManager (snd (takeTabletOwnership tid first last m))
          = tabletManager m) ∧
  (∀ t, t ∈ tabletManager m → isTablet tid first last t = true →
        state t = RECOVERING →
        fst (takeTabletOwnership tid first last m) = STATUS_OK ∧
        mkTablet tid first last NORMAL
          ∈ tabletManager (snd (takeTabletOwnership tid first last m)) ∧
        length (tabletManager (snd (takeTabletOwnership tid first last m)))
          = length (tabletManager m) ∧
        ∀ t', t' ∈ tabletManager m → isTablet tid first last t' = false →
              t' ∈ tabletManager (snd (takeTabletOwnership tid first last m)))
  ∧
  (first ≤ last →
   fst (takeTabletOwnership tid first last m) = STATUS_OK →
   takeTabletOwnership tid first last
     (snd (takeTabletOwnership tid first last m))
   = (STATUS_OK, snd (takeTabletOwnership tid first last m))) ∧
  (fst (takeTabletOwnership tid first last m) = STATUS_INTERNAL_ERROR ↔
   (∃ t, t ∈ tabletManager m ∧ overlaps tid first last t = true) ∧
   ¬ ∃ t, t ∈ tabletManager m ∧ isTablet tid first last t = true ∧
          (state t = NORMAL ∨ state t = RECOVERING)) ∧
  (fst (takeTabletOwnership tid first last m) = STATUS_INTERNAL_ERROR →
   tabletManager (snd (takeTabletOwnership tid first last m))
     = tabletManager m).
Proof.
  intros Hwf.
  assert (Hself : ∀ t, t ∈ tabletManager m →
            isTablet tid first last t = true →
            existsb (overlaps tid first last) (tabletManager m) = true).
  { intros t Ht He. eapply existsb_overlaps_elem_of; [done|].
    pose proof (wellFormed_elem_of _ _ Hwf Ht).
    apply isTablet_true in He as (<- & <- & <-). by apply overlaps_self. }
  assert (Hnormal : ∀ m', wellFormed (tabletManager m') →
            logEverSynced m' = true →
            ∀ t, t ∈ tabletManager m' → isTablet tid first last t = true →
                 state t = NORMAL →
                 takeTabletOwnership tid first last m' = (STATUS_OK, m')).
  { intros m' Hwf' Hsync t Ht He Hn. unfold takeTabletOwnership.
    rewrite Hsync. unfold addTablet.
    erewrite existsb_overlaps_elem_of; [|done|].
    - rewrite (getTablet_wellFormed _ _ _ _ _ Hwf' Ht He), Hn. done.
    - pose proof (wellFormed_elem_of _ _ Hwf' Ht).
      apply isTablet_true in He as (<- & <- & <-). by apply overlaps_self. }
  rewrite takeTabletOwnership_tabletManager_sync. simpl.
  set (m0 := mkMaster (tabletManager m) true (syncs m)).
  split; [|split; [|split; [|split]]].
  - intros t Ht He Hn.
    by rewrite (Hnormal m0 Hwf eq_refl t Ht He Hn).
  - intros t Ht He Hr. unfold takeTabletOwnership. simpl. unfold addTablet.
    rewrite (Hself t Ht He).
    rewrite (getTablet_wellFormed _ _ _ _ _ Hwf Ht He), Hr. simpl.
    destruct (changeState_found tid first last RECOVERING NORMAL _ t
                Hwf Ht He Hr) as (tm' & -> & Hin & Hlen & Hoth).
    done.
  - intros Hle Hok.
    assert (Hres : ∃ t, t ∈ tabletManager (snd
                          (takeTabletOwnership tid first last m0)) ∧
              isTablet tid first last t = true ∧ state t = NORMAL ∧
              wellFormed (tabletManager (snd
                          (takeTabletOwnership tid first last m0)))).
    { revert Hok. unfold takeTabletOwnership. simpl.
      destruct (addTablet tid first last NORMAL (tabletManager m))
        as [[] tm1] eqn:Hadd; simpl.
      - intros _. destruct (addTablet_wellFormed _ _ _ _ _ _ Hwf Hle Hadd)
          as [Hwf1 Hin].
        exists (mkTablet tid first last NORMAL).
        split; [done|]. split; [by apply isTablet_true|done].
      - destruct (getTablet tid first last (tabletManager m)) as [t|] eqn:Hg.
        + apply getTablet_Some in Hg as [Ht He].
          destruct (bool_decide (state t = NORMAL)) eqn:Hn; simpl.
          * apply bool_decide_eq_true in Hn. intros _. by exists t.
          * destruct (changeState tid first last RECOVERING NORMAL
                        (tabletManager m)) as [[] tm2] eqn:Hch; [|done].
            intros _. simpl.
            destruct (changeState_true _ _ _ _ _ _ _ Hch) as (x & Hx & Hxe & Hxs).
            destruct (changeState_found tid first last RECOVERING NORMAL _ x
                        Hwf Hx Hxe Hxs) as (tm' & Htm' & Hin & _).
            rewrite Hch in Htm'. simplify_eq.
            exists (mkTablet tid first last NORMAL).
            split; [done|]. split; [by apply isTablet_true|].
            split; [done|]. by eapply changeState_wellFormed.
        + simpl.
          destruct (changeState tid first last RECOVERING NORMAL
                      (tabletManager m)) as [[] tm2] eqn:Hch; [|done].
          intros _. simpl.
          destruct (changeState_true _ _ _ _ _ _ _ Hch) as (x & Hx & Hxe & Hxs).
          destruct (changeState_found tid first last RECOVERING NORMAL _ x
                      Hwf Hx Hxe Hxs) as (tm' & Htm' & Hin & _).
          rewrite Hch in Htm'. simplify_eq.
          exists (mkTablet tid first last NORMAL).
          split; [done|]. split; [by apply isTablet_true|].
          split; [done|]. by eapply changeState_wellFormed. }
    destruct Hres as (t & Ht & He & Hn & Hwf').
    by apply (Hnormal (mkMaster _ true _) Hwf' eq_refl t).
  - unfold takeTabletOwnership. simpl. unfold addTablet.
    destruct (existsb (overlaps tid first last) (tabletManager m)) eqn:Hex;
      simpl.
    + assert (Hsome : ∃ t, t ∈ tabletManager m ∧
                           overlaps tid first last t = true).
      { apply existsb_exists in Hex as (t & Ht & Ho).
        exists t. split; [by apply list_elem_of_In|done]. }
      destruct (getTablet tid first last (tabletManager m)) as [t|] eqn:Hg.
      * apply getTablet_Some in Hg as [Ht He].
        destruct (bool_decide (state t = NORMAL)) eqn:Hn; simpl.
        -- apply bool_decide_eq_true in Hn. split; [done|].
           intros [_ Hno]. exfalso. apply Hno. exists t. auto.
        -- destruct (changeState tid first last RECOVERING NORMAL
                       (tabletManager m)) as [[] tm2] eqn:Hch; simpl.
           ++ split; [done|]. intros [_ Hno]. exfalso. apply Hno.
              destruct (changeState_true _ _ _ _ _ _ _ Hch)
                as (x & Hx & Hxe & Hxs). exists x. auto.
           ++ split; [|done]. intros _. split; [done|].
              intros (x & Hx & Hxe & Hxs).
              pose proof (getTablet_wellFormed _ _ _ _ _ Hwf Ht He) as Hg1.
              pose proof (getTablet_wellFormed _ _ _ _ _ Hwf Hx Hxe) as Hg2.
              rewrite Hg1 in Hg2. simplify_eq.
              apply bool_decide_eq_false in Hn.
              destruct Hxs as [?|Hr]; [done|].
              destruct (changeState_found tid first last RECOVERING NORMAL _
                          x Hwf Hx Hxe Hr) as (tm' & Htm' & _).
              congruence.
      * simpl.
        destruct (changeState tid first last RECOVERING NORMAL
                    (tabletManager m)) as [[] tm2] eqn:Hch; simpl.
        -- split; [done|]. intros [_ Hno]. exfalso. apply Hno.
           destruct (changeState_true _ _ _ _ _ _ _ Hch)
             as (x & Hx & Hxe & Hxs). exists x. auto.
        -- split; [|done]. intros _. split; [done|].
           intros (x & Hx & Hxe & Hxs).
           by rewrite (getTablet_wellFormed _ _ _ _ _ Hwf Hx Hxe) in Hg.
    + split; [done|]. intros [(t & Ht & Ho) _].
      apply list_elem_of_In in Ht.
      assert (existsb (overlaps tid first last) (tabletManager m) = true)
        by (apply existsb_exists; eauto).
      congruence.
  - unfold takeTabletOwnership. simpl.
    destruct (addTablet tid first last NORMAL (tabletManager m))
      as [[] tm1]; simpl; [done|].
    destruct (match getTablet tid first last (tabletManager m) with
              | Some tablet => bool_decide (state tablet = NORMAL)
              | None => false
              end); simpl; [done|].
    destruct (changeState tid first last RECOVERING NORMAL (tabletManager m))
      as [[] tm2]; simpl; done.
Qed.

Lemma takeTabletOwnership_idempotent_witness :
  let m := mkMaster [mkTablet 1 0 9 RECOVERING; mkTablet 1 10 19 NORMAL]
             false 0 in
  (fst (takeTabletOwnership 1 10 19 m) = STATUS_OK ∧
   tabletManager (snd (takeTabletOwnership 1 10 19 m)) = tabletManager m) ∧
  takeTabletOwnership 1 0 9 (snd (takeTabletOwnership 1 0 9 m))
    = (STATUS_OK, snd (takeTabletOwnership 1 0 9 m)).
Proof.
  intros m.
  assert (Hwf : wellFormed (tabletManager m)).
  { simpl. repeat split; try lia; reflexivity. }
  split.
  - apply (proj1 (takeTabletOwnership_idempotent 1 10 19 m Hwf)
             (mkTablet 1 10 19 NORMAL)).
    + right. left.
    + reflexivity.
    + reflexivity.
  - apply (proj1 (proj2 (proj2
             (takeTabletOwnership_idempotent 1 0 9 m Hwf)))).
    + lia.
    + reflexivity.
Defined.

(** C10 as stated fails: the master has no tablet of another range, yet
    the answer is STATUS_INTERNAL_ERROR, the tablet asked for being
    locked for migration. *)
Lemma takeTabletOwnership_locked_internal_error :
  ¬ (fst (takeTabletOwnership 1 0 9 lockedMaster) = STATUS_INTERNAL_ERROR →
     ∃ t, t ∈ tabletManager lockedMaster ∧
          overlaps 1 0 9 t = true ∧ isTablet 1 0 9 t = false).
Proof.
  intros H. destruct (H eq_refl) as (t & Ht & _ & Hne).
  apply list_elem_of_singleton in Ht as ->. done.
Qed.

End TabletOwnership.

(* ================================================================== *)
(** * The properties of tablet migration *)
(* ================================================================== *)

Section TabletMigration.
Import TabletManager Migration.

(** C5 (amended): during tablet migration a log entry is appended to a
    transfer segment if and only if its type is OBJECT, OBJECT_TOMBSTONE
    or TX_DECISION, its table id is the migrated one, its key hash lies in
    [firstKeyHash, lastKeyHash], for an OBJECT the hash table points at
    this very entry, and the entry fits in the current transfer segment or
    in an empty one; an entry the filter keeps that does not fit makes
    [migrateSingleLogEntry] return 1 with STATUS_INTERNAL_ERROR.  When the
    entries fit, the loop over a log streams exactly the entries the filter
    keeps, in log order: tombstones of the range always, objects only in
    their live version; [migrateTablet] sends exactly these to the new
    owner; and the destination, replaying them, holds for every key exactly
    the live object. *)
Theorem migration_streams_live_entries
    (capacity : Z) (ht : gmap (Z * Z) Z) (req : Request) :
  (∀ e tr,
     let r := migrateSingleLogEntry capacity ht req e tr in
     let fits := segmentBytes (default [] (transferSeg tr)) + entrySize e
                   ≤ capacity ∨ entrySize e ≤ capacity in
     (streamed (snd r) = streamed tr ++ [e] ↔
      shouldMigrate ht req e = true ∧ fits) ∧
     (streamed (snd r) ≠ streamed tr ++ [e] → streamed (snd r) = streamed tr) ∧
     (fst r = 1 ↔ shouldMigrate ht req e = true ∧ ¬ fits) ∧
     (fst r = 1 → status (snd r) = STATUS_INTERNAL_ERROR)) ∧
  (∀ log tr,
     (∀ e, e ∈ log → shouldMigrate ht req e = true →
           entrySize e ≤ capacity) →
     fst (migrateEntries capacity ht req log tr) = 0 ∧
     streamed (snd (migrateEntries capacity ht req log tr))
       = streamed tr ++ filter (λ e, shouldMigrate ht req e = true) log ∧
     (∀ e, e ∈ log → entryType e = LOG_ENTRY_TYPE_OBJTOMB →
           entryTableId e = tableId req →
           firstKeyHash req ≤ entryKeyHash e ≤ lastKeyHash req →
           e ∈ streamed (snd (migrateEntries capacity ht req log tr))) ∧
     (∀ e, e ∈ filter (λ e, shouldMigrate ht req e = true) log →
           entryType e = LOG_ENTRY_TYPE_OBJ →
           ht !! keyOf e = Some (entryReference e))) ∧
  (∀ env log1 log2 m t,
     hashTable m = ht →
     getTablet (tableId req) (firstKeyHash req) (lastKeyHash req)
       (tabletManager m) = Some t →
     newOwnerMasterId req ≠ serverId m →
     prepStatus env = STATUS_OK →
     (∀ e, e ∈ log1 ++ log2 → shouldMigrate ht req e = true →
           entrySize e ≤ capacity) →
     concat (sentSegments (migrateTablet capacity req env log1 log2 m).1.2)
     = filter (λ e, shouldMigrate ht req e = true) (log1 ++ log2)) ∧
  (∀ log k o,
     NoDup (map entryReference log) →
     (∀ t x, t ∈ log → x ∈ log →
        entryType t = LOG_ENTRY_TYPE_OBJTOMB →
        entryType x = LOG_ENTRY_TYPE_OBJ →
        keyOf t = keyOf x → ht !! keyOf x = Some (entryReference x) →
        entryVersion t < entryVersion x) →
     readObject (replayEntries
                   (filter (λ e, shouldMigrate ht req e = true) log) ∅) k
       = Some o ↔
     o ∈ log ∧ entryType o = LOG_ENTRY_TYPE_OBJ ∧ keyOf o = k ∧
     shouldMigrate ht req o = true).
Proof.
  split; [|split; [|split]].
  - intros e tr r fits. subst r.
    rewrite migrateSingleLogEntry_filter.
    pose proof (appendToTransfer_streamed capacity req e tr) as [Hyes Hno].
    fold fits in Hyes, Hno.
    destruct (shouldMigrate ht req e) eqn:Hw; simpl.
    + destruct (decide fits) as [Hf|Hf].
      * destruct (Hyes Hf) as (H0 & Hst & Hstr). rewrite H0, Hstr.
        split; [tauto|]. split; [done|]. split; [|done].
        split; [done|tauto].
      * destruct (Hno Hf) as (H1 & Hst & Hstr). rewrite H1, Hstr, Hst.
        split; [|done]. split; [|tauto].
        intros H. symmetry in H. by apply list_snoc_ne in H.
    + split; [|split; [done|split; [|done]]].
      * split; [|intros [? _]; done].
        intros H. symmetry in H. by apply list_snoc_ne in H.
      * split; [done|intros [? _]; done].
  - intros log tr Hfit.
    destruct (migrateEntries_streamed capacity ht req log tr Hfit)
      as (H0 & _ & Hstr).
    split; [done|]. split; [done|]. split.
    + intros e He Ht Hid Hh. rewrite Hstr. apply elem_of_app. right.
      apply list_elem_of_filter. split; [|done].
      unfold shouldMigrate. apply bool_decide_eq_true.
      split; [auto|]. split; [done|]. split; [done|]. congruence.
    + intros e [He _]%list_elem_of_filter Ht. unfold shouldMigrate in He.
      apply bool_decide_eq_true in He. unfold keyOf. tauto.
  - intros env log1 log2 m t <-. apply migrateTablet_sends.
  - intros log k o. apply replay_filtered.
Qed.

Lemma migration_streams_live_entries_witness :
  streamed (snd (migrateEntries 100 hashTableS6 requestS6 logS6
                   (startTransfer [])))
    = [tombstoneV1; objectV2] ∧
  (readObject (replayEntries [tombstoneV1; objectV2] ∅) (1, 7)
     = Some objectV2 ↔
   objectV2 ∈ logS6 ∧ entryType objectV2 = LOG_ENTRY_TYPE_OBJ ∧
   keyOf objectV2 = (1, 7) ∧
   shouldMigrate hashTableS6 requestS6 objectV2 = true).
Proof.
  split.
  - destruct (proj1 (proj2 (migration_streams_live_entries
                              100 hashTableS6 requestS6))
                logS6 (startTransfer [])) as (_ & H & _).
    + intros e He _.
      repeat (apply elem_of_cons in He as [->|He]; [vm_compute; discriminate|]).
      by apply elem_of_nil in He.
    + exact H.
  - apply (proj2 (proj2 (proj2 (migration_streams_live_entries
                                  100 hashTableS6 requestS6)))
             logS6 (1, 7) objectV2).
    + vm_compute. repeat constructor; (intros H; repeat
        (apply elem_of_cons in H as [H|H]; [discriminate H|]);
        by apply elem_of_nil in H).
    + intros t x Ht Hx Htt Hxt Hk Hl.
      repeat (apply elem_of_cons in Ht as [->|Ht]; [|]);
        try (by apply elem_of_nil in Ht); try discriminate Htt;
        repeat (apply elem_of_cons in Hx as [->|Hx]; [|]);
        try (by apply elem_of_nil in Hx); try discriminate Hxt;
        try (vm_compute in Hl; discriminate Hl).
      vm_compute. reflexivity.
Defined.

(** C5 as stated fails: a live object of the range that does not fit in
    an empty segment passes the filter and is not appended. *)
Lemma migration_oversized_entry_not_appended :
  ¬ (streamed (snd (migrateSingleLogEntry 100 hashTableS6 requestS6
                      bigObject (startTransfer [])))
       = streamed (startTransfer []) ++ [bigObject] ↔
     shouldMigrate hashTableS6 requestS6 bigObject = true).
Proof.
  intros [_ H]. specialize (H eq_refl). vm_compute in H. discriminate H.
Qed.




End TabletMigration.

(* ================================================================== *)
(** * The properties of recovery orchestration *)
(* ================================================================== *)

Section RecoveryOrchestration.
Import Recovery.

(** C7: with backup1 holding segments 88 and 89 of the crashed master,
    backup2 segment 88 and backup3 nothing, the map from segment ids to
    backups iterates as (88, backup1), (88, backup2), (89, backup1), and
    the dispatch list has exactly these three entries in that order, each
    with the BACKUP role; whatever the replies, the map iterates by segment
    id ascending and by backup id ascending within a segment id. *)
Theorem segment_map_and_dispatch_order (id1 id2 id3 : Z) :
  id1 < id2 →
  buildSegmentIdToBackups (repliesS1 id1 id2 id3)
    = [(88, backupHost id1 "mock:host=backup1");
       (88, backupHost id2 "mock:host=backup2");
       (89, backupHost id1 "mock:host=backup1")] ∧
  createBackupList (buildSegmentIdToBackups (repliesS1 id1 id2 id3))
    = [mkEntry BACKUP id1 "mock:host=backup1" (Some 88);
       mkEntry BACKUP id2 "mock:host=backup2" (Some 88);
       mkEntry BACKUP id1 "mock:host=backup1" (Some 89)] ∧
  length (createBackupList (buildSegmentIdToBackups (repliesS1 id1 id2 id3)))
    = 3%nat ∧
  ∀ replies,
    StronglySorted mapLe (buildSegmentIdToBackups replies) ∧
    map (λ e, (segment_id e, server_id e))
      (createBackupList (buildSegmentIdToBackups replies))
    = map (λ p, (Some p.1, server_id p.2)) (buildSegmentIdToBackups replies) ∧
    Forall (λ e, server_type e = BACKUP)
      (createBackupList (buildSegmentIdToBackups replies)).
Proof.
  intros Hlt.
  assert (Hmap : buildSegmentIdToBackups (repliesS1 id1 id2 id3)
    = [(88, backupHost id1 "mock:host=backup1");
       (88, backupHost id2 "mock:host=backup2");
       (89, backupHost id1 "mock:host=backup1")]).
  { unfold buildSegmentIdToBackups, repliesS1, addReply. simpl.
    unfold mapLess. simpl.
    rewrite (proj2 (Z.ltb_ge id2 id1)) by lia. done. }
  rewrite Hmap. split; [done|]. split; [done|]. split; [done|].
  intros replies. split; [|split].
  - apply foldl_addReply_sorted. constructor.
  - unfold createBackupList. rewrite map_map. done.
  - unfold createBackupList. apply Forall_forall. intros e He.
    apply list_elem_of_In, in_map_iff in He as (p & <- & _). done.
Qed.

Lemma segment_map_and_dispatch_order_witness :
  buildSegmentIdToBackups (repliesS1 1 2 3)
    = [(88, backupHost 1 "mock:host=backup1");
       (88, backupHost 2 "mock:host=backup2");
       (89, backupHost 1 "mock:host=backup1")] ∧
  length (createBackupList (buildSegmentIdToBackups (repliesS1 1 2 3)))
    = 3%nat.
Proof.
  destruct (segment_map_and_dispatch_order 1 2 3) as (H1 & _ & H3 & _).
  - lia.
  - split; [exact H1|exact H3].
Defined.

(** C8: when fewer recovery masters are available than there are
    recovery partitions, the dispatcher gives a partition to each master,
    in order, attempts none of the surplus partitions, and ends its log
    with the diagnostic declaring the system unrecovered; with three
    partitions and two masters the log is: master1, master2, diagnostic.
    With a master for every partition there is no diagnostic. *)
Theorem not_enough_masters_busted (id1 id2 id3 : Z) :
  (∀ parts masters hosts,
     (length masters < length parts)%nat →
     dispatch parts masters hosts =
       zip_with (λ master part,
                   TryingPartition (service_locator master) (length part)
                     hosts) masters parts ++ [Busted] ∧
     length (filter (λ l, isTrying l = true) (dispatch parts masters hosts))
       = length masters ∧
     last (dispatch parts masters hosts) = Some Busted) ∧
  (∀ parts masters hosts,
     (length parts ≤ length masters)%nat →
     (Busted ∉ dispatch parts masters hosts) ∧
     length (dispatch parts masters hosts) = length parts) ∧
  length (partitions tabletsS4) = 3%nat ∧
  start tabletsS4 masterHostsS4 (repliesS1 id1 id2 id3)
    = [TryingPartition "mock:host=master1" 1 3;
       TryingPartition "mock:host=master2" 1 3;
       Busted].
Proof.
  split; [|split; [|split]].
  - intros parts masters hosts Hlen.
    split; [by apply dispatch_short|]. split.
    + rewrite dispatch_attempts. lia.
    + rewrite dispatch_short by done. apply last_snoc.
  - intros parts masters hosts Hlen.
    rewrite dispatch_enough by done. split.
    + intros (master & part & H & _)%elem_of_zip_with. done.
    + rewrite length_zip_with. lia.
  - reflexivity.
  - assert (Hhosts : length (createBackupList
                       (buildSegmentIdToBackups (repliesS1 id1 id2 id3)))
                     = 3%nat).
    { unfold createBackupList. rewrite length_map.
      unfold buildSegmentIdToBackups, repliesS1. simpl.
      rewrite !length_addReply. reflexivity. }
    unfold start. rewrite Hhosts. reflexivity.
Qed.

Lemma not_enough_masters_busted_witness :
  dispatch (partitions tabletsS4)
    (filter (λ e, server_type e = MASTER) masterHostsS4) 3
  = zip_with (λ master part,
                TryingPartition (service_locator master) (length part) 3)
      (filter (λ e, server_type e = MASTER) masterHostsS4)
      (partitions tabletsS4) ++ [Busted] ∧
  length (filter (λ l, isTrying l = true)
            (dispatch (partitions tabletsS4)
               (filter (λ e, server_type e = MASTER) masterHostsS4) 3))
    = 2%nat.
Proof.
  destruct (proj1 (not_enough_masters_busted 1 2 3)
              (partitions tabletsS4)
              (filter (λ e, server_type e = MASTER) masterHostsS4) 3%nat)
    as (H1 & H2 & _).
  - vm_compute. lia.
  - split; [exact H1|exact H2].
Defined.

End RecoveryOrchestration.

(* ================================================================== *)
(** * Proofs: lists of tablets *)
(* ================================================================== *)

Section RecoverRpcExtras.
Import TabletManager RecoverRpc ReplicaVector.

Lemma filter_keep_all {A} (P : A → Prop) `{∀ x, Decision (P x)} (l : list A) :
  (∀ x, x ∈ l → P x) → filter P l = l.
Proof.
  induction l as [|a l IH]; intros Hall; [done|].
  rewrite filter_cons_True by (apply Hall; left).
  f_equal. apply IH. intros x Hx. apply Hall. by right.
Qed.

Lemma filter_drop_all {A} (P : A → Prop) `{∀ x, Decision (P x)} (l : list A) :
  (∀ x, x ∈ l → ¬ P x) → filter P l = [].
Proof.
  induction l as [|a l IH]; intros Hall; [done|].
  rewrite filter_cons_False by (apply Hall; left).
  apply IH. intros x Hx. apply Hall. by right.
Qed.

Lemma inPartition_cons p ts t :
  inPartition (p :: ts) t = isTablet p.1.1 p.1.2 p.2 t || inPartition ts t.
Proof. done. Qed.

Lemma inPartition_recovering ts t :
  t ∈ recoveringTablets ts → inPartition ts t = true.
Proof.
  induction ts as [|p ts IH]; simpl; [by intros ?%elem_of_nil|].
  intros [->|Ht]%elem_of_cons.
  - apply orb_true_iff. left. by apply isTablet_true.
  - apply orb_true_iff. right. by apply IH.
Qed.

Lemma installTablets_true ts : ∀ m m',
  installTablets ts m = (true, m') →
  tabletManager m' = tabletManager m ++ recoveringTablets ts ∧
  ∀ t, t ∈ tabletManager m → startKeyHash t ≤ endKeyHash t →
       inPartition ts t = false.
Proof.
  induction ts as [|[[tid first] last] ts IH]; intros m m'; simpl.
  - intros ?; simplify_eq. by rewrite app_nil_r.
  - unfold addTablet.
    destruct (existsb _ (tabletManager m)) eqn:Hex; [done|].
    intros H. apply IH in H as [Htm Hout]. simpl in *.
    split; [by rewrite Htm, <- app_assoc|].
    intros t Ht Hne. apply orb_false_iff. split.
    + pose proof (existsb_overlaps_false _ _ _ _ _ Hex Ht) as Hno.
      apply bool_decide_eq_false. intros (? & ? & ?).
      apply bool_decide_eq_false in Hno. apply Hno. lia.
    + apply Hout; [|done]. apply elem_of_app. by left.
Qed.

Lemma installTablets_false ts : ∀ m m',
  installTablets ts m = (false, m') →
  ∃ pre p rest, ts = pre ++ p :: rest ∧
    tabletManager m' = tabletManager m ++ recoveringTablets pre ∧
    existsb (overlaps p.1.1 p.1.2 p.2) (tabletManager m') = true ∧
    clusterTime m' = clusterTime m ∧
    trace m' = trace m ++ map (λ q : Z * Z * Z, TabletAdded q.1.1 q.1.2 q.2) pre.
Proof.
  induction ts as [|[[tid first] last] ts IH]; intros m m'; simpl; [done|].
  unfold addTablet.
  destruct (existsb _ (tabletManager m)) eqn:Hex.
  - intros ?; simplify_eq. exists [], (tid, first, last), ts.
    simpl. by rewrite !app_nil_r.
  - intros H. apply IH in H as (pre & p & rest & -> & Htm & Ho & Hct & Htr).
    simpl in *. exists ((tid, first, last) :: pre), p, rest.
    split; [done|]. split; [by rewrite Htm, <- app_assoc|].
    split; [done|]. split; [done|]. by rewrite Htr, <- app_assoc.
Qed.

Lemma deleteTablets_tabletManager ts : ∀ m,
  tabletManager (deleteTablets ts m) =
  filter (λ t, inPartition ts t = false) (tabletManager m).
Proof.
  induction ts as [|[[tid first] last] ts IH]; intros m; simpl.
  - by rewrite filter_keep_all.
  - rewrite IH. simpl. unfold deleteTablet. rewrite list_filter_filter.
    apply list_filter_iff. intros t. rewrite orb_false_iff. tauto.
Qed.

Lemma changeState_keeps_normal tid first last tm : ∀ c tm' t,
  changeState tid first last RECOVERING NORMAL tm = (c, tm') →
  t ∈ tm → state t = NORMAL → t ∈ tm'.
Proof.
  induction tm as [|x tm IH]; intros c tm' t; simpl.
  - by intros ?; simplify_eq.
  - destruct (isTablet tid first last x).
    + destruct (decide (state x = RECOVERING)) as [Hx|Hx];
        intros ? Ht Hn; simplify_eq; [|done].
      apply elem_of_cons in Ht as [->|Ht]; [congruence|by right].
    + destruct (changeState tid first last RECOVERING NORMAL tm)
        as [c' tm''] eqn:Hc.
      intros ? [->|Ht]%elem_of_cons Hn; simplify_eq; [left|right].
      by eapply IH.
Qed.

Lemma changeState_other tid first last old new tm : ∀ c tm' t,
  changeState tid first last old new tm = (c, tm') →
  t ∈ tm → isTablet tid first last t = false → t ∈ tm'.
Proof.
  induction tm as [|x tm IH]; intros c tm' t; simpl.
  - by intros ?; simplify_eq.
  - destruct (isTablet tid first last x) eqn:Hx.
    + destruct (decide (state x = old)); intros ? Ht Hn; simplify_eq; [|done].
      apply elem_of_cons in Ht as [->|Ht]; [congruence|by right].
    + destruct (changeState tid first last old new tm) as [c' tm''] eqn:Hc.
      intros ? [->|Ht]%elem_of_cons Hn; simplify_eq; [left|right].
      by eapply IH.
Qed.

Lemma changeState_changed tid first last old new tm : ∀ tm',
  changeState tid first last old new tm = (true, tm') →
  mkTablet tid first last new ∈ tm' ∧ length tm' = length tm.
Proof.
  induction tm as [|x tm IH]; intros tm'; simpl; [done|].
  destruct (isTablet tid first last x) eqn:Hx.
  - destruct (decide (state x = old)); intros ?; simplify_eq.
    split; [left|done].
  - destruct (changeState tid first last old new tm) as [c' tm''] eqn:Hc.
    intros ?; simplify_eq. destruct (IH _ eq_refl) as [Hin Hlen].
    split; [by right|simpl; lia].
Qed.

Lemma markTabletsNormal_true ts : ∀ m m',
  markTabletsNormal ts m = (true, m') →
  (∀ p, p ∈ ts → mkTablet p.1.1 p.1.2 p.2 NORMAL ∈ tabletManager m') ∧
  (∀ t, t ∈ tabletManager m → state t = NORMAL → t ∈ tabletManager m') ∧
  (∀ t, t ∈ tabletManager m → inPartition ts t = false →
        t ∈ tabletManager m') ∧
  length (tabletManager m') = length (tabletManager m).
Proof.
  induction ts as [|[[tid first] last] ts IH]; intros m m'; simpl.
  - intros ?; simplify_eq. split; [by intros p ?%elem_of_nil|done].
  - destruct (changeState tid first last RECOVERING NORMAL (tabletManager m))
      as [[] tm] eqn:Hch; [|done].
    intros H. apply IH in H as (Hall & Hnormal & Hother & Hlen). simpl in *.
    destruct (changeState_changed _ _ _ _ _ _ _ Hch) as [Hin Hl].
    split; [|split; [|split]].
    + intros p [->|Hp]%elem_of_cons; [|by apply Hall].
      simpl. by apply Hnormal.
    + intros t Ht Hn. apply Hnormal; [|done].
      by eapply changeState_keeps_normal.
    + intros t Ht [Hne Hout]%orb_false_iff. apply Hother; [|done].
      by eapply changeState_other.
    + lia.
Qed.

End RecoverRpcExtras.

(* ================================================================== *)
(** * Further properties of partition recovery *)
(* ================================================================== *)

Section ScoreboardExtras.
Import MasterService ReplicaVector.

Lemma startInitialTasks_replayed slots : ∀ it sb,
  replayed (startInitialTasks slots it sb).2 = replayed sb.
Proof.
  induction slots as [|slot slots IH]; intros it sb; simpl; [done|].
  destruct (replicas sb !! it) as [r|]; [|done].
  by rewrite IH.
Qed.

Lemma refillTask_replayed slot sb :
  replayed (refillTask slot sb) = replayed sb.
Proof.
  unfold refillTask. simpl.
  destruct (findNext _ _ _) as [j|]; [|done].
  simpl. by destruct (replicas sb !! j).
Qed.

Lemma inLoop_replayed_recoverable rs outcome sb :
  allNotStarted rs → inLoop rs outcome sb →
  ∀ s, s ∈ replayed sb → recoverable rs outcome s.
Proof.
  intros Hall Hloop. induction Hloop as [|sb slot i Hloop IH Hslot].
  - unfold startRecovery. rewrite startInitialTasks_replayed. simpl.
    by intros s ?%elem_of_nil.
  - intros s. unfold completeTask.
    destruct (replicas sb !! i) as [r|] eqn:Hi; [|by apply IH].
    rewrite refillTask_replayed.
    pose proof (inv_segs _ _ _ (inv_replica _ _ _ (inv_core _ _ _
      (inLoop_LoopInv _ _ _ Hall Hloop)))) as Hsegs.
    destruct (lookup_segmentId_eq _ _ _ _ Hsegs Hi) as (r0 & Hr0 & Hs0).
    destruct (outcome i) eqn:Ho; simpl; try by apply IH.
    rewrite elem_of_app, list_elem_of_singleton. intros [Hs| ->]; [by apply IH|].
    exists i, r0. done.
Qed.

End ScoreboardExtras.

Section ScoreboardExtras2.
Import MasterService ReplicaVector.

(** X2: in every state partition recovery reaches, no segment id occurs
    twice among the segments replayed, and every segment replayed has a
    replica in state OK and a replica of the list whose RPC and replay
    succeed. *)
Theorem no_segment_replayed_twice (wire : list (Z * Z))
    (outcome : nat → RpcResult) (sb : Scoreboard) :
  reachable (parseReplicas wire) outcome sb →
  NoDup (replayed sb) ∧
  ∀ s, s ∈ replayed sb →
    (∃ i r, replicas sb !! i = Some r ∧ segmentId r = s ∧ state r = OK) ∧
    recoverable (parseReplicas wire) outcome s.
Proof.
  intros Hreach.
  pose proof (allNotStarted_parseReplicas wire) as Hall.
  pose proof (inv_replica _ _ _ (reachable_CoreInv _ _ _ Hall Hreach)) as HR.
  split; [apply HR|]. intros s Hs. split; [by apply (inv_replayed _ _ _ HR)|].
  destruct Hreach as [k Hk|sb Hloop].
  - rewrite startInitialTasks_replayed in Hs. by apply elem_of_nil in Hs.
  - by eapply inLoop_replayed_recoverable.
Qed.

Lemma no_segment_replayed_twice_witness :
  ∃ sb, eventLoop 2 0
          (buildSegmentIdToBackups (parseReplicas [(1, 42); (2, 42)]) 0 ∅)
          allReady corruptFirst
          (startRecovery (parseReplicas [(1, 42); (2, 42)])) = Some sb ∧
        NoDup (replayed sb) ∧
        ∀ s, s ∈ replayed sb →
          (∃ i r, replicas sb !! i = Some r ∧ segmentId r = s ∧
                  state r = OK) ∧
          recoverable (parseReplicas [(1, 42); (2, 42)]) corruptFirst s.
Proof.
  eexists. split; [vm_compute; reflexivity|].
  apply (no_segment_replayed_twice [(1, 42); (2, 42)] corruptFirst).
  apply reach_loop.
  eapply (eventLoop_inLoop _ _ (allNotStarted_parseReplicas _) allReady 2 0%nat).
  - apply loop_enter.
  - vm_compute. reflexivity.
Defined.

End ScoreboardExtras2.

Section ScoreboardExtras3.
Import MasterService ReplicaVector.

(** On a finished scoreboard a FAILED replica belongs to a segment that no
    RPC could fetch. *)
Lemma finished_failed_unrecoverable rs outcome sb r :
  allNotStarted rs → inLoop rs outcome sb → activeRequests sb = 0 →
  r ∈ replicas sb → state r = FAILED →
  ¬ recoverable rs outcome (segmentId r).
Proof.
  intros Hall Hloop H0 Hr Hf (i & r0 & Hi & Hs & Ho).
  destruct (finished_scoreboard _ _ _ Hall Hloop H0) as [Hterm Hclosed].
  pose proof (inv_replica _ _ _ (inv_core _ _ _
    (inLoop_LoopInv _ _ _ Hall Hloop))) as HR.
  destruct (lookup_segmentId_eq rs (replicas sb) i r0) as (x & Hx & Hxs);
    [symmetry; apply HR|done|].
  destruct (Hterm x) as [Hxok|Hxf]; [by eapply list_elem_of_lookup_2| |].
  - assert (state r = OK); [|congruence].
    eapply (Hclosed x r); [by eapply list_elem_of_lookup_2|done|congruence|done].
  - by eapply (inv_failed _ _ _ HR).
Qed.

(** X3: the helper [recover] ends under any fair scheduling, whatever
    the RPCs yield; it commits exactly when every segment id of the list
    has a replica whose RPC and replay succeed, and throws
    [SegmentRecoveryFailedException] exactly when some segment id has
    none. *)
Theorem recover_commits_iff_recoverable (wire : list (Z * Z))
    (outcome : nat → RpcResult) (ready : nat → nat → bool) :
  fair ready →
  ∃ fuel res,
    recover fuel ready outcome (parseReplicas wire) = Some res ∧
    ((∃ sb, res = Committed sb) ↔
     ∀ s, s ∈ map segmentId (parseReplicas wire) →
          recoverable (parseReplicas wire) outcome s) ∧
    ((∃ sb, res = SegmentRecoveryFailed sb) ↔
     ∃ s, s ∈ map segmentId (parseReplicas wire) ∧
          ¬ recoverable (parseReplicas wire) outcome s).
Proof.
  intros Hfair. set (rs := parseReplicas wire).
  pose proof (allNotStarted_parseReplicas wire) as Hall. fold rs in Hall.
  destruct (eventLoop_terminates rs outcome Hall ready Hfair _
              (startRecovery rs) 0%nat (loop_enter _ _) (le_n _))
    as (fuel & sb & Hrun).
  destruct (eventLoop_inLoop _ _ Hall _ _ _ _ _ (loop_enter _ _) Hrun)
    as [Hloop H0].
  destruct (finished_scoreboard _ _ _ Hall Hloop H0) as [Hterm Hclosed].
  pose proof (inv_replica _ _ _ (inv_core _ _ _
    (inLoop_LoopInv _ _ _ Hall Hloop))) as HR.
  exists fuel. unfold recover. rewrite Hrun.
  destruct (detect_finished _ Hterm Hclosed)
    as [[Hd Hok]|(F & Hd & r & Hr & Hf)]; rewrite Hd; eexists;
    (split; [reflexivity|]).
  - assert (Hrec : ∀ s, s ∈ map segmentId rs → recoverable rs outcome s).
    { intros s Hs.
      destruct (segmentIds_elem_of _ _ _ (inv_segs _ _ _ HR) Hs)
        as (x & Hx & Hxs).
      eapply inLoop_replayed_recoverable; [done..|].
      apply (inv_replayed _ _ _ HR).
      pose proof (Hok x Hx) as Hxok.
      apply list_elem_of_lookup_1 in Hx as (j & Hj).
      by exists j, x. }
    split.
    + split; [done|]. eauto.
    + split; [by intros (? & ?)|]. intros (s & Hs & Hn). by destruct Hn; auto.
  - pose proof (finished_failed_unrecoverable _ _ _ _ Hall Hloop H0 Hr Hf)
      as Hun.
    assert (Hs : segmentId r ∈ map segmentId rs).
    { eapply elem_of_segmentIds; [apply HR|done]. }
    split.
    + split; [by intros (? & ?)|]. intros Hrec. destruct Hun. by apply Hrec.
    + split; [|by eauto]. intros _. eauto.
Qed.

End ScoreboardExtras3.

Section ScoreboardExtras4.
Import MasterService ReplicaVector.

Lemma recover_commits_iff_recoverable_witness :
  fair allReady ∧
  ∃ fuel res,
    recover fuel allReady corruptFirst (parseReplicas [(1, 42); (2, 42)])
      = Some res ∧
    ((∃ sb, res = Committed sb) ↔
     ∀ s, s ∈ map segmentId (parseReplicas [(1, 42); (2, 42)]) →
          recoverable (parseReplicas [(1, 42); (2, 42)]) corruptFirst s) ∧
    ((∃ sb, res = SegmentRecoveryFailed sb) ↔
     ∃ s, s ∈ map segmentId (parseReplicas [(1, 42); (2, 42)]) ∧
          ¬ recoverable (parseReplicas [(1, 42); (2, 42)]) corruptFirst s).
Proof.
  split; [apply fair_allReady|].
  apply (recover_commits_iff_recoverable [(1, 42); (2, 42)] corruptFirst
           allReady).
  apply fair_allReady.
Defined.

Lemma lastState_cons s r rs :
  lastState s (r :: rs) =
  match lastState s rs with
  | Some st => Some st
  | None => if decide (segmentId r = s) then Some (state r) else None
  end.
Proof.
  unfold lastState. rewrite filter_cons.
  destruct (decide (segmentId r = s)) as [He|Hne];
    [rewrite last_cons|]; by destruct (last _).
Qed.

Lemma scanFailures_last rs : ∀ F0,
  match scanFailures F0 rs with
  | Some F =>
      (∀ r, r ∈ rs → state r = OK ∨ state r = FAILED) ∧
      ∀ s, s ∈ F ↔ lastState s rs = Some FAILED ∨
                   (lastState s rs = None ∧ s ∈ F0)
  | None => ∃ r, r ∈ rs ∧ (state r = WAITING ∨ state r = NOT_STARTED)
  end.
Proof.
  induction rs as [|r rs IH]; intros F0; simpl.
  - split; [by intros r ?%elem_of_nil|]. intros s. unfold lastState. simpl.
    naive_solver.
  - destruct (state r) eqn:Hst.
    + exists r. split; [left|auto].
    + exists r. split; [left|auto].
    + specialize (IH (F0 ∖ {[segmentId r]})).
      destruct (scanFailures _ rs) as [F|].
      * destruct IH as [Hterm HF]. split.
        { intros x [->|Hx]%elem_of_cons; auto. }
        intros s. rewrite HF, lastState_cons, Hst.
        destruct (lastState s rs) as [st|]; [naive_solver|].
        destruct (decide (segmentId r = s)) as [He|Hne]; set_solver.
      * destruct IH as (x & Hx & Hp). exists x. split; [by right|done].
    + specialize (IH ({[segmentId r]} ∪ F0)).
      destruct (scanFailures _ rs) as [F|].
      * destruct IH as [Hterm HF]. split.
        { intros x [->|Hx]%elem_of_cons; auto. }
        intros s. rewrite HF, lastState_cons, Hst.
        destruct (lastState s rs) as [st|]; [naive_solver|].
        destruct (decide (segmentId r = s)) as [He|Hne]; set_solver.
      * destruct IH as (x & Hx & Hp). exists x. split; [by right|done].
Qed.

(** X4: on any replica vector [detectSegmentRecoveryFailure] fails its
    assertion exactly when a replica is WAITING or NOT_STARTED; otherwise
    the last replica of a segment id in the vector decides: the segments
    the exception reports are those whose last replica is FAILED, and
    nothing is thrown only when no segment's last replica is FAILED. *)
Theorem detect_reports_last_replica (rs : list Replica) :
  (detectSegmentRecoveryFailure rs = AssertionFailed ↔
   ∃ r, r ∈ rs ∧ (state r = WAITING ∨ state r = NOT_STARTED)) ∧
  (∀ F, detectSegmentRecoveryFailure rs = SegmentRecoveryFailedException F →
        ∀ s, s ∈ F ↔ lastState s rs = Some FAILED) ∧
  (detectSegmentRecoveryFailure rs = NoFailure →
   ∀ s, lastState s rs ≠ Some FAILED).
Proof.
  unfold detectSegmentRecoveryFailure.
  pose proof (scanFailures_last rs ∅) as H.
  destruct (scanFailures ∅ rs) as [F|].
  - destruct H as [Hterm HF].
    assert (HF' : ∀ s, s ∈ F ↔ lastState s rs = Some FAILED).
    { intros s. rewrite HF. set_solver. }
    split; [|split].
    + split; [by destruct (decide _)|].
      intros (r & Hr & Hp). destruct (Hterm r Hr); destruct Hp; congruence.
    + destruct (decide (F = ∅)); intros F1 ?; simplify_eq. done.
    + destruct (decide (F = ∅)) as [->|]; [|done].
      intros _ s Hs. apply HF' in Hs. set_solver.
  - split; [|split]; done.
Qed.

End ScoreboardExtras4.

Section InitialRound.
Import MasterService.

Lemma startInitialTasks_count slots : ∀ it sb,
  (∀ s, s ∈ runningSet sb ↔
        ∃ j r, (j < it)%nat ∧ replicas sb !! j = Some r ∧ segmentId r = s) →
  (∀ r, replicas sb !! it = Some r → segmentId r ∉ runningSet sb) →
  activeRequests sb = Z.of_nat (size (runningSet sb)) →
  (size (runningSet sb) + Datatypes.length slots ≤ 4)%nat →
  let res := (startInitialTasks slots it sb).2 in
  map segmentId (replicas res) = map segmentId (replicas sb) ∧
  activeRequests res = Z.of_nat (size (runningSet res)) ∧
  (size (runningSet res) ≤ size (runningSet sb) + Datatypes.length slots)%nat ∧
  (∀ s, s ∈ runningSet res → s ∈ map segmentId (replicas sb)) ∧
  (size (runningSet res) = (size (runningSet sb) + Datatypes.length slots)%nat
   ∨ ∀ s, s ∈ map segmentId (replicas sb) → s ∈ runningSet res).
Proof.
  induction slots as [|slot slots IH]; intros it sb HR Hcur Hact Hsize; simpl.
  - split; [done|]. split; [done|]. split; [lia|]. split; [|left; lia].
    intros s (j & r & _ & Hj & <-)%HR.
    apply list_elem_of_In, in_map. apply list_elem_of_In.
    by eapply list_elem_of_lookup_2.
  - simpl in Hsize. destruct (replicas sb !! it) as [r|] eqn:Hit.
    + set (rs' := <[it := setState WAITING r]> (replicas sb)).
      set (R' := {[segmentId r]} ∪ runningSet sb).
      pose proof (skipRunning_spec R' rs' (S it)) as (Hle & Hmid & Hend).
      assert (Hsegs : map segmentId rs' = map segmentId (replicas sb))
        by (by apply map_segmentId_setState).
      assert (Hlook : ∀ j x, rs' !! j = Some x →
                ∃ x0, replicas sb !! j = Some x0 ∧ segmentId x0 = segmentId x)
        by (intros j x; by apply lookup_segmentId_eq).
      assert (Hlook' : ∀ j x0, replicas sb !! j = Some x0 →
                ∃ x, rs' !! j = Some x ∧ segmentId x = segmentId x0).
      { intros j x0. apply lookup_segmentId_eq. done. }
      assert (Hnew : segmentId r ∉ runningSet sb) by (by apply Hcur).
      assert (HsizeR : size R' = S (size (runningSet sb))).
      { unfold R'. rewrite size_union by set_solver.
        by rewrite size_singleton. }
      edestruct (IH (skipRunning R' (drop (S it) rs') (S it))
                   (mkScoreboard rs' R' (<[slot := Some it]> (tasks sb))
                      (wrap32 (activeRequests sb + 1)) (notStarted sb)
                      (replayed sb)))
        as (IH1 & IH2 & IH3 & IH4 & IH5); simpl.
      * intros s. split.
        -- intros [->%elem_of_singleton|Hs]%elem_of_union.
           ++ destruct (Hlook' it r Hit) as (x & Hx & Hxs).
              exists it, x. split; [lia|done].
           ++ apply HR in Hs as (j & x0 & Hj & Hx0 & <-).
              destruct (Hlook' j x0 Hx0) as (x & Hx & Hxs).
              exists j, x. split; [lia|done].
        -- intros (j & x & Hj & Hx & <-).
           destruct (decide (j < it)%nat) as [Hlt|Hge].
           ++ apply elem_of_union. right. apply HR.
              destruct (Hlook j x Hx) as (x0 & Hx0 & Hxs).
              exists j, x0. done.
           ++ destruct (decide (j = it)) as [->|Hne].
              ** destruct (Hlook it x Hx) as (x0 & Hx0 & Hxs).
                 rewrite Hit in Hx0. simplify_eq. rewrite <- Hxs.
                 apply elem_of_union. left. by apply elem_of_singleton.
              ** apply (Hmid j x); [lia|done].
      * done.
      * rewrite HsizeR, Hact. unfold wrap32. rewrite Z.mod_small; lia.
      * rewrite HsizeR. lia.
      * simpl in IH1, IH3, IH4, IH5. rewrite IH1, Hsegs. split; [done|]. split; [done|].
        split; [rewrite HsizeR in IH3; lia|].
        rewrite Hsegs in IH4, IH5. split; [done|].
        destruct IH5 as [IH5|IH5]; [left; rewrite HsizeR in IH5; lia|by right].
    + simpl. split; [done|]. split; [done|]. split; [lia|]. split.
      * intros s (j & r & _ & Hj & <-)%HR.
        apply list_elem_of_In, in_map. apply list_elem_of_In.
        by eapply list_elem_of_lookup_2.
      * right. intros s Hs. apply list_elem_of_In, in_map_iff in Hs
          as (r & <- & Hr). apply list_elem_of_In in Hr.
        apply list_elem_of_lookup_1 in Hr as (j & Hj).
        apply HR. exists j, r. split; [|done].
        apply lookup_ge_None in Hit. apply lookup_lt_Some in Hj. lia.
Qed.

(** X1: when the event loop of the helper [recover] is entered, the
    initial round has started one request per distinct segment id until
    the four slots are taken: [activeRequests] is the number of segment
    ids in [runningSet], these are segment ids of the replica list, and
    there are as many as the smaller of four and the number of distinct
    segment ids of the list. *)
Theorem initial_round_one_request_per_segment (rs : list Replica) :
  let sb := startRecovery rs in
  let segments : gset Z := list_to_set (map segmentId rs) in
  activeRequests sb = Z.of_nat (size (runningSet sb)) ∧
  runningSet sb ⊆ segments ∧
  size (runningSet sb) = Nat.min 4 (size segments).
Proof.
  cbv zeta. unfold startRecovery.
  assert (HR0 : runningSet (initScoreboard rs) = ∅) by done.
  assert (HA0 : activeRequests (initScoreboard rs) = 0) by done.
  assert (Hrs0 : replicas (initScoreboard rs) = rs) by done.
  assert (Hlen : Datatypes.length (seq 0 numTasks) = 4%nat) by done.
  destruct (startInitialTasks_count (seq 0 numTasks) 0%nat (initScoreboard rs))
    as (H1 & H2 & H3 & H4 & H5).
  - intros s. rewrite HR0. split; [set_solver|].
    intros (j & r & Hj & _); lia.
  - rewrite HR0. set_solver.
  - by rewrite HR0, HA0, size_empty.
  - rewrite HR0, Hlen, size_empty. lia.
  - rewrite HR0, Hlen, size_empty in H3, H5. rewrite Hrs0 in H4, H5.
    set (R := runningSet
       (startInitialTasks (seq 0 numTasks) 0 (initScoreboard rs)).2) in *.
    split; [done|].
    assert (Hsub : R ⊆ (list_to_set (map segmentId rs) : gset Z)).
    { intros s Hs. apply elem_of_list_to_set. by apply H4. }
    split; [done|].
    pose proof (subseteq_size _ _ Hsub) as Hle.
    destruct H5 as [H5|H5]; [lia|].
    assert (Heq : size R = size (list_to_set (map segmentId rs) : gset Z)).
    { apply Nat.le_antisymm; [done|]. apply subseteq_size.
      intros s Hs. apply H5. by apply elem_of_list_to_set in Hs. }
    lia.
Qed.

End InitialRound.

(* ================================================================== *)
(** * Further properties of the RECOVER handler *)
(* ================================================================== *)

Section RecoverRpcExtras2.
Import TabletManager RecoverRpc ReplicaVector.

(** How the handler gets to its second half. *)
Lemma recover_Returned req env m m' :
  recover req env m = (Returned, m') →
  ∃ m2 ct successful,
    installTablets (tablets req)
      (emit GetLeaseInfoStarted (emit SendReply m)) = (true, m2) ∧
    complete req env successful
      (emit HeadRolledOver
         (emit (ClusterTimeUpdated ct)
            (mkMaster ct (tabletManager m2) (trace m2)))) = (Returned, m').
Proof.
  unfold recover, prepare.
  destruct (decide (partitionId req = 4294967295)); [done|].
  destruct (installTablets _ _) as [[] m2] eqn:Hinst; [|done].
  destruct (updateClusterTime _ _ _) as [ct|]; [|done].
  destruct (MasterService.recover _ _ _ _) as [[sb|sb|sb]|]; try done;
    intros H; eauto.
Qed.

(** X5: when the RECOVER handler returns and the coordinator answers
    [recoveryMasterFinished] with a cancellation, the tablet table is what
    it was before the request: the tablets installed as RECOVERING are
    removed and no other tablet is touched. *)
Theorem cancelled_recovery_restores_tablets
    (req : Request) (env : Environment) (m m' : Master) :
  wellFormed (tabletManager m) →
  (∀ successful, cancelRecovery env successful = true) →
  recover req env m = (Returned, m') →
  tabletManager m' = tabletManager m.
Proof.
  intros Hwf Hcancel Hrec.
  apply recover_Returned in Hrec as (m2 & ct & successful & Hinst & Hc).
  apply installTablets_true in Hinst as [Htm Hout]. simpl in *.
  unfold complete in Hc. rewrite Hcancel in Hc. simplify_eq. simpl.
  rewrite deleteTablets_tabletManager. simpl. rewrite Htm, filter_app.
  rewrite filter_keep_all, filter_drop_all, app_nil_r; [done| |].
  - intros t Ht. rewrite inPartition_recovering; done.
  - intros t Ht. apply Hout; [done|]. by eapply wellFormed_elem_of.
Qed.

(** X6: when the RECOVER handler returns and the coordinator does not
    cancel, every tablet of the request is in the table in state NORMAL,
    every tablet held before is still there, and the table has grown by
    the number of tablets of the request. *)
Theorem recovered_tablets_normal
    (req : Request) (env : Environment) (m m' : Master) :
  wellFormed (tabletManager m) →
  (∀ successful, cancelRecovery env successful = false) →
  recover req env m = (Returned, m') →
  (∀ p, p ∈ tablets req →
        mkTablet p.1.1 p.1.2 p.2 NORMAL ∈ tabletManager m') ∧
  (∀ t, t ∈ tabletManager m → t ∈ tabletManager m') ∧
  length (tabletManager m') =
    (length (tabletManager m) + length (tablets req))%nat.
Proof.
  intros Hwf Hcancel Hrec.
  apply recover_Returned in Hrec as (m2 & ct & successful & Hinst & Hc).
  apply installTablets_true in Hinst as [Htm Hout]. simpl in *.
  unfold complete in Hc. rewrite Hcancel in Hc.
  destruct (markTabletsNormal _ _) as [[] m5] eqn:Hmark; [|done].
  apply markTabletsNormal_true in Hmark as (Hall & _ & Hother & Hlen).
  simpl in *.
  destruct (indexletsChanged env); simplify_eq. simpl.
  split; [done|]. split.
  - intros t Ht. apply Hother.
    + rewrite Htm. apply elem_of_app. by left.
    + apply Hout; [done|]. by eapply wellFormed_elem_of.
  - rewrite Hlen, Htm, length_app. unfold recoveringTablets.
    by rewrite length_map.
Qed.

(** X7: when the RECOVER handler ends with the exception for a tablet
    that overlaps one of the table, the tablets of the request before the
    overlapping one stay in the table as RECOVERING, the overlap is still
    there, the cluster time is unchanged, and the reply was sent before
    any tablet was added. *)
Theorem overlap_leaves_tablets_recovering
    (req : Request) (env : Environment) (m m' : Master) :
  recover req env m = (OverlapException, m') →
  ∃ pre p rest,
    tablets req = pre ++ p :: rest ∧
    tabletManager m' = tabletManager m ++ recoveringTablets pre ∧
    existsb (overlaps p.1.1 p.1.2 p.2) (tabletManager m') = true ∧
    clusterTime m' = clusterTime m ∧
    trace m' = trace m ++ [SendReply; GetLeaseInfoStarted] ++
               map (λ q : Z * Z * Z, TabletAdded q.1.1 q.1.2 q.2) pre.
Proof.
  unfold recover, prepare.
  destruct (decide (partitionId req = 4294967295)); [done|].
  destruct (installTablets _ _) as [[] m2] eqn:Hinst.
  - destruct (updateClusterTime _ _ _) as [ct|]; [|done].
    destruct (MasterService.recover _ _ _ _) as [[sb|sb|sb]|]; try done;
      unfold complete; destruct (cancelRecovery env _); try done;
      destruct (markTabletsNormal _ _) as [[] m5]; try done;
      by destruct (indexletsChanged env).
  - intros ?; simplify_eq.
    apply installTablets_false in Hinst
      as (pre & p & rest & Hts & Htm & Ho & Hct & Htr).
    simpl in *. exists pre, p, rest. rewrite <- !app_assoc in Htr. done.
Qed.

End RecoverRpcExtras2.

Section RecoverRpcExtras3.
Import TabletManager RecoverRpc ReplicaVector.

Lemma cancelled_recovery_restores_tablets_witness :
  ∃ m',
    recover requestS5
      (mkEnvironment 100 [50] 5 MasterService.allReady
         MasterService.corruptFirst (λ _, true) true)
      (mkMaster 7 [mkTablet 2 0 9 NORMAL] []) = (Returned, m') ∧
    tabletManager m' = [mkTablet 2 0 9 NORMAL].
Proof.
  eexists. split; [vm_compute; reflexivity|].
  apply (cancelled_recovery_restores_tablets requestS5
           (mkEnvironment 100 [50] 5 MasterService.allReady
              MasterService.corruptFirst (λ _, true) true)
           (mkMaster 7 [mkTablet 2 0 9 NORMAL] [])).
  - simpl. split; [lia|done].
  - done.
  - vm_compute. reflexivity.
Defined.

Lemma recovered_tablets_normal_witness :
  ∃ m',
    recover requestS5 environmentS5 (mkMaster 7 [mkTablet 2 0 9 NORMAL] [])
      = (Returned, m') ∧
    (∀ p, p ∈ tablets requestS5 →
          mkTablet p.1.1 p.1.2 p.2 NORMAL ∈ tabletManager m') ∧
    (∀ t, t ∈ [mkTablet 2 0 9 NORMAL] → t ∈ tabletManager m') ∧
    length (tabletManager m') = (1 + length (tablets requestS5))%nat.
Proof.
  eexists. split; [vm_compute; reflexivity|].
  apply (recovered_tablets_normal requestS5 environmentS5
           (mkMaster 7 [mkTablet 2 0 9 NORMAL] [])).
  - simpl. split; [lia|done].
  - done.
  - vm_compute. reflexivity.
Defined.

Lemma overlap_leaves_tablets_recovering_witness :
  ∃ m',
    recover (mkRequest 1 99 0 [(2, 0, 9); (1, 0, 9)] [(1, 42); (2, 42)])
      environmentS5 (mkMaster 7 [mkTablet 1 5 20 NORMAL] [])
      = (OverlapException, m') ∧
    ∃ pre p rest,
      [(2, 0, 9); (1, 0, 9)] = pre ++ p :: rest ∧
      tabletManager m' = [mkTablet 1 5 20 NORMAL] ++ recoveringTablets pre ∧
      existsb (overlaps p.1.1 p.1.2 p.2) (tabletManager m') = true ∧
      clusterTime m' = 7 ∧
      trace m' = [] ++ [SendReply; GetLeaseInfoStarted] ++
                 map (λ q : Z * Z * Z, TabletAdded q.1.1 q.1.2 q.2) pre.
Proof.
  eexists. split; [vm_compute; reflexivity|].
  apply (overlap_leaves_tablets_recovering
           (mkRequest 1 99 0 [(2, 0, 9); (1, 0, 9)] [(1, 42); (2, 42)])
           environmentS5 (mkMaster 7 [mkTablet 1 5 20 NORMAL] [])).
  vm_compute. reflexivity.
Defined.

End RecoverRpcExtras3.

(* ================================================================== *)
(** * Further properties of tablet migration *)
(* ================================================================== *)

Section MigrationExtras.
Import TabletManager Migration MigrationReading.

Lemma segmentBytes_snoc seg e :
  segmentBytes (seg ++ [e]) = segmentBytes seg + entrySize e.
Proof.
  unfold segmentBytes. induction seg as [|x seg IH]; simpl; lia.
Qed.

Lemma receiveRpcs_app req s1 s2 :
  receiveRpcs req (s1 ++ s2) = receiveRpcs req s1 ++ receiveRpcs req s2.
Proof. unfold receiveRpcs. apply map_app. Qed.

(** What one append does to the RPCs and to the segment being filled. *)
Lemma appendToTransfer_rpcs capacity req e tr err tr' :
  appendToTransfer capacity req e tr = (err, tr') →
  (err = 0 ∨ (err = 1 ∧ status tr' = STATUS_INTERNAL_ERROR)) ∧
  ∃ segs, rpcs tr' = rpcs tr ++ receiveRpcs req segs ∧
    (err = 0 →
     (transferSeg tr = None ∨
      ∃ seg, transferSeg tr = Some seg ∧ goodSegment capacity seg) →
     Forall (goodSegment capacity) segs ∧
     ∃ seg', transferSeg tr' = Some seg' ∧ goodSegment capacity seg').
Proof.
  unfold appendToTransfer, segmentAppend.
  destruct (decide (segmentBytes (default [] (transferSeg tr)) + entrySize e
                    ≤ capacity)) as [Hfit|Hnofit].
  - intros ?; simplify_eq. split; [by left|]. exists []. simpl.
    rewrite app_nil_r. split; [done|]. intros _ Hseg. split; [done|].
    eexists. split; [done|]. split; [by destruct (default _ _)|].
    by rewrite segmentBytes_snoc.
  - destruct (decide (segmentBytes [] + entrySize e ≤ capacity))
      as [Hfit'|Hnofit'].
    + intros ?; simplify_eq. split; [by left|].
      exists [default [] (transferSeg tr)]. simpl. split; [done|].
      intros _ [Hnone|(seg & Hseg & Hgood)].
      * rewrite Hnone in Hnofit. simpl in *. lia.
      * rewrite Hseg. simpl. split; [by constructor|].
        eexists. split; [done|]. split; [done|].
        change [e] with ([] ++ [e]). rewrite segmentBytes_snoc. done.
    + intros ?; simplify_eq. split; [by right|].
      exists [default [] (transferSeg tr)]. simpl. split; [done|]. lia.
Qed.

Lemma migrateEntries_rpcs capacity ht req log : ∀ tr err tr',
  migrateEntries capacity ht req log tr = (err, tr') →
  (err = 0 ∨ (err = 1 ∧ status tr' = STATUS_INTERNAL_ERROR)) ∧
  ∃ segs, rpcs tr' = rpcs tr ++ receiveRpcs req segs ∧
    (err = 0 →
     (transferSeg tr = None ∨
      ∃ seg, transferSeg tr = Some seg ∧ goodSegment capacity seg) →
     Forall (goodSegment capacity) segs ∧
     (transferSeg tr' = None ∨
      ∃ seg', transferSeg tr' = Some seg' ∧ goodSegment capacity seg')).
Proof.
  induction log as [|e log IH]; intros tr err tr'; simpl.
  - intros ?; simplify_eq. split; [by left|]. exists []. simpl.
    rewrite app_nil_r. split; [done|]. intros _ Hseg. done.
  - rewrite migrateSingleLogEntry_filter.
    destruct (shouldMigrate ht req e).
    + destruct (appendToTransfer capacity req e tr) as [err1 tr1] eqn:Happ.
      apply appendToTransfer_rpcs in Happ as (Herr1 & segs1 & Hr1 & Hok1).
      destruct (decide (err1 = 0)) as [->|Hne].
      * intros H. apply IH in H as (Herr & segs & Hr & Hok).
        split; [done|]. exists (segs1 ++ segs).
        rewrite receiveRpcs_app, app_assoc, <- Hr1. split; [done|].
        intros He Hseg. destruct (Hok1 eq_refl Hseg) as [Hg1 Hs1].
        destruct (Hok He (or_intror Hs1)) as [Hg Hs].
        split; [by apply Forall_app|done].
      * intros ?; simplify_eq. split; [by destruct Herr1; auto|].
        exists segs1. split; [done|]. intros ->. destruct Herr1 as [?|[? _]]; done.
    + intros H. by apply IH in H.
Qed.

End MigrationExtras.

Section MigrationExtras2.
Import TabletManager Migration MigrationReading.


Lemma getTablet_deleteTablet tid first last tm :
  getTablet tid first last (deleteTablet tid first last tm) = None.
Proof.
  unfold getTablet, deleteTablet. induction tm as [|x tm IH]; [done|].
  rewrite filter_cons.
  destruct (decide (isTablet tid first last x = false)) as [Hx|Hx]; [|done].
  simpl. by rewrite Hx.
Qed.

(** The successful run of [migrateTablet], step by step. *)
Lemma migrateTablet_OK capacity req env log1 log2 m rs m' :
  migrateTablet capacity req env log1 log2 m = (STATUS_OK, rs, m') →
  ∃ segs,
    rs = [PrepForMigration (newOwnerMasterId req) (tableId req)
            (firstKeyHash req) (lastKeyHash req);
          GetHeadOfLog (newOwnerMasterId req)] ++
         receiveRpcs req segs ++
         [ReassignTabletOwnership (tableId req) (firstKeyHash req)
            (lastKeyHash req) (newOwnerMasterId req)
            (newOwnerLogHead env).1 (newOwnerLogHead env).2] ∧
    Forall (goodSegment capacity) segs ∧
    tabletManager m' =
      deleteTablet (tableId req) (firstKeyHash req) (lastKeyHash req)
        (changeState (tableId req) (firstKeyHash req) (lastKeyHash req)
           NORMAL LOCKED_FOR_MIGRATION (tabletManager m)).2.
Proof.
  unfold migrateTablet.
  destruct (getTablet _ _ _ _) as [t|]; [|done].
  destruct (decide (newOwnerMasterId req = serverId m)); [done|].
  destruct (decide (prepStatus env ≠ STATUS_OK)) as [Hp|Hp];
    [by intros ?; simplify_eq|].
  destruct (migrateEntries capacity (hashTable m) req log1 _)
    as [error1 tr1] eqn:H1.
  apply migrateEntries_rpcs in H1 as (He1 & segs1 & Hr1 & Hok1).
  destruct (decide (error1 ≠ 0)) as [Hn1|Hz1].
  { intros ?; simplify_eq. destruct He1 as [?|[_ ?]]; congruence. }
  apply dec_stable in Hz1. subst error1.
  destruct (Hok1 eq_refl (or_introl eq_refl)) as [Hg1 Hs1].
  destruct (migrateEntries capacity (hashTable m) req log2 tr1)
    as [error2 tr2] eqn:H2.
  apply migrateEntries_rpcs in H2 as (He2 & segs2 & Hr2 & Hok2).
  destruct (decide (error2 ≠ 0)) as [Hn2|Hz2].
  { intros ?; simplify_eq. destruct He2 as [?|[_ ?]]; congruence. }
  apply dec_stable in Hz2. subst error2.
  destruct (Hok2 eq_refl Hs1) as [Hg2 Hs2].
  destruct (decide (reassignStatus env ≠ STATUS_OK)) as [Hr|Hr];
    [by intros ?; simplify_eq|].
  intros ?; simplify_eq. simpl in Hr1.
  destruct Hs2 as [Hnone|(seg & Hseg & Hgood)].
  - exists (segs1 ++ segs2). rewrite Hnone, Hr2, Hr1, receiveRpcs_app.
    split; [by rewrite <- !app_assoc|]. split; [by apply Forall_app|done].
  - exists (segs1 ++ segs2 ++ [seg]).
    rewrite Hseg, Hr2, Hr1, !receiveRpcs_app.
    split; [by rewrite <- !app_assoc|].
    split; [|done]. rewrite !Forall_app. repeat split; try done.
    by constructor.
Qed.

(** X8: a migration answered STATUS_OK has sent, in this order,
    PrepForMigration, GetHeadOfLog, the segments by ReceiveMigrationData
    and last ReassignTabletOwnership with the log head the new owner
    reported; afterwards the master no longer holds the migrated tablet and
    still holds every other tablet it had. *)
Theorem migration_hands_over_in_order (capacity : Z) (req : Request)
    (env : Environment) (log1 log2 : list LogEntry) (m m' : Master)
    (rs : list Rpc) :
  migrateTablet capacity req env log1 log2 m = (STATUS_OK, rs, m') →
  (∃ segs,
     rs = [PrepForMigration (newOwnerMasterId req) (tableId req)
             (firstKeyHash req) (lastKeyHash req);
           GetHeadOfLog (newOwnerMasterId req)] ++
          receiveRpcs req segs ++
          [ReassignTabletOwnership (tableId req) (firstKeyHash req)
             (lastKeyHash req) (newOwnerMasterId req)
             (newOwnerLogHead env).1 (newOwnerLogHead env).2]) ∧
  getTablet (tableId req) (firstKeyHash req) (lastKeyHash req)
    (tabletManager m') = None ∧
  ∀ t, t ∈ tabletManager m →
       isTablet (tableId req) (firstKeyHash req) (lastKeyHash req) t = false →
       t ∈ tabletManager m'.
Proof.
  intros H. apply migrateTablet_OK in H as (segs & Hrs & _ & ->).
  split; [eauto|]. split; [apply getTablet_deleteTablet|].
  intros t Ht Hne. unfold deleteTablet. apply list_elem_of_filter.
  split; [done|].
  destruct (changeState _ _ _ _ _ _) as [c tm'] eqn:Hc.
  by eapply changeState_other.
Qed.

(** X9: every segment a migration answered STATUS_OK has sent holds at
    least one entry and is no larger than the capacity of a segment. *)
Theorem migration_segments_fit (capacity : Z) (req : Request)
    (env : Environment) (log1 log2 : list LogEntry) (m m' : Master)
    (rs : list Rpc) :
  migrateTablet capacity req env log1 log2 m = (STATUS_OK, rs, m') →
  ∀ seg, seg ∈ sentSegments rs →
         seg ≠ [] ∧ segmentBytes seg ≤ capacity.
Proof.
  intros H. apply migrateTablet_OK in H as (segs & -> & Hgood & _).
  intros seg Hseg. unfold sentSegments in Hseg.
  apply list_elem_of_omap in Hseg as (r & Hr & Hs).
  rewrite !elem_of_app, !elem_of_cons, !elem_of_nil in Hr.
  destruct Hr as [[->|[->|[]]]|[Hr|[->|[]]]]; simplify_eq.
  unfold receiveRpcs in Hr. apply list_elem_of_fmap in Hr as (s & -> & Hin).
  simplify_eq. eapply Forall_forall in Hgood; [apply Hgood|done].
Qed.

End MigrationExtras2.

Section MigrationExtras3.
Import TabletManager Migration MigrationReading.

Lemma migration_hands_over_in_order_witness :
  ∃ rs m',
    migrateTablet 100 requestS6 (mkEnvironment STATUS_OK (3, 0) STATUS_OK)
      [objectV1; tombstoneV1] [objectV2]
      (mkMaster 1 [mkTablet 1 0 9 NORMAL; mkTablet 1 10 19 NORMAL]
         hashTableS6) = (STATUS_OK, rs, m') ∧
    (∃ segs,
       rs = [PrepForMigration 2 1 0 9; GetHeadOfLog 2] ++
            receiveRpcs requestS6 segs ++
            [ReassignTabletOwnership 1 0 9 2 3 0]) ∧
    getTablet 1 0 9 (tabletManager m') = None ∧
    ∀ t, t ∈ [mkTablet 1 0 9 NORMAL; mkTablet 1 10 19 NORMAL] →
         isTablet 1 0 9 t = false → t ∈ tabletManager m'.
Proof.
  eexists _, _. split; [vm_compute; reflexivity|].
  apply (migration_hands_over_in_order 100 requestS6
           (mkEnvironment STATUS_OK (3, 0) STATUS_OK)
           [objectV1; tombstoneV1] [objectV2]
           (mkMaster 1 [mkTablet 1 0 9 NORMAL; mkTablet 1 10 19 NORMAL]
              hashTableS6)).
  vm_compute. reflexivity.
Defined.

Lemma migration_segments_fit_witness :
  ∃ rs m',
    migrateTablet 50 requestS6 (mkEnvironment STATUS_OK (3, 0) STATUS_OK)
      [objectV1; tombstoneV1] [objectV2]
      (mkMaster 1 [mkTablet 1 0 9 NORMAL] hashTableS6)
      = (STATUS_OK, rs, m') ∧
    sentSegments rs = [[tombstoneV1]; [objectV2]] ∧
    ∀ seg, seg ∈ sentSegments rs → seg ≠ [] ∧ segmentBytes seg ≤ 50.
Proof.
  eexists _, _. split; [vm_compute; reflexivity|]. split; [reflexivity|].
  eapply (migration_segments_fit 50 requestS6
           (mkEnvironment STATUS_OK (3, 0) STATUS_OK)
           [objectV1; tombstoneV1] [objectV2]
           (mkMaster 1 [mkTablet 1 0 9 NORMAL] hashTableS6)).
  vm_compute. reflexivity.
Defined.





End MigrationExtras3.

(* ================================================================== *)
(** * The properties of the destination of a migration *)
(* ================================================================== *)

Section MigrationTargetExtras.
Import MigrationTarget TabletManager.

Lemma holds_true tid h t :
  KeyHashLookup.holds tid h t = true ↔
  tableId t = tid ∧ startKeyHash t ≤ h ≤ endKeyHash t.
Proof. unfold KeyHashLookup.holds. apply bool_decide_eq_true. Qed.

(** In a well-formed table the tablet that holds a key hash is unique. *)
Lemma keyHash_getTablet_wellFormed tid h tm t :
  wellFormed tm → t ∈ tm → KeyHashLookup.holds tid h t = true →
  KeyHashLookup.getTablet tid h tm = Some t.
Proof.
  unfold KeyHashLookup.getTablet. induction tm as [|x tm IH]; simpl;
    [by intros _ ?%elem_of_nil|].
  intros (Hx & Hno & Hwf) Ht Hex.
  destruct (KeyHashLookup.holds tid h x) eqn:Hxe.
  - apply elem_of_cons in Ht as [->|Ht]; [done|exfalso].
    apply holds_true in Hex as (? & ? & ?).
    apply holds_true in Hxe as (? & ? & ?).
    pose proof (existsb_overlaps_false _ _ _ _ _ Hno Ht) as Hf.
    assert (overlaps (tableId x) (startKeyHash x) (endKeyHash x) t = true)
      by (apply overlaps_true; lia).
    congruence.
  - apply elem_of_cons in Ht as [->|Ht]; [congruence|]. by apply IH.
Qed.

Lemma existsb_overlaps_iff tid first last (tm : list Tablet) :
  existsb (overlaps tid first last) tm = false ↔
  ∀ t, t ∈ tm → overlaps tid first last t = false.
Proof.
  split; [intros H t Ht; by eapply existsb_overlaps_false|].
  intros H. destruct (existsb _ tm) eqn:He; [|done].
  apply existsb_exists in He as (t & Ht & Ho).
  rewrite H in Ho; [done|]. by apply list_elem_of_In.
Qed.

End MigrationTargetExtras.

Section MigrationTargetExtras3.
Import MigrationTarget TabletManager.

(** Taking ownership of a tablet that is there in state RECOVERING. *)
Lemma takeTabletOwnership_recovering tid first last om :
  wellFormed (Ownership.tabletManager om) →
  mkTablet tid first last RECOVERING ∈ Ownership.tabletManager om →
  ∃ tm2,
    (Ownership.takeTabletOwnership tid first last om).1 = STATUS_OK ∧
    Ownership.tabletManager
      (Ownership.takeTabletOwnership tid first last om).2 = tm2 ∧
    wellFormed tm2 ∧ mkTablet tid first last NORMAL ∈ tm2.
Proof.
  intros Hwf Hin.
  pose proof (wellFormed_elem_of _ _ Hwf Hin) as Hne. simpl in Hne.
  assert (Hex : isTablet tid first last (mkTablet tid first last RECOVERING)
                = true) by (by apply isTablet_true).
  destruct (changeState_found _ _ _ _ NORMAL _ _ Hwf Hin Hex eq_refl)
    as (tm2 & Hch & Hnormal & _ & _).
  simpl in Hch.
  pose proof (changeState_wellFormed _ _ _ _ _ _ _ _ Hwf Hch) as Hwf2.
  pose proof (getTablet_wellFormed _ _ _ _ _ Hwf Hin Hex) as Hget.
  exists tm2. unfold Ownership.takeTabletOwnership, addTablet.
  destruct (Ownership.logEverSynced om); simpl;
    rewrite (existsb_overlaps_elem_of _ _ _ _ _ Hin)
      by (apply overlaps_true; simpl; lia);
    simpl; rewrite Hget; simpl; rewrite Hch; done.
Qed.

(** X12: after a PREP_FOR_MIGRATION answered STATUS_OK, a
    RECEIVE_MIGRATION_DATA for the tablet whose payload has the advertised
    length and whose segment is intact is answered STATUS_OK and replays
    the entries; TAKE_TABLET_OWNERSHIP of the range is answered STATUS_OK;
    and the same data sent after it is answered STATUS_INTERNAL_ERROR, the
    master being left as it is. *)
Theorem migration_data_between_prep_and_take
    (tid first last : Z) (tm tm1 : list Tablet) (req : Request)
    (entries : list Migration.LogEntry)
    (objs : gmap (Z * Z) Migration.LogEntry) (om : Ownership.Master) :
  wellFormed tm → first ≤ last →
  prepForMigration tid first last tm = (STATUS_OK, tm1) →
  MigrationTarget.tableId req = tid → firstKeyHash req = first →
  payloadBytes req = wrap32 (segmentBytes req + keyLength req) →
  segment req = Some entries →
  Ownership.tabletManager om = tm1 →
  receiveMigrationData req (mkMaster tm1 objs)
    = (Replied STATUS_OK,
       mkMaster tm1 (Migration.replayEntries entries objs)) ∧
  (Ownership.takeTabletOwnership tid first last om).1 = STATUS_OK ∧
  receiveMigrationData req
    (mkMaster
       (Ownership.tabletManager
          (Ownership.takeTabletOwnership tid first last om).2) objs)
    = (Replied STATUS_INTERNAL_ERROR,
       mkMaster
         (Ownership.tabletManager
            (Ownership.takeTabletOwnership tid first last om).2) objs).
Proof.
  intros Hwf Hle Hprep Htid Hfirst Hsize Hseg Hom.
  assert (Hadd : addTablet tid first last RECOVERING tm = (true, tm1)).
  { unfold prepForMigration in Hprep.
    destruct (addTablet tid first last RECOVERING tm) as [[] tm'];
      [by simplify_eq|].
    destruct (KeyHashLookup.getTablet tid first tm'); [done|].
    by destruct (KeyHashLookup.getTablet tid last tm'). }
  destruct (addTablet_wellFormed _ _ _ _ _ _ Hwf Hle Hadd) as [Hwf1 Hin1].
  assert (Hholds : ∀ st, KeyHashLookup.holds tid first
                           (mkTablet tid first last st) = true).
  { intros st. apply holds_true. simpl. lia. }
  split; [|split].
  - unfold receiveMigrationData. rewrite Htid, Hfirst. simpl.
    rewrite (keyHash_getTablet_wellFormed _ _ _ _ Hwf1 Hin1 (Hholds _)).
    simpl. rewrite decide_False by (by intros H; apply H).
    by rewrite Hseg.
  - rewrite <- Hom in Hwf1, Hin1.
    by destruct (takeTabletOwnership_recovering _ _ _ _ Hwf1 Hin1)
      as (tm2 & -> & _).
  - rewrite <- Hom in Hwf1, Hin1.
    destruct (takeTabletOwnership_recovering _ _ _ _ Hwf1 Hin1)
      as (tm2 & _ & -> & Hwf2 & Hin2).
    unfold receiveMigrationData. rewrite Htid, Hfirst. simpl.
    rewrite (keyHash_getTablet_wellFormed _ _ _ _ Hwf2 Hin2 (Hholds _)).
    done.
Qed.

Lemma migration_data_between_prep_and_take_witness :
  receiveMigrationData
    (mkRequest 1 0 60 0 60 false (Some [Migration.tombstoneV1;
                                        Migration.objectV2]))
    (mkMaster [mkTablet 2 0 9 NORMAL; mkTablet 1 0 9 RECOVERING] ∅)
  = (Replied STATUS_OK,
     mkMaster [mkTablet 2 0 9 NORMAL; mkTablet 1 0 9 RECOVERING]
       (Migration.replayEntries [Migration.tombstoneV1; Migration.objectV2]
          ∅)) ∧
  (Ownership.takeTabletOwnership 1 0 9
     (Ownership.mkMaster
        [mkTablet 2 0 9 NORMAL; mkTablet 1 0 9 RECOVERING] true 1)).1
  = STATUS_OK.
Proof.
  destruct (migration_data_between_prep_and_take 1 0 9
              [mkTablet 2 0 9 NORMAL]
              [mkTablet 2 0 9 NORMAL; mkTablet 1 0 9 RECOVERING]
              (mkRequest 1 0 60 0 60 false
                 (Some [Migration.tombstoneV1; Migration.objectV2]))
              [Migration.tombstoneV1; Migration.objectV2] ∅
              (Ownership.mkMaster
                 [mkTablet 2 0 9 NORMAL; mkTablet 1 0 9 RECOVERING] true 1))
    as (H1 & H2 & _).
  - simpl. split; [lia|done].
  - lia.
  - reflexivity.
  - reflexivity.
  - reflexivity.
  - reflexivity.
  - reflexivity.
  - reflexivity.
  - split; [exact H1|exact H2].
Defined.

(** X13: for a range that no tablet of the table overlaps,
    TAKE_TABLET_OWNERSHIP is answered STATUS_OK and a DROP_TABLET_OWNERSHIP
    of the range afterwards gives back the tablet table as it was;
    dropping a range the master does not hold leaves the table as it
    is. *)
Theorem dropTabletOwnership_undoes_take (tid first last : Z)
    (om : Ownership.Master) :
  first ≤ last →
  (∀ t, t ∈ Ownership.tabletManager om → overlaps tid first last t = false) →
  (Ownership.takeTabletOwnership tid first last om).1 = STATUS_OK ∧
  dropTabletOwnership tid first last
    (Ownership.tabletManager
       (Ownership.takeTabletOwnership tid first last om).2)
    = Ownership.tabletManager om ∧
  dropTabletOwnership tid first last (Ownership.tabletManager om)
    = Ownership.tabletManager om.
Proof.
  intros Hle Hno.
  assert (Hkeep : filter (λ t, isTablet tid first last t = false)
                    (Ownership.tabletManager om)
                  = Ownership.tabletManager om).
  { apply filter_keep_all. intros t Ht.
    specialize (Hno t Ht). apply bool_decide_eq_false in Hno.
    apply bool_decide_eq_false. intros (? & ? & ?). apply Hno. lia. }
  apply existsb_overlaps_iff in Hno.
  unfold Ownership.takeTabletOwnership, addTablet, dropTabletOwnership,
    deleteTablet.
  destruct (Ownership.logEverSynced om); simpl; rewrite Hno; simpl;
    (split; [done|]); (split; [|done]);
    rewrite filter_app, Hkeep, filter_cons_False, filter_nil, app_nil_r;
    try done; (rewrite (proj2 (isTablet_true _ _ _ _)); done).
Qed.

Lemma dropTabletOwnership_undoes_take_witness :
  0 ≤ 9 ∧
  (Ownership.takeTabletOwnership 1 0 9
     (Ownership.mkMaster [mkTablet 1 10 19 NORMAL] true 1)).1 = STATUS_OK ∧
  dropTabletOwnership 1 0 9
    (Ownership.tabletManager
       (Ownership.takeTabletOwnership 1 0 9
          (Ownership.mkMaster [mkTablet 1 10 19 NORMAL] true 1)).2)
    = [mkTablet 1 10 19 NORMAL] ∧
  dropTabletOwnership 1 0 9 [mkTablet 1 10 19 NORMAL]
    = [mkTablet 1 10 19 NORMAL].
Proof.
  split; [lia|].
  apply (dropTabletOwnership_undoes_take 1 0 9
           (Ownership.mkMaster [mkTablet 1 10 19 NORMAL] true 1)); [lia|].
  intros t Ht. apply list_elem_of_singleton in Ht. by subst.
Defined.

End MigrationTargetExtras3.

Section OwnershipExtras.
Import TabletManager Ownership OwnershipReading.

Lemma takeNext_syncs acc req :
  logEverSynced (takeNext acc req).2 = true ∧
  syncs (takeNext acc req).2
    = if logEverSynced acc.2 then syncs acc.2 else S (syncs acc.2).
Proof.
  unfold takeNext. cbn [snd].
  rewrite takeTabletOwnership_tabletManager_sync. done.
Qed.

Lemma foldl_takeNext_syncs reqs : ∀ acc,
  logEverSynced acc.2 = true →
  logEverSynced (foldl takeNext acc reqs).2 = true ∧
  syncs (foldl takeNext acc reqs).2 = syncs acc.2.
Proof.
  induction reqs as [|req reqs IH]; intros acc Hs; [done|].
  simpl. destruct (takeNext_syncs acc req) as [Hl Hn].
  rewrite Hs in Hn. destruct (IH _ Hl) as [-> ->]. done.
Qed.

(** X14: after any nonempty sequence of TAKE_TABLET_OWNERSHIP requests,
    whatever they answer, the log has been synced: once by these requests
    if it had never been synced before, and not at all otherwise. *)
Theorem log_synced_by_first_request (req : Z * Z * Z)
    (reqs : list (Z * Z * Z)) (m : Master) :
  logEverSynced (takeAll (req :: reqs) m).2 = true ∧
  syncs (takeAll (req :: reqs) m).2
    = (if logEverSynced m then syncs m else S (syncs m)).
Proof.
  unfold takeAll. simpl foldl.
  destruct (takeNext_syncs ([], m) req) as [Hl Hn].
  destruct (foldl_takeNext_syncs reqs _ Hl) as [-> ->].
  done.
Qed.

End OwnershipExtras.

(* ================================================================== *)
(** * The properties of dispatch *)
(* ================================================================== *)

Section DispatchExtras.
Import Dispatch.

Lemma wrapInt_add x k : wrapInt (wrapInt x + k) = wrapInt (x + k).
Proof.
  unfold wrapInt. f_equal.
  replace ((x + 2 ^ 31) mod 2 ^ 32 - 2 ^ 31 + k + 2 ^ 31)
    with ((x + 2 ^ 31) mod 2 ^ 32 + k) by lia.
  rewrite Zplus_mod_idemp_l. f_equal. lia.
Qed.

Lemma wrapInt_sub x k : wrapInt (wrapInt x - k) = wrapInt (x - k).
Proof. rewrite <- !Z.add_opp_r. apply wrapInt_add. Qed.

Lemma wrapInt_small x : - 2 ^ 31 ≤ x < 2 ^ 31 → wrapInt x = x.
Proof. intros H. unfold wrapInt. rewrite Z.mod_small; lia. Qed.

#[local] Arguments wrapInt : simpl never.

Lemma attached_nonneg ds : 0 ≤ attached ds.
Proof. induction ds as [|[[]] ds IH]; simpl; lia. Qed.

Lemma attached_app ds1 ds2 : attached (ds1 ++ ds2) = attached ds1 + attached ds2.
Proof. induction ds1 as [|d ds1 IH]; simpl; lia. Qed.

Lemma attached_insert ds i d d' :
  ds !! i = Some d →
  attached (<[i := d']> ds) =
  attached ds - (if service d then 1 else 0) + (if service d' then 1 else 0).
Proof.
  revert i. induction ds as [|x ds IH]; intros [|i] H; simplify_eq/=.
  - lia.
  - rewrite (IH _ H). lia.
Qed.

Lemma step_count c0 p st :
  initCalled p.2 = true →
  disableCount p.2 = wrapInt (c0 + attached p.1) →
  initCalled (step p st).2 = true ∧
  disableCount (step p st).2 = wrapInt (c0 + attached (step p st).1).
Proof.
  destruct p as [ds s]. simpl. intros Hinit Hcount.
  destruct st as [[]|i|i]; simpl.
  - split; [done|]. rewrite Hcount, wrapInt_add, attached_app. simpl.
    f_equal. lia.
  - split; [done|]. rewrite attached_app. simpl. rewrite Hcount. f_equal. lia.
  - destruct (ds !! i) as [d|] eqn:Hd; [|done].
    unfold reenable. destruct (service d) eqn:Hs; simpl.
    + split; [done|]. rewrite Hcount, wrapInt_sub.
      rewrite (attached_insert _ _ _ _ Hd), Hs. simpl. f_equal. lia.
    + split; [done|]. rewrite Hcount.
      rewrite (attached_insert _ _ _ _ Hd), Hs. f_equal. lia.
  - destruct (ds !! i) as [d|] eqn:Hd; [|done].
    unfold reenable. destruct (service d) eqn:Hs; simpl.
    + split; [done|]. rewrite Hcount, wrapInt_sub.
      rewrite (attached_insert _ _ _ _ Hd), Hs. simpl. f_equal. lia.
    + split; [done|]. rewrite Hcount.
      rewrite (attached_insert _ _ _ _ Hd), Hs. f_equal. lia.
Qed.

Lemma foldl_step_count c0 steps : ∀ p,
  initCalled p.2 = true →
  disableCount p.2 = wrapInt (c0 + attached p.1) →
  initCalled (foldl step p steps).2 = true ∧
  disableCount (foldl step p steps).2
    = wrapInt (c0 + attached (foldl step p steps).1).
Proof.
  induction steps as [|st steps IH]; intros p Hinit Hcount; simpl; [done|].
  destruct (step_count c0 p st Hinit Hcount). by apply IH.
Qed.

(** X15: for a service that is initialised and not disabled, after any
    sequence of constructions, [reenable] calls and destructions of
    [Disabler] objects, [disableCount] is the number of disablers still
    attached (as an [int]); while fewer than 2^31 are attached, [dispatch]
    answers STATUS_RETRY to every opcode exactly when one is attached, and
    with none attached it calls the handler of each opcode it knows and
    answers any other opcode as unimplemented. *)
Theorem disabled_while_disabler_attached (steps : list Step) (s : Service)
    (opcode : Opcode) :
  initCalled s = true → disableCount s = 0 →
  disableCount (run steps s).2 = wrapInt (attached (run steps s).1) ∧
  (attached (run steps s).1 < 2 ^ 31 →
   (dispatch opcode (run steps s).2 = RepliesRetry ↔
    0 < attached (run steps s).1) ∧
   (attached (run steps s).1 = 0 →
    dispatch opcode (run steps s).2 =
    match opcode with
    | OTHER_OPCODE _ => RepliesUnimplementedRequest
    | _ => CallsHandler opcode
    end)).
Proof.
  intros Hinit Hzero. unfold run.
  destruct (foldl_step_count 0 steps ([], s)) as [Hi Hc];
    [done|simpl; rewrite Hzero; reflexivity|].
  rewrite Z.add_0_l in Hc. split; [done|]. intros Hsmall.
  pose proof (attached_nonneg (foldl step ([], s) steps).1) as Hnn.
  rewrite wrapInt_small in Hc by lia.
  unfold dispatch. rewrite Hi, Hc. simpl. split.
  - destruct (decide (attached _ > 0)); [split; [lia|done]|].
    split; [|lia]. by destruct opcode.
  - intros H0. rewrite decide_False by lia. done.
Qed.

Lemma disabled_while_disabler_attached_witness :
  disableCount
    (run [Construct true; Construct true; Reenable 0; Reenable 0; Destroy 0]
       (mkService true 0)).2 = 1 ∧
  dispatch READ
    (run [Construct true; Construct true; Reenable 0; Reenable 0; Destroy 0]
       (mkService true 0)).2 = RepliesRetry.
Proof.
  destruct (disabled_while_disabler_attached
              [Construct true; Construct true; Reenable 0; Reenable 0;
               Destroy 0] (mkService true 0) READ eq_refl eq_refl)
    as [Hc Hd].
  split; [exact Hc|]. apply Hd; [reflexivity|]. vm_compute. reflexivity.
Defined.

End DispatchExtras.

(* ================================================================== *)
(** * The properties of MULTI_READ *)
(* ================================================================== *)

Section MultiReadExtras.
Import MultiRead MultiReadReading.

Variable maxResponseRpcLen partBytes : Z.
Variable readObject : ReadRequest → ObjectStatus.t * Z * Z.
Hypothesis partBytes_nonneg : 0 ≤ partBytes.

Lemma answer_cons reply rs r :
  answer partBytes readObject reply (r :: rs) =
  answer partBytes readObject
    (appendPart partBytes (respond readObject r) (readObject r).2 reply) rs.
Proof. done. Qed.

Lemma answer_one reply r :
  answer partBytes readObject reply [r] =
  appendPart partBytes (respond readObject r) (readObject r).2 reply.
Proof. done. Qed.

Lemma length_parts_answer rs : ∀ reply,
  Datatypes.length (parts (answer partBytes readObject reply rs)) =
  (Datatypes.length (parts reply) + Datatypes.length rs)%nat.
Proof.
  induction rs as [|r rs IH]; intros reply; [simpl; lia|].
  rewrite answer_cons, IH. unfold appendPart. simpl.
  rewrite length_app. simpl. lia.
Qed.

Lemma within_append reply part bytes :
  0 ≤ bytes → within reply →
  within (appendPart partBytes part bytes reply).
Proof.
  unfold within, appendPart. simpl. intros Hb Hw.
  apply Forall_app. split; [|by constructor].
  eapply Forall_impl; [done|]. simpl. intros; lia.
Qed.

Lemma truncate_append reply part bytes :
  within reply →
  size reply < size (appendPart partBytes part bytes reply) →
  truncate (size reply) (appendPart partBytes part bytes reply) = reply.
Proof.
  intros Hw Hlt. unfold truncate. rewrite decide_True by done.
  unfold within, appendPart in *. destruct reply as [sz ps]. simpl in *.
  f_equal. rewrite filter_app, filter_cons_False, filter_nil, app_nil_r
    by (simpl; lia).
  apply filter_keep_all. intros p Hp.
  by eapply Forall_forall in Hw.
Qed.

(** The loop at its head, [cur] being [prev] or [prev] with one more part. *)
Lemma readLoop_spec numRequests : ∀ requests prev cur i,
  (∀ r, r ∈ requests → 0 ≤ (readObject r).2) →
  within prev → size prev ≤ maxResponseRpcLen →
  (cur = prev ∨
   ∃ r, 0 ≤ (readObject r).2 ∧ cur = answer partBytes readObject prev [r]) →
  Z.of_nat (Datatypes.length (parts cur)) = i →
  i ≤ numRequests → numRequests < 2 ^ 32 →
  numRequests - i ≤ Z.of_nat (Datatypes.length requests) →
  ∃ rep,
    readLoop maxResponseRpcLen partBytes readObject numRequests requests i
      (size prev) numRequests cur
    = Returned (Z.of_nat (Datatypes.length (parts rep))) rep ∧
    ((maxResponseRpcLen < size cur ∧ rep = prev) ∨
     (size cur ≤ maxResponseRpcLen ∧
      ∃ k, (k ≤ Datatypes.length requests)%nat ∧
           i + Z.of_nat k ≤ numRequests ∧
           rep = answer partBytes readObject cur (take k requests) ∧
           size rep ≤ maxResponseRpcLen ∧
           (i + Z.of_nat k < numRequests →
            maxResponseRpcLen <
            size (answer partBytes readObject cur (take (S k) requests))))).
Proof.
  induction requests as [|r requests IH]; intros prev cur i Hnn Hw Hprev Hcur
    Hlen Hi Hn Hreq.
  - assert (Hin : i = numRequests) by (simpl in Hreq; lia).
    simpl. destruct (decide (size cur > maxResponseRpcLen)) as [Hbig|Hfit].
    + exists prev. destruct Hcur as [->|(r & Hr & ->)]; [lia|].
      rewrite answer_one in *.
      rewrite truncate_append by (done || simpl in *; lia).
      split; [|left; split; [lia|done]].
      f_equal. simpl in Hlen. rewrite length_app in Hlen. simpl in Hlen.
      unfold wrap32. rewrite Z.mod_small by lia. lia.
    + rewrite decide_True by lia. exists cur. split; [by rewrite Hlen, Hin|].
      right. split; [lia|]. exists 0%nat. simpl.
      split; [lia|]. split; [lia|]. split; [done|]. split; [lia|]. lia.
  - simpl. destruct (decide (size cur > maxResponseRpcLen)) as [Hbig|Hfit].
    + exists prev. destruct Hcur as [->|(r0 & Hr & ->)]; [lia|].
      rewrite answer_one in *.
      rewrite truncate_append by (done || simpl in *; lia).
      split; [|left; split; [lia|done]].
      f_equal. simpl in Hlen. rewrite length_app in Hlen. simpl in Hlen.
      unfold wrap32. rewrite Z.mod_small by lia. lia.
    + destruct (decide (i >= numRequests)) as [Hdone|Hmore].
      * exists cur. split; [f_equal; lia|].
        right. split; [lia|]. exists 0%nat. simpl.
        split; [lia|]. split; [lia|]. split; [done|]. split; [lia|]. lia.
      * assert (Hwcur : within cur).
        { destruct Hcur as [->|(r0 & Hr & ->)]; [done|].
          by apply within_append. }
        assert (Hr : 0 ≤ (readObject r).2) by (apply Hnn; left).
        destruct (readObject r) as [[st ver] bytes] eqn:Hro. simpl in Hr.
        set (part := mkReadPart st ver
                       (if decide (st = ObjectStatus.STATUS_OK)
                        then bytes else 0)).
        assert (Hnext : appendPart partBytes part bytes cur
                        = answer partBytes readObject cur [r]).
        { simpl. unfold respond. by rewrite Hro. }
        rewrite Hnext.
        destruct (IH cur (answer partBytes readObject cur [r]) (i + 1))
          as (rep & Hrun & Hrep).
        { intros x Hx. apply Hnn. by right. }
        { done. }
        { lia. }
        { right. exists r. rewrite Hro. done. }
        { rewrite length_parts_answer. simpl. lia. }
        { lia. }
        { done. }
        { simpl in Hreq. lia. }
        exists rep. split; [done|]. right. split; [lia|].
        destruct Hrep as [[Hbig ->]|(Hfit' & k & Hk & Hik & -> & Hsz & Hmax)].
        -- exists 0%nat. split; [simpl; lia|]. split; [lia|].
           split; [done|]. split; [simpl; lia|]. intros _.
           rewrite answer_one, Hro in Hbig. exact Hbig.
        -- exists (S k). split; [simpl; lia|]. split; [lia|].
           split; [done|]. split; [done|]. intros Hlt.
           rewrite answer_one, Hro in Hmax. apply Hmax. lia.
Qed.

End MultiReadExtras.

Section MultiReadExtras2.
Import MultiRead MultiReadReading.

(** X16: MULTI_READ on a reply that holds the header only.  If the
    header fits the limit, the handler returns a count [k] and the reply
    with exactly the answers to the first [k] requests, which fits the
    limit; [k] is below the number of requests only if the answer to one
    more request would exceed the limit.  If the header alone exceeds the
    limit, the count is 4294967295 ([0 - 1] as [uint32_t]) and the reply
    is left as it is. *)
Theorem multiRead_returns_what_fits (maxResponseRpcLen partBytes : Z)
    (readObject : ReadRequest → ObjectStatus.t * Z * Z)
    (numRequests : Z) (requests : list ReadRequest) (reply : Reply) :
  0 ≤ partBytes →
  (∀ r, r ∈ requests → 0 ≤ (readObject r).2) →
  parts reply = [] →
  0 ≤ numRequests < 2 ^ 32 →
  numRequests ≤ Z.of_nat (Datatypes.length requests) →
  (size reply ≤ maxResponseRpcLen →
   ∃ k : nat,
     Z.of_nat k ≤ numRequests ∧
     multiRead maxResponseRpcLen partBytes readObject numRequests requests
       reply
     = Returned (Z.of_nat k)
         (answer partBytes readObject reply (take k requests)) ∧
     size (answer partBytes readObject reply (take k requests))
       ≤ maxResponseRpcLen ∧
     (Z.of_nat k < numRequests →
      maxResponseRpcLen <
      size (answer partBytes readObject reply (take (S k) requests)))) ∧
  (maxResponseRpcLen < size reply →
   multiRead maxResponseRpcLen partBytes readObject numRequests requests
     reply = Returned 4294967295 reply).
Proof.
  intros Hpart Hnn Hempty Hn Hreq. split.
  - intros Hfit.
    destruct (readLoop_spec maxResponseRpcLen partBytes readObject Hpart
                numRequests requests reply reply 0)
      as (rep & Hrun & [[Hbig _]|(_ & k & Hk & Hik & -> & Hsz & Hmax)]);
      try done; try lia.
    + unfold within. rewrite Hempty. constructor.
    + by left.
    + by rewrite Hempty.
    + exists k. split; [lia|]. unfold multiRead. rewrite Hrun.
      rewrite length_parts_answer, Hempty, length_take_le by lia.
      split; [done|]. split; [done|]. intros Hlt. apply Hmax. lia.
  - intros Hbig. unfold multiRead.
    assert (Htr : truncate (size reply) reply = reply).
    { unfold truncate. by rewrite decide_False by lia. }
    destruct requests; simpl; rewrite decide_True by lia; by rewrite Htr.
Qed.

Lemma multiRead_returns_what_fits_witness :
  multiRead 100 16 readTableOne 4 fourRequests (mkReply 20 [])
  = Returned 2
      (answer 16 readTableOne (mkReply 20 []) (take 2 fourRequests)) ∧
  MultiRead.size
    (answer 16 readTableOne (mkReply 20 []) (take 2 fourRequests)) = 82 ∧
  MultiRead.size
    (answer 16 readTableOne (mkReply 20 []) (take 3 fourRequests)) = 128.
Proof.
  destruct (multiRead_returns_what_fits 100 16 readTableOne 4 fourRequests
              (mkReply 20 [])) as [Hfit _].
  - lia.
  - intros r Hr. unfold readTableOne. destruct (decide _); simpl; lia.
  - reflexivity.
  - lia.
  - simpl. lia.
  - destruct Hfit as (k & Hk & Hrun & Hsz & Hmax); [simpl; lia|].
    split; [|split; reflexivity].
    vm_compute in Hrun. vm_compute.
    destruct k as [|[|[|k]]]; simplify_eq; reflexivity.
Defined.

End MultiReadExtras2.

(* ================================================================== *)
(** * The properties of FILL_WITH_TEST_DATA *)
(* ================================================================== *)

Section FillExtras.
Import TabletManager FillWithTestData.

Lemma wrap64_small x : 0 ≤ x < 2 ^ 64 → wrap64 x = x.
Proof. intros H. unfold wrap64. by rewrite Z.mod_small. Qed.

(** [i--] followed by [i++] leaves a [size_t] where it was, at zero too. *)
Lemma wrap64_pred_succ i : 0 ≤ i < 2 ^ 64 → wrap64 (wrap64 (i - 1) + 1) = i.
Proof.
  intros H. unfold wrap64. rewrite Zplus_mod_idemp_l.
  replace (i - 1 + 1) with i by lia. by rewrite Z.mod_small.
Qed.

Lemma swapRemove_spec (i : nat) (tablets : list Tablet) t :
  tablets !! i = Some t →
  Datatypes.length (swapRemove i tablets) = (Datatypes.length tablets - 1)%nat ∧
  take i (swapRemove i tablets) = take i tablets ∧
  drop i (swapRemove i tablets) ≡ₚ drop (S i) tablets.
Proof.
  intros Hi. unfold swapRemove.
  pose proof (lookup_lt_Some _ _ _ Hi) as Hlt.
  destruct (last tablets) as [back|] eqn:Hlast;
    [|apply last_None in Hlast; subst; simpl in Hlt; lia].
  apply last_Some in Hlast as (front & ->).
  rewrite length_app in *. simpl in *.
  replace (Datatypes.length front + 1 - 1)%nat with (Datatypes.length front)
    by lia.
  destruct (decide (i = Datatypes.length front)) as [->|Hne].
  - rewrite list_lookup_middle in Hi by done. simplify_eq.
    rewrite list_insert_id by (by rewrite list_lookup_middle).
    rewrite take_app_length.
    split; [done|]. split; [by rewrite take_ge by lia|].
    rewrite drop_ge by lia.
    rewrite drop_ge by (rewrite length_app; simpl; lia). done.
  - assert (Hfi : (i < Datatypes.length front)%nat) by lia.
    rewrite lookup_app_l in Hi by done.
    rewrite insert_app_l by done.
    rewrite take_app_length' by (by rewrite length_insert).
    rewrite length_insert. split; [done|].
    rewrite take_app_le by lia. rewrite take_insert_ge by lia.
    split; [done|].
    rewrite drop_app_le by lia.
    rewrite <- (take_drop_middle front i t Hi) at 1.
    assert (Hti : Datatypes.length (take i front) = i)
      by (rewrite length_take; lia).
    rewrite insert_app_r_alt by lia. rewrite Hti, Nat.sub_diag. simpl.
    rewrite drop_app_length' by done.
    apply Permutation_cons_append.
Qed.

Lemma keepSpanning_spec fuel : ∀ (i : nat) tablets,
  Z.of_nat (Datatypes.length tablets) < 2 ^ 64 →
  (i ≤ Datatypes.length tablets)%nat →
  (Datatypes.length tablets - i ≤ fuel)%nat →
  ∃ kept, keepSpanning fuel (Z.of_nat i) tablets = Some kept ∧
          kept ≡ₚ take i tablets
                  ++ filter (λ t, spansTable t = true) (drop i tablets).
Proof.
  induction fuel as [|fuel IH]; intros i tablets Hsize Hi Hfuel.
  - assert (i = Datatypes.length tablets) as -> by lia.
    simpl. rewrite decide_False by lia. eexists. split; [done|].
    by rewrite drop_all, take_ge, app_nil_r.
  - simpl. destruct (decide (Z.of_nat i < Z.of_nat (Datatypes.length tablets)))
      as [Hlt|Hge].
    + rewrite Nat2Z.id.
      destruct (lookup_lt_is_Some_2 tablets i ltac:(lia)) as [t Ht].
      rewrite Ht. destruct (spansTable t) eqn:Hspan.
      * rewrite wrap64_small by lia.
        replace (Z.of_nat i + 1) with (Z.of_nat (S i)) by lia.
        destruct (IH (S i) tablets) as (kept & -> & Hperm); [lia..|].
        exists kept. split; [done|]. rewrite Hperm.
        rewrite (take_S_r _ _ _ Ht), (drop_S _ _ _ Ht), <- app_assoc.
        simpl. by rewrite filter_cons_True by done.
      * rewrite wrap64_pred_succ by lia.
        destruct (swapRemove_spec i tablets t Ht) as (Hlen & Htake & Hdrop).
        destruct (IH i (swapRemove i tablets)) as (kept & -> & Hperm);
          [lia..|].
        exists kept. split; [done|]. rewrite Hperm, Htake, Hdrop.
        rewrite (drop_S _ _ _ Ht).
        rewrite (filter_cons_False _ t) by (by rewrite Hspan). done.
    + assert (i = Datatypes.length tablets) as -> by lia.
      eexists. split; [done|]. by rewrite drop_all, take_ge, app_nil_r.
Qed.

(** X17: the loop of [fillWithTestData] that drops tablets ends within
    as many turns as there are tablets and keeps, up to their order,
    exactly the tablets that span their whole table; the handler throws
    [ObjectDoesntExistException] exactly when no tablet spans its
    table. *)
Theorem fill_keeps_spanning_tablets (tablets : list Tablet)
    (numObjects objectSize : Z) (writeObject : Z → ObjectStatus.t) :
  Z.of_nat (Datatypes.length tablets) < 2 ^ 64 →
  (∃ kept, keepSpanning (Datatypes.length tablets) 0 tablets = Some kept ∧
           kept ≡ₚ filter (λ t, spansTable t = true) tablets) ∧
  (fillWithTestData numObjects objectSize tablets writeObject
     = ObjectDoesntExistException ↔
   ∀ t, t ∈ tablets → spansTable t = false).
Proof.
  intros Hsize.
  destruct (keepSpanning_spec (Datatypes.length tablets) 0 tablets)
    as (kept & Hrun & Hperm); [lia..|].
  simpl in Hperm. rewrite drop_0 in Hperm.
  change (Z.of_nat 0) with 0 in Hrun.
  split; [eauto|]. unfold fillWithTestData. rewrite Hrun.
  assert (Hnone : kept = [] ↔ ∀ t, t ∈ tablets → spansTable t = false).
  { split.
    - intros -> t Ht. destruct (spansTable t) eqn:Hs; [|done].
      assert (t ∈ filter (λ t, spansTable t = true) tablets)
        by (by apply list_elem_of_filter).
      rewrite <- Hperm in H. by apply elem_of_nil in H.
    - intros Hall. apply Permutation_nil_r. rewrite Hperm.
      rewrite filter_drop_all; [done|].
      intros t Ht. by rewrite (Hall t Ht). }
  destruct kept as [|t kept].
  - split; [intros _; by apply Hnone|done].
  - destruct (writeObjects _ _ _ _ _ _) as [st ws].
    split; [done|]. intros Hall. by apply Hnone in Hall.
Qed.

End FillExtras.

Section FillExtras4.
Import TabletManager FillWithTestData.

Lemma fill_keeps_spanning_tablets_witness :
  keepSpanning 3 0
    [mkTablet 2 0 9 NORMAL; mkTablet 1 0 18446744073709551615 NORMAL;
     mkTablet 2 10 18446744073709551615 NORMAL]
  = Some [mkTablet 1 0 18446744073709551615 NORMAL] ∧
  fillWithTestData 1 8
    [mkTablet 2 0 9 NORMAL; mkTablet 2 10 18446744073709551615 NORMAL]
    (λ _, ObjectStatus.STATUS_OK)
  = ObjectDoesntExistException.
Proof.
  split; [reflexivity|].
  apply (fill_keeps_spanning_tablets
           [mkTablet 2 0 9 NORMAL; mkTablet 2 10 18446744073709551615 NORMAL]
           1 8 (λ _, ObjectStatus.STATUS_OK)).
  - reflexivity.
  - intros t Ht.
    repeat (apply elem_of_cons in Ht as [->|Ht]; [reflexivity|]).
    by apply elem_of_nil in Ht.
Defined.

End FillExtras4.

Section FillExtras2.
Import TabletManager FillWithTestData.

Lemma spansTable_true t :
  spansTable t = true ↔
  startKeyHash t = 0 ∧ endKeyHash t = 18446744073709551615.
Proof. unfold spansTable. apply bool_decide_eq_true. Qed.

(** Two tablets of a well-formed table that span their tables belong to
    different tables. *)
Lemma NoDup_spanning_tableIds tablets :
  wellFormed tablets →
  NoDup (tableId <$> filter (λ t, spansTable t = true) tablets).
Proof.
  induction tablets as [|t tablets IH]; simpl; [constructor|].
  intros (Ht & Hno & Hwf). rewrite filter_cons.
  destruct (decide (spansTable t = true)) as [Hspan|Hspan]; [|by apply IH].
  rewrite fmap_cons. constructor; [|by apply IH].
  intros Hin. apply list_elem_of_fmap in Hin as (x & Hid & Hx).
  apply list_elem_of_filter in Hx as [Hxs Hx].
  pose proof (existsb_overlaps_false _ _ _ _ _ Hno Hx) as Hf.
  apply bool_decide_eq_false in Hf. apply Hf.
  apply spansTable_true in Hspan as [-> ->].
  apply spansTable_true in Hxs as [-> ->]. done.
Qed.

Lemma writeObjects_spec objectSize kept writeObject remaining :
  ∀ objects written,
  ∃ j : nat,
    (j ≤ remaining)%nat ∧
    (writeObjects remaining objects objectSize kept writeObject written).2
    = written ++
      ((λ o, mkWrite
               (default 0 (tableId <$>
                  kept !! Z.to_nat (o mod Z.of_nat (Datatypes.length kept))))
               (keyString o (Z.of_nat (Datatypes.length kept))) objectSize)
         <$> seqZ objects (Z.of_nat j)) ∧
    ((writeObjects remaining objects objectSize kept writeObject written).1
       = ObjectStatus.STATUS_OK →
     j = remaining ∨
     kept !! Z.to_nat ((objects + Z.of_nat j)
                       mod Z.of_nat (Datatypes.length kept)) = None).
Proof.
  induction remaining as [|remaining IH]; intros objects written; simpl.
  - exists 0%nat. simpl. rewrite app_nil_r. auto.
  - destruct (kept !! Z.to_nat (objects mod Z.of_nat (Datatypes.length kept)))
      as [tablet|] eqn:Ht.
    + destruct (decide (_ ≠ ObjectStatus.STATUS_OK)) as [Hbad|Hok].
      * exists 1%nat. split; [lia|]. split; [|done].
        rewrite seqZ_cons by lia. cbn [snd]. change (Z.pred 1) with 0.
        rewrite seqZ_nil by lia. rewrite !fmap_cons, fmap_nil. by rewrite Ht.
      * destruct (IH (objects + 1) (written ++
                   [mkWrite (tableId tablet)
                      (keyString objects (Z.of_nat (Datatypes.length kept)))
                      objectSize])) as (j & Hj & Hws & Hst).
        exists (S j). split; [lia|]. rewrite Hws. split.
        -- rewrite <- app_assoc. f_equal.
           rewrite (seqZ_cons objects) by lia. rewrite fmap_cons, Ht.
           simpl. replace (Z.pred (Z.of_nat (S j))) with (Z.of_nat j) by lia.
           by replace (Z.succ objects) with (objects + 1) by lia.
        -- intros H. destruct (Hst H) as [->|Hnone]; [by left|right].
           rewrite <- Hnone. do 3 f_equal. lia.
    + exists 0%nat. simpl. rewrite app_nil_r. split; [lia|]. split; [done|].
      intros _. right. by rewrite Z.add_0_r.
Qed.

End FillExtras2.

Section FillExtras3.
Import TabletManager FillWithTestData.

(** The table and the key of an object tell its number. *)
Lemma fill_key_inj (kept : list Tablet) o1 o2 :
  NoDup (tableId <$> kept) → kept ≠ [] → 0 ≤ o1 → 0 ≤ o2 →
  default 0 (tableId <$>
     kept !! Z.to_nat (o1 mod Z.of_nat (Datatypes.length kept))) =
  default 0 (tableId <$>
     kept !! Z.to_nat (o2 mod Z.of_nat (Datatypes.length kept))) →
  keyString o1 (Z.of_nat (Datatypes.length kept)) =
  keyString o2 (Z.of_nat (Datatypes.length kept)) →
  o1 = o2.
Proof.
  intros Hnd Hne H1 H2 Htid Hkey.
  set (n := Z.of_nat (Datatypes.length kept)) in *.
  assert (Hn : 0 < n) by (destruct kept; [done|simpl in *; lia]).
  pose proof (Z.mod_pos_bound o1 n Hn) as Hm1.
  pose proof (Z.mod_pos_bound o2 n Hn) as Hm2.
  destruct (lookup_lt_is_Some_2 kept (Z.to_nat (o1 mod n)) ltac:(lia))
    as [t1 Ht1].
  destruct (lookup_lt_is_Some_2 kept (Z.to_nat (o2 mod n)) ltac:(lia))
    as [t2 Ht2].
  rewrite Ht1, Ht2 in Htid. simpl in Htid.
  assert (Hidx : Z.to_nat (o1 mod n) = Z.to_nat (o2 mod n)).
  { eapply (NoDup_lookup (tableId <$> kept)); [done| |].
    - by rewrite list_lookup_fmap, Ht1.
    - by rewrite list_lookup_fmap, Ht2, Htid. }
  unfold keyString in Hkey. apply (inj pretty) in Hkey.
  pose proof (Z.div_pos o1 n H1 Hn). pose proof (Z.div_pos o2 n H2 Hn).
  rewrite (Z.div_mod o1 n), (Z.div_mod o2 n) by lia.
  assert (o1 / n = o2 / n) as -> by lia.
  assert (o1 mod n = o2 mod n) as -> by lia. done.
Qed.

(** X18: when [fillWithTestData] responds, no two objects written have
    the same table and key, every object is written to a table that one
    tablet of the master spans, at most [numObjects] objects are written,
    and with STATUS_OK exactly [numObjects] are written and the changes
    are synced. *)
Theorem fill_writes_distinct_keys (tablets : list Tablet)
    (numObjects objectSize : Z) (writeObject : Z → ObjectStatus.t)
    (st : ObjectStatus.t) (ws : list Write) (synced : bool) :
  wellFormed tablets →
  Z.of_nat (Datatypes.length tablets) < 2 ^ 64 →
  0 ≤ numObjects →
  fillWithTestData numObjects objectSize tablets writeObject
    = Responded st ws synced →
  NoDup ((λ w, (writeTableId w, writeKey w)) <$> ws) ∧
  (∀ w, w ∈ ws →
        ∃ t, t ∈ tablets ∧ spansTable t = true ∧
             tableId t = writeTableId w) ∧
  Z.of_nat (Datatypes.length ws) ≤ numObjects ∧
  (st = ObjectStatus.STATUS_OK →
   Z.of_nat (Datatypes.length ws) = numObjects ∧ synced = true).
Proof.
  intros Hwf Hsize Hnum. unfold fillWithTestData.
  destruct (keepSpanning_spec (Datatypes.length tablets) 0 tablets)
    as (kept & Hrun & Hperm); [lia..|].
  simpl in Hperm. rewrite drop_0 in Hperm.
  change (Z.of_nat 0) with 0 in Hrun. rewrite Hrun.
  destruct kept as [|t0 kept0] eqn:Hkept; [done|]. rewrite <- Hkept in *.
  assert (Hne : kept ≠ []) by (by rewrite Hkept).
  clear Hkept t0 kept0 Hrun.
  assert (Hnd : NoDup (tableId <$> kept)).
  { rewrite Hperm. by apply NoDup_spanning_tableIds. }
  destruct (writeObjects_spec objectSize kept writeObject
              (Z.to_nat numObjects) 0 []) as (j & Hj & Hws & Hst).
  destruct (writeObjects _ _ _ _ _ _) as [st' ws'] eqn:Hrun.
  simpl in Hws, Hst. intros ?; simplify_eq.
  set (n := Z.of_nat (Datatypes.length kept)) in *.
  assert (Hn : 0 < n) by (destruct kept; [done|simpl in *; lia]).
  split; [|split; [|split]].
  - rewrite <- list_fmap_compose. apply NoDup_fmap_2_strong; [|apply NoDup_seqZ].
    intros o1 o2 Ho1%elem_of_seqZ Ho2%elem_of_seqZ Heq. simpl in Heq.
    injection Heq as Htid Hkey.
    apply (fill_key_inj kept); [done|done|lia|lia|done|done].
  - intros w Hw. apply list_elem_of_fmap in Hw as (o & -> & Ho%elem_of_seqZ).
    simpl.
    pose proof (Z.mod_pos_bound o n Hn) as Hm.
    destruct (lookup_lt_is_Some_2 kept (Z.to_nat (o mod n)) ltac:(lia))
      as [t Ht].
    rewrite Ht. simpl. exists t.
    assert (Hin : t ∈ filter (λ t, spansTable t = true) tablets).
    { rewrite <- Hperm. by eapply list_elem_of_lookup_2. }
    apply list_elem_of_filter in Hin as [? ?]. done.
  - rewrite length_fmap, length_seqZ. lia.
  - intros ->. rewrite length_fmap, length_seqZ.
    destruct (Hst eq_refl) as [->|Hnone].
    + split; [lia|done].
    + apply lookup_ge_None in Hnone.
      pose proof (Z.mod_pos_bound (0 + Z.of_nat j) n Hn). lia.
Qed.

Lemma fill_writes_distinct_keys_witness :
  ∃ ws,
    fillWithTestData 5 8
      [mkTablet 1 0 18446744073709551615 NORMAL; mkTablet 2 0 9 NORMAL;
       mkTablet 3 0 18446744073709551615 NORMAL]
      (λ _, ObjectStatus.STATUS_OK)
    = Responded ObjectStatus.STATUS_OK ws true ∧
    (λ w, (writeTableId w, writeKey w)) <$> ws
    = [(1, "0"); (3, "0"); (1, "1"); (3, "1"); (1, "2")] ∧
    NoDup ((λ w, (writeTableId w, writeKey w)) <$> ws).
Proof.
  eexists. split; [vm_compute; reflexivity|]. split; [reflexivity|].
  eapply (fill_writes_distinct_keys
            [mkTablet 1 0 18446744073709551615 NORMAL; mkTablet 2 0 9 NORMAL;
             mkTablet 3 0 18446744073709551615 NORMAL] 5 8
            (λ _, ObjectStatus.STATUS_OK)).
  - simpl. repeat split; try lia; try done.
  - simpl. lia.
  - lia.
  - vm_compute. reflexivity.
Defined.

End FillExtras3.

(* ================================================================== *)
(** * The properties of INCREMENT *)
(* ================================================================== *)

Section IncrementExtras.
Import Increment IncrementReading.

Lemma incrementObject_OK addDouble mustExist inc dinc turns :
  ∀ nv ws out,
  incrementObject addDouble mustExist inc dinc nv turns ws = Some out →
  status out = ObjectStatus.STATUS_OK →
  ∃ retried turn rest,
    turns = retried ++ turn :: rest ∧
    Forall (λ t, writeStatus t = ObjectStatus.STATUS_WRONG_VERSION ∧
                 readable mustExist t) retried ∧
    writeStatus turn = ObjectStatus.STATUS_OK ∧ readable mustExist turn ∧
    writes out =
      ws ++ (writeOf addDouble mustExist inc dinc <$> retried ++ [turn]) ∧
    asInt64 out = summed addDouble inc dinc (oldValue mustExist turn) ∧
    asDouble out = asInt64 out ∧
    newVersion out = writeVersion turn.
Proof.
  induction turns as [|turn turns IH]; intros nv ws out; simpl; [done|].
  assert (Hsum : ∀ old, old = oldValue mustExist turn →
            (if isZeroDouble dinc
             then if decide (inc ≠ 0) then wrapInt64 (old + inc) else old
             else addDouble
                    (if decide (inc ≠ 0) then wrapInt64 (old + inc) else old)
                    dinc)
            = summed addDouble inc dinc (oldValue mustExist turn)).
  { intros old ->. unfold summed. by destruct (isZeroDouble dinc). }
  assert (Hcases :
    (bool_decide (readStatus turn = ObjectStatus.STATUS_OBJECT_DOESNT_EXIST)
     && negb mustExist = true ∧ 0 = oldValue mustExist turn ∧
     readable mustExist turn) ∨
    (bool_decide (readStatus turn = ObjectStatus.STATUS_OBJECT_DOESNT_EXIST)
     && negb mustExist = false ∧
     (readStatus turn = ObjectStatus.STATUS_OK → readLength turn = 8 →
      readValue turn = oldValue mustExist turn ∧ readable mustExist turn))).
  { unfold oldValue, readable.
    destruct (bool_decide _ && negb mustExist) eqn:Hne; [left|right; by auto].
    apply andb_true_iff in Hne as [?%bool_decide_eq_true ?%negb_true_iff].
    auto. }
  destruct Hcases as [(-> & Hold & Hread)|[-> Hrest]].
  2: { destruct (decide (readStatus turn ≠ ObjectStatus.STATUS_OK)) as [Hb|Hok];
         [by intros ? Hst; simplify_eq/=|].
       destruct (decide (readLength turn ≠ 8)) as [Hl|Hl];
         [by intros ? Hst; simplify_eq/=|].
       apply dec_stable in Hok, Hl.
       destruct (Hrest Hok Hl) as [Hold Hread]. revert Hold Hread.
       generalize (readValue turn). intros old Hold Hread.
       rewrite (Hsum old Hold).
       destruct (decide (writeStatus turn = ObjectStatus.STATUS_WRONG_VERSION))
         as [Hwrong|Hnw].
       - intros Hrun Hst.
         destruct (IH _ _ _ Hrun Hst)
           as (retried & turn0 & rest & -> & Hre & Hk & Hrd & Hws & Hv).
         exists (turn :: retried), turn0, rest.
         split; [done|]. split; [by constructor|]. split; [done|].
         split; [done|]. split; [|done]. by rewrite Hws, <- app_assoc.
       - destruct (decide (writeStatus turn ≠ ObjectStatus.STATUS_OK))
           as [Hb|Hk]; intros ? Hst; simplify_eq/=; try done.
         apply dec_stable in Hk. by exists [], turn, turns. }
  rewrite (Hsum 0 Hold).
  destruct (decide (writeStatus turn = ObjectStatus.STATUS_WRONG_VERSION))
    as [Hwrong|Hnw].
  - intros Hrun Hst.
    destruct (IH _ _ _ Hrun Hst)
      as (retried & turn0 & rest & -> & Hre & Hk & Hrd & Hws & Hv).
    exists (turn :: retried), turn0, rest.
    split; [done|]. split; [by constructor|]. split; [done|].
    split; [done|]. split; [|done]. by rewrite Hws, <- app_assoc.
  - destruct (decide (writeStatus turn ≠ ObjectStatus.STATUS_OK))
      as [Hb|Hk]; intros ? Hst; simplify_eq/=; try done.
    apply dec_stable in Hk. by exists [], turn, turns.
Qed.

End IncrementExtras.

Section IncrementExtras2.
Import Increment IncrementReading.

(** X19: an INCREMENT answered STATUS_OK has retried only after writes
    rejected with STATUS_WRONG_VERSION; every turn wrote, conditional on
    the version it read, the sum of the value it read (zero for an absent
    object that need not exist) and the increments; the value returned is
    the sum of the last turn, the version that of its write, and the
    changes are synced.  With no floating-point increment the value
    returned is the value read plus the integer increment modulo 2^64. *)
Theorem increment_adds_to_value_read (addDouble : Z → Z → Z)
    (mustExist : bool) (incrementInt64 incrementDouble : Z)
    (turns : list Turn) (out : Outcome) (synced : bool) :
  increment addDouble mustExist incrementInt64 incrementDouble turns
    = Some (out, synced) →
  status out = ObjectStatus.STATUS_OK →
  ∃ retried turn rest,
    turns = retried ++ turn :: rest ∧
    Forall (λ t, writeStatus t = ObjectStatus.STATUS_WRONG_VERSION) retried ∧
    writeStatus turn = ObjectStatus.STATUS_OK ∧
    readable mustExist turn ∧
    writes out =
      (writeOf addDouble mustExist incrementInt64 incrementDouble
         <$> retried ++ [turn]) ∧
    asInt64 out = summed addDouble incrementInt64 incrementDouble
                    (oldValue mustExist turn) ∧
    asDouble out = asInt64 out ∧
    newVersion out = writeVersion turn ∧
    synced = true ∧
    (isZeroDouble incrementDouble = true →
     - 2 ^ 63 ≤ oldValue mustExist turn < 2 ^ 63 →
     asInt64 out = wrapInt64 (oldValue mustExist turn + incrementInt64)).
Proof.
  unfold increment.
  destruct (incrementObject _ _ _ _ _ _ _) as [out'|] eqn:Hrun; [|done].
  intros ? Hst; simplify_eq.
  destruct (incrementObject_OK _ _ _ _ _ _ _ _ Hrun Hst)
    as (retried & turn & rest & -> & Hre & Hok & Hrd & Hws & Hv & Hd & Hn).
  exists retried, turn, rest. split; [done|]. split.
  { eapply Forall_impl; [done|]. by intros t [? _]. }
  split; [done|]. split; [done|]. split; [done|]. split; [done|].
  split; [done|]. split; [done|]. split; [by rewrite Hst|].
  intros Hz Hrange. rewrite Hv. unfold summed. rewrite Hz.
  destruct (decide (incrementInt64 ≠ 0)) as [|Hzero]; [done|].
  apply dec_stable in Hzero. rewrite Hzero, Z.add_0_r.
  unfold wrapInt64. rewrite Z.mod_small; lia.
Qed.

Lemma increment_adds_to_value_read_witness :
  ∃ out,
    increment (λ a _, a) false 2 0
      [mkTurn ObjectStatus.STATUS_OK 5 8 3 ObjectStatus.STATUS_WRONG_VERSION 0;
       mkTurn ObjectStatus.STATUS_OK 9 8 4 ObjectStatus.STATUS_OK 5]
    = Some (out, true) ∧
    asInt64 out = 11 ∧
    writes out = [mkWrite 7 3 true; mkWrite 11 4 true].
Proof.
  eexists. split; [vm_compute; reflexivity|].
  destruct (increment_adds_to_value_read (λ a _, a) false 2 0
              [mkTurn ObjectStatus.STATUS_OK 5 8 3
                 ObjectStatus.STATUS_WRONG_VERSION 0;
               mkTurn ObjectStatus.STATUS_OK 9 8 4 ObjectStatus.STATUS_OK 5]
              _ true ltac:(vm_compute; reflexivity) eq_refl)
    as (retried & turn & rest & Hturns & _).
  split; reflexivity.
Defined.

End IncrementExtras2.

(* ================================================================== *)
(** * The properties of TX_DECISION *)
(* ================================================================== *)

Section TxDecisionExtras.
Import TabletManager TxDecision TxDecisionReading.
Context {PreparedWrites : Type}.
Variable peekOp : PreparedWrites → Z → Z → Z.
Variable popOp : PreparedWrites → Z → Z → PreparedWrites.
Variable opType : Z → OpType.

Lemma commitOp_spec decision opPtr (m : @Master PreparedWrites) :
  tabletManager (commitOp opType decision opPtr m) = tabletManager m ∧
  preparedWrites (commitOp opType decision opPtr m) = preparedWrites m ∧
  status (commitOp opType decision opPtr m) = status m ∧
  ∃ evs, trace (commitOp opType decision opPtr m) = trace m ++ evs ∧
         Forall (λ e, quiet e = true) evs ∧
         (decision ≠ COMMIT → Forall (λ e, noWriteCommitted e = true) evs).
Proof.
  unfold commitOp.
  destruct decision as [| |n]; [destruct (opType opPtr)| |]; simpl;
    (split; [done|]); (split; [done|]); (split; [done|]);
    first [ exists []; rewrite app_nil_r; by repeat split
          | eexists; split; [done|]; split; [by repeat constructor|];
            intros ?; (done || by repeat constructor) ].
Qed.

Lemma decideAll_spec decision leaseId participants :
  ∀ (m : @Master PreparedWrites) b m',
  decideAll peekOp popOp opType decision leaseId participants m = (b, m') →
  tabletManager m' = tabletManager m ∧
  ∃ evs,
    Forall (λ e, quiet e = true) evs ∧
    (decision ≠ COMMIT → Forall (λ e, noWriteCommitted e = true) evs) ∧
    if b then
      trace m' = trace m ++ evs ∧ status m' = status m ∧
      ∀ p, p ∈ participants → notServed p (tabletManager m) = false
    else
      trace m' = trace m ++ evs ++ [SendReply STATUS_UNKNOWN_TABLET] ∧
      status m' = STATUS_UNKNOWN_TABLET ∧
      ∃ p, p ∈ participants ∧ notServed p (tabletManager m) = true.
Proof.
  induction participants as [|p participants IH]; intros m b m'; simpl.
  - intros ?; simplify_eq. split; [done|]. exists [].
    rewrite app_nil_r. repeat split; try done. by intros p ?%elem_of_nil.
  - destruct (notServed p (tabletManager m)) eqn:Hp.
    + intros ?; simplify_eq. split; [done|]. exists []. simpl.
      repeat split; try done. exists p. split; [left|done].
    + destruct (decide (peekOp (preparedWrites m) leaseId (rpcId p) = 0))
        as [Hz|Hnz].
      * intros H. apply IH in H as (Htm & evs & Hq & Hw & Hb).
        split; [done|]. exists evs. split; [done|]. split; [done|].
        destruct b.
        -- destruct Hb as (? & ? & Hall). repeat split; try done.
           intros q [->|Hq']%elem_of_cons; auto.
        -- destruct Hb as (? & ? & q & Hq' & ?). repeat split; try done.
           exists q. split; [by right|done].
      * intros H. apply IH in H as (Htm & evs & Hq & Hw & Hb). simpl in *.
        destruct (commitOp_spec decision
                    (peekOp (preparedWrites m) leaseId (rpcId p)) m)
          as (Hctm & _ & Hcst & cevs & Hctr & Hcq & Hcw).
        rewrite Hctm in *. rewrite Hctr in *. rewrite Hcst in *.
        split; [done|].
        exists (cevs ++ PopOp leaseId (rpcId p) :: evs).
        split; [apply Forall_app; split; [done|by constructor]|].
        split.
        { intros Hd. apply Forall_app.
          split; [by apply Hcw|constructor; [done|by apply Hw]]. }
        destruct b.
        -- destruct Hb as (Htr & ? & Hall). repeat split; try done.
           ++ rewrite Htr, <- !app_assoc. done.
           ++ intros q [->|Hq']%elem_of_cons; auto.
        -- destruct Hb as (Htr & ? & q & Hq' & ?). repeat split; try done.
           ++ rewrite Htr, <- !app_assoc. done.
           ++ exists q. split; [by right|done].
Qed.

(** X20: TX_DECISION never changes the tablet table.  For COMMIT and
    ABORT nothing is replied or synced while the participants are gone
    through; if every participant is served, the handler syncs and then
    replies STATUS_OK; if one is not, it replies STATUS_UNKNOWN_TABLET and
    does not sync; ABORT commits no write and no remove.  For any other
    decision the handler replies twice: STATUS_REQUEST_FORMAT_ERROR first
    and, after the sync, STATUS_OK, which is the status left in the
    response header. *)
Theorem txDecision_replies (decision : Decision) (leaseId : Z)
    (participants : list TxParticipant) (m : @Master PreparedWrites) :
  let m' := txDecision peekOp popOp opType decision leaseId participants m in
  tabletManager m' = tabletManager m ∧
  match decision with
  | OTHER_DECISION _ =>
      trace m' = trace m ++ [SendReply STATUS_REQUEST_FORMAT_ERROR;
                             SyncChanges; SendReply STATUS_OK] ∧
      status m' = STATUS_OK ∧ preparedWrites m' = preparedWrites m
  | _ =>
      ∃ evs,
        Forall (λ e, quiet e = true) evs ∧
        (decision = ABORT → Forall (λ e, noWriteCommitted e = true) evs) ∧
        (((∀ p, p ∈ participants →
                notServed p (tabletManager m) = false) ∧
          trace m' = trace m ++ evs ++ [SyncChanges; SendReply STATUS_OK] ∧
          status m' = STATUS_OK) ∨
         ((∃ p, p ∈ participants ∧ notServed p (tabletManager m) = true) ∧
          trace m' = trace m ++ evs ++ [SendReply STATUS_UNKNOWN_TABLET] ∧
          status m' = STATUS_UNKNOWN_TABLET))
  end.
Proof.
  cbv zeta. unfold txDecision.
  destruct decision as [| |n].
  - destruct (decideAll _ _ _ COMMIT _ _ _) as [b m1] eqn:Hrun.
    apply decideAll_spec in Hrun as (Htm & evs & Hq & Hw & Hb).
    destruct b; simpl.
    + destruct Hb as (Htr & Hst & Hall). split; [done|].
      exists evs. split; [done|]. split; [done|]. left.
      split; [done|]. split; [|done]. rewrite Htr, <- !app_assoc. done.
    + destruct Hb as (Htr & Hst & Hex). split; [done|].
      exists evs. split; [done|]. split; [done|]. right. done.
  - destruct (decideAll _ _ _ ABORT _ _ _) as [b m1] eqn:Hrun.
    apply decideAll_spec in Hrun as (Htm & evs & Hq & Hw & Hb).
    destruct b; simpl.
    + destruct Hb as (Htr & Hst & Hall). split; [done|].
      exists evs. split; [done|]. split; [intros _; by apply Hw|]. left.
      split; [done|]. split; [|done]. rewrite Htr, <- !app_assoc. done.
    + destruct Hb as (Htr & Hst & Hex). split; [done|].
      exists evs. split; [done|]. split; [intros _; by apply Hw|].
      right. done.
  - simpl. split; [done|]. split; [|done]. by rewrite <- !app_assoc.
Qed.

End TxDecisionExtras.
